(** * Proyectate: the task-tree engine

    A shallow embedding of the recursive task-tree code of the
    application (the helpers at the top of [App.tsx] and the store
    callbacks of the [App] component; [moveTask] is the one of the
    variant of the file that has drop positions), with the properties
    of the specification stated and proved over it.

    Conventions of the embedding.
    - A JavaScript [string] is a [string] holding the bytes of its UTF-8
      encoding (what a string literal of this file holds); identifiers
      are strings.
    - A JavaScript [number] that holds an integer (progress, timestamps)
      is a [Z].
    - An array is a [list]; an object literal is a record value.
    - [generateId()] and [Date.now()] are inputs of the operations that
      call them. *)

From Stdlib Require Import ZArith Ascii String.
From stdpp Require Import base list strings.

Local Open Scope Z_scope.

(** ** Data model (the types file, as the code uses it) *)

(** [TaskStatus] is a string enum ([PENDING = 'PENDING'],
    [COMPLETED = 'COMPLETED']): both members are non-empty strings at
    run time, hence truthy (the code relies on it in
    [if (!currentStatus) return p]). *)
Inductive TaskStatus := PENDING | COMPLETED.

(** The attachment type [link] and the project field [imageUrl] are
    those of the variant of the application with drop positions, which
    fills them in; an optional field ([description?], [expanded?],
    [imageUrl?]) is an [option], [None] standing for [undefined]. *)
Inductive AttachmentType := image | document | audio | video | link.

Inductive ActivityType := comment | status_change | creation | attachment.

Record Attachment := mkAttachment {
  att_id : string;
  att_name : string;
  att_type : AttachmentType;
  att_url : string;
  att_createdAt : Z;
  att_createdBy : string
}.

Record ActivityLog := mkActivityLog {
  log_id : string;
  log_type : ActivityType;
  log_content : string;
  log_timestamp : Z;
  log_createdBy : string
}.

Local Unset Elimination Schemes.

Inductive Task := mkTask {
  t_id : string;
  t_title : string;
  t_description : option string;
  t_status : TaskStatus;
  t_subtasks : list Task;
  t_attachments : list Attachment;
  t_activity : list ActivityLog;
  t_tags : list string;
  t_expanded : option bool;
  t_createdBy : string
}.

Local Set Elimination Schemes.

Record Project := mkProject {
  p_id : string;
  p_title : string;
  p_subtitle : string;
  p_createdAt : Z;
  p_createdBy : string;
  p_tasks : list Task;
  p_imageUrl : option string
}.

Record AppState := mkAppState { projects : list Project }.

#[global] Instance TaskStatus_eq_dec : EqDecision TaskStatus.
Proof. solve_decision. Defined.

(** Induction over a task with the hypothesis for every subtask. *)
Section Task_induction.
Variable P : Task -> Prop.
Hypothesis step : forall t, Forall P (t_subtasks t) -> P t.

Fixpoint Task_ind (t : Task) : P t :=
  step t
    ((fix all (l : list Task) : Forall P l :=
        match l with
        | [] => @List.Forall_nil Task P
        | x :: l' => @List.Forall_cons Task P x l' (Task_ind x) (all l')
        end) (t_subtasks t)).
End Task_induction.

(** Object spread with one field overridden: [{ ...t, field: v }]. *)
Definition with_subtasks (t : Task) (l : list Task) : Task :=
  mkTask (t_id t) (t_title t) (t_description t) (t_status t) l
         (t_attachments t) (t_activity t) (t_tags t) (t_expanded t)
         (t_createdBy t).

Definition with_expanded (t : Task) (b : bool) : Task :=
  mkTask (t_id t) (t_title t) (t_description t) (t_status t) (t_subtasks t)
         (t_attachments t) (t_activity t) (t_tags t) (Some b) (t_createdBy t).

Definition with_status (t : Task) (s : TaskStatus) : Task :=
  mkTask (t_id t) (t_title t) (t_description t) s (t_subtasks t)
         (t_attachments t) (t_activity t) (t_tags t) (t_expanded t)
         (t_createdBy t).

Definition with_activity (t : Task) (a : list ActivityLog) : Task :=
  mkTask (t_id t) (t_title t) (t_description t) (t_status t) (t_subtasks t)
         (t_attachments t) a (t_tags t) (t_expanded t) (t_createdBy t).

Definition with_attachments (t : Task) (a : list Attachment) : Task :=
  mkTask (t_id t) (t_title t) (t_description t) (t_status t) (t_subtasks t)
         a (t_activity t) (t_tags t) (t_expanded t) (t_createdBy t).

Definition with_tasks (p : Project) (l : list Task) : Project :=
  mkProject (p_id p) (p_title p) (p_subtitle p) (p_createdAt p)
            (p_createdBy p) l (p_imageUrl p).

(** ** JavaScript helpers *)

(** [Math.round(total / n)] for an integer [total >= 0] and [n > 0]:
    the nearest integer, a tie going up.  The quotient of two such
    integers is a double whose distance to the exact quotient is far
    below [1 / (2 n)], so rounding the double and rounding the exact
    quotient agree; the exact quotient is what is modelled. *)
Definition Math_round_div (total n : Z) : Z := (2 * total + n) / (2 * n).

(** Truthiness of a [string | null]: [null] and the empty string are
    falsy. *)
Definition truthy (s : option string) : bool :=
  match s with
  | None => false
  | Some EmptyString => false
  | Some (String _ _) => true
  end.

(** Lower case on ASCII text: [A]..[Z] go to [a]..[z], every other byte
    stays. *)
Definition lower_ascii (c : ascii) : ascii :=
  let n := nat_of_ascii c in
  if ((65 <=? n)%nat && (n <=? 90)%nat)%bool then ascii_of_nat (n + 32) else c.

Fixpoint toLowerCase_ascii (s : string) : string :=
  match s with
  | EmptyString => EmptyString
  | String c s' => String (lower_ascii c) (toLowerCase_ascii s')
  end.

(** A string of ASCII characters only (every byte below 128). *)
Fixpoint ascii_text (s : string) : bool :=
  match s with
  | EmptyString => true
  | String c s' => (nat_of_ascii c <? 128)%nat && ascii_text s'
  end.

(** [String.prototype.toLowerCase] is the engine's: it follows the
    Unicode case tables, which are no part of this repository.  It is
    taken as given; what is known of it here is what it does on ASCII
    text. *)
Class Engine := {
  toLowerCase : string -> string;
  toLowerCase_on_ascii :
    forall s, ascii_text s = true -> toLowerCase s = toLowerCase_ascii s
}.

(** The engine that leaves every non-ASCII byte as it is; the examples
    run on it. *)
Definition ascii_engine : Engine :=
  {| toLowerCase := toLowerCase_ascii;
     toLowerCase_on_ascii := fun s _ => eq_refl |}.

(** An engine that knows more of the case tables: besides [A]..[Z], the
    capital letters of the Latin-1 supplement, U+00C0..U+00DE without
    the sign U+00D7 (in UTF-8 the byte C3 followed by 80..9E, without
    97), go to their small letters, 32 further on. *)
Definition is_upper_latin1 (c1 c2 : ascii) : bool :=
  let b2 := nat_of_ascii c2 in
  ((nat_of_ascii c1 =? 195) && (128 <=? b2) && (b2 <=? 158)
   && negb (b2 =? 151))%nat%bool.

Fixpoint toLowerCase_latin1 (s : string) : string :=
  match s with
  | EmptyString => EmptyString
  | String c1 r1 =>
      match r1 with
      | String c2 r2 =>
          if is_upper_latin1 c1 c2
          then String c1 (String (ascii_of_nat (nat_of_ascii c2 + 32))
                                 (toLowerCase_latin1 r2))
          else String (lower_ascii c1) (toLowerCase_latin1 r1)
      | EmptyString => String (lower_ascii c1) EmptyString
      end
  end.

Definition latin1_engine : Engine.
Proof.
  refine {| toLowerCase := toLowerCase_latin1 |}.
  induction s as [|c1 r1 IH]; [reflexivity|].
  change (ascii_text (String c1 r1))
    with ((nat_of_ascii c1 <? 128)%nat && ascii_text r1).
  intros [Hc Hr]%andb_prop. apply Nat.ltb_lt in Hc.
  destruct r1 as [|c2 r2]; [reflexivity|].
  change (toLowerCase_latin1 (String c1 (String c2 r2))) with
    (if is_upper_latin1 c1 c2
     then String c1 (String (ascii_of_nat (nat_of_ascii c2 + 32))
                            (toLowerCase_latin1 r2))
     else String (lower_ascii c1) (toLowerCase_latin1 (String c2 r2))).
  replace (is_upper_latin1 c1 c2) with false.
  - rewrite (IH Hr). reflexivity.
  - unfold is_upper_latin1.
    replace (nat_of_ascii c1 =? 195)%nat with false; [reflexivity|].
    symmetry. apply Nat.eqb_neq. lia.
Defined.

(** [s.includes(q)]: [q] occurs in [s] as a contiguous substring. *)
Fixpoint includes (s q : string) : bool :=
  if String.prefix q s then true
  else match s with
       | EmptyString => false
       | String _ s' => includes s' q
       end.

(** White space removed by [trim()]: the WhiteSpace and LineTerminator
    code points of ECMAScript, in their UTF-8 encoding.  One byte: TAB,
    LF, VT, FF, CR (9..13) and SPACE (32).  Two bytes: U+00A0 (C2 A0).
    Three bytes: U+1680 (E1 9A 80), U+2000..U+200A (E2 80 80..8A),
    U+2028, U+2029 (E2 80 A8, A9), U+202F (E2 80 AF), U+205F (E2 81 9F),
    U+3000 (E3 80 80) and U+FEFF (EF BB BF). *)
Definition is_space1 (c1 : ascii) : bool :=
  let b1 := nat_of_ascii c1 in
  ((b1 =? 32)%nat || ((9 <=? b1)%nat && (b1 <=? 13)%nat))%bool.

Definition is_space2 (c1 c2 : ascii) : bool :=
  ((nat_of_ascii c1 =? 194)%nat && (nat_of_ascii c2 =? 160)%nat)%bool.

Definition is_space3 (c1 c2 c3 : ascii) : bool :=
  let b1 := nat_of_ascii c1 in
  let b2 := nat_of_ascii c2 in
  let b3 := nat_of_ascii c3 in
  (((b1 =? 225) && (b2 =? 154) && (b3 =? 128))
   || ((b1 =? 226) && (b2 =? 128)
       && (((128 <=? b3) && (b3 <=? 138)) || (b3 =? 168) || (b3 =? 169)
           || (b3 =? 175)))
   || ((b1 =? 226) && (b2 =? 129) && (b3 =? 159))
   || ((b1 =? 227) && (b2 =? 128) && (b3 =? 128))
   || ((b1 =? 239) && (b2 =? 187) && (b3 =? 191)))%nat%bool.

Fixpoint trimStart (s : string) : string :=
  match s with
  | EmptyString => EmptyString
  | String c1 r1 =>
      if is_space1 c1 then trimStart r1
      else match r1 with
           | EmptyString => s
           | String c2 r2 =>
               if is_space2 c1 c2 then trimStart r2
               else match r2 with
                    | EmptyString => s
                    | String c3 r3 =>
                        if is_space3 c1 c2 c3 then trimStart r3 else s
                    end
           end
  end.

(** What is left is cut where only white space follows. *)
Fixpoint trimEnd (s : string) : string :=
  match s with
  | EmptyString => EmptyString
  | String c s' =>
      match trimStart s with
      | EmptyString => EmptyString
      | String _ _ => String c (trimEnd s')
      end
  end.

Definition trim (s : string) : string := trimEnd (trimStart s).

(** [list.findIndex(p)]; [None] stands for [-1]. *)
Fixpoint findIndex {A} (p : A -> bool) (l : list A) : option nat :=
  match l with
  | [] => None
  | x :: l' => if p x then Some O else S <$> findIndex p l'
  end.

(** [list.splice(i, 0, x)]. *)
Definition splice_in {A} (i : nat) (x : A) (l : list A) : list A :=
  take i l ++ x :: drop i l.

(** [list.some(t => f(t))] for a callback that works by side effect:
    [f t = None] when the callback returns [false] and leaves [t] as it
    is, [f t = Some (x, t')] when it returns [true], having turned [t]
    into [t'] and stored [x] in a variable of the enclosing scope.  The
    iteration stops at the first [true]. *)
Fixpoint some_mut {A X} (f : A -> option (X * A)) (l : list A)
  : option (X * list A) :=
  match l with
  | [] => None
  | t :: l' =>
      match f t with
      | Some (x, t') => Some (x, t' :: l')
      | None =>
          match some_mut f l' with
          | Some (x, l'') => Some (x, t :: l'')
          | None => None
          end
      end
  end.

(** [tasks.filter(p).map(f)], in one pass. *)
Fixpoint filter_map_js {A B} (p : A -> bool) (f : A -> B) (l : list A)
  : list B :=
  match l with
  | [] => []
  | x :: l' => if p x then f x :: filter_map_js p f l' else filter_map_js p f l'
  end.

(** ** Progress *)

Fixpoint getTaskProgress (task : Task) : Z :=
  match t_subtasks task with
  | [] => if decide (t_status task = COMPLETED) then 100 else 0
  | _ :: _ =>
      let totalProgress :=
        fold_left (fun acc sub => acc + getTaskProgress sub)
                  (t_subtasks task) 0 in
      Math_round_div totalProgress (Z.of_nat (length (t_subtasks task)))
  end.

Definition getProjectProgress (project : Project) : Z :=
  match p_tasks project with
  | [] => 0
  | _ :: _ =>
      let total :=
        fold_left (fun acc t => acc + getTaskProgress t) (p_tasks project) 0 in
      Math_round_div total (Z.of_nat (length (p_tasks project)))
  end.

(** ** Search *)

(** The test of [searchTasks] on one task: [title] or, when there is
    one, [description] contains the query, both sides in lower case. *)
Definition matches `{Engine} (query : string) (task : Task) : bool :=
  includes (toLowerCase (t_title task)) (toLowerCase query)
  || match t_description task with
     | Some d => includes (toLowerCase d) (toLowerCase query)
     | None => false
     end.

(** The callback of [tasks.reduce(..., [])] in [searchTasks]. *)
Fixpoint searchTasks_step `{Engine} (query : string) (acc : list Task)
  (task : Task)
  : list Task :=
  let childMatches :=
    fold_left (fun a sub => searchTasks_step query a sub) (t_subtasks task) [] in
  if matches query task || (0 <? length childMatches)%nat
  then acc ++ [with_expanded (with_subtasks task childMatches) true]
  else acc.

Definition searchTasks `{Engine} (tasks : list Task) (query : string)
  : list Task :=
  fold_left (searchTasks_step query) tasks [].

(** ** Targeted updates *)

(** The callback of [tasks.map] in [findTaskAndUpdate]. *)
Fixpoint findTaskAndUpdate_task (targetId : string) (updater : Task -> Task)
  (task : Task) : Task :=
  if decide (t_id task = targetId) then updater task
  else if (0 <? length (t_subtasks task))%nat
       then with_subtasks task
              (map (findTaskAndUpdate_task targetId updater) (t_subtasks task))
       else task.

Definition findTaskAndUpdate (tasks : list Task) (targetId : string)
  (updater : Task -> Task) : list Task :=
  map (findTaskAndUpdate_task targetId updater) tasks.

(** The callback of [tasks.map] in [findTaskAndAddSubtask]. *)
Fixpoint findTaskAndAddSubtask_task (parentId : string) (newTask : Task)
  (task : Task) : Task :=
  if decide (t_id task = parentId)
  then with_expanded (with_subtasks task (t_subtasks task ++ [newTask])) true
  else if (0 <? length (t_subtasks task))%nat
       then with_subtasks task
              (map (findTaskAndAddSubtask_task parentId newTask)
                   (t_subtasks task))
       else task.

Definition findTaskAndAddSubtask (tasks : list Task) (parentId : string)
  (newTask : Task) : list Task :=
  map (findTaskAndAddSubtask_task parentId newTask) tasks.

(** The callback of [.map] in [findTaskAndDelete]. *)
Fixpoint findTaskAndDelete_task (targetId : string) (task : Task) : Task :=
  with_subtasks task
    (filter_map_js (fun t => bool_decide (t_id t <> targetId))
                   (findTaskAndDelete_task targetId) (t_subtasks task)).

Definition findTaskAndDelete (tasks : list Task) (targetId : string)
  : list Task :=
  filter_map_js (fun t => bool_decide (t_id t <> targetId))
                (findTaskAndDelete_task targetId) tasks.

(** [findDeep] of [resolveActiveTask]: the first task with the given
    id, a task before its subtasks, the subtasks in order. *)
Fixpoint findDeep_task (id : string) (t : Task) : option Task :=
  if decide (t_id t = id) then Some t
  else (fix scan (l : list Task) : option Task :=
          match l with
          | [] => None
          | c :: l' =>
              match findDeep_task id c with
              | Some found => Some found
              | None => scan l'
              end
          end) (t_subtasks t).

Fixpoint findDeep (lst : list Task) (id : string) : option Task :=
  match lst with
  | [] => None
  | t :: l' =>
      match findDeep_task id t with
      | Some found => Some found
      | None => findDeep l' id
      end
  end.

(** ** Relocation (the body of [moveTask]) *)

Inductive Position := before | after | inside.

Section Relocation.
Variables (draggedId targetId : string) (position : Position).

(** [removeOp(list)], given what the recursive call does on the
    subtasks of one task.  The result [Some (item, list')] is: the
    call returned [true], [draggedItem] is [item], and the array is
    now [list']; [None] is: it returned [false] (nothing changed). *)
Definition removeOp_with (recur : Task -> option (Task * Task))
  (lst : list Task) : option (Task * list Task) :=
  match findIndex (fun t => bool_decide (t_id t = draggedId)) lst with
  | Some idx =>
      match lst !! idx with
      | Some item => Some (item, delete idx lst)
      | None => None
      end
  | None => some_mut recur lst
  end.

(** [removeOp(t.subtasks)], seen from [t]. *)
Fixpoint removeOp_sub (t : Task) : option (Task * Task) :=
  match removeOp_with removeOp_sub (t_subtasks t) with
  | Some (item, subs) => Some (item, with_subtasks t subs)
  | None => None
  end.

Definition removeOp (lst : list Task) : option (Task * list Task) :=
  removeOp_with removeOp_sub lst.

Variable draggedItem : Task.

(** [insertOp(list)], in the same style; the unit value stands for
    the absence of an out variable. *)
Definition insertOp_with (recur : Task -> option (unit * Task))
  (lst : list Task) : option (unit * list Task) :=
  match findIndex (fun t => bool_decide (t_id t = targetId)) lst with
  | Some idx =>
      match position with
      | inside =>
          Some (tt, alter (fun t => with_expanded
                                (with_subtasks t (t_subtasks t ++ [draggedItem]))
                                true) idx lst)
      | _ =>
          let insertIdx :=
            match position with before => idx | _ => S idx end in
          Some (tt, splice_in insertIdx draggedItem lst)
      end
  | None => some_mut recur lst
  end.

Fixpoint insertOp_sub (t : Task) : option (unit * Task) :=
  match insertOp_with insertOp_sub (t_subtasks t) with
  | Some (_, subs) => Some (tt, with_subtasks t subs)
  | None => None
  end.

Definition insertOp (lst : list Task) : option (list Task) :=
  snd <$> insertOp_with insertOp_sub lst.
End Relocation.

(** ** Reordering (the [moveTask] of the variant without positions) *)

(** [list.splice(start, 0, x)] where [start] is the result of a
    [findIndex]: for [-1] the insertion point is one before the end
    (or the start of an empty array). *)
Definition splice_at_found {A} (start : option nat) (x : A) (l : list A)
  : list A :=
  match start with
  | Some i => splice_in i x l
  | None => splice_in (length l - 1) x l
  end.

(** [findAndReorderTask(tasks, ...)], given what it does on the
    subtasks of one task. *)
Definition findAndReorderTask_with (draggedId targetId : string)
  (recur : Task -> Task) (tasks : list Task) : list Task :=
  match findIndex (fun t => bool_decide (t_id t = draggedId)) tasks,
        findIndex (fun t => bool_decide (t_id t = targetId)) tasks with
  | Some draggedIndex, Some targetIndex =>
      match tasks !! draggedIndex with
      | Some movedTask =>
          let newTasks := delete draggedIndex tasks in
          let newTargetIndex :=
            findIndex (fun t => bool_decide (t_id t = targetId)) newTasks in
          splice_at_found newTargetIndex movedTask newTasks
      | None => tasks
      end
  | _, _ => map recur tasks
  end.

(** The callback of [tasks.map] in [findAndReorderTask]. *)
Fixpoint findAndReorderTask_task (draggedId targetId : string) (task : Task)
  : Task :=
  if (0 <? length (t_subtasks task))%nat
  then with_subtasks task
         (findAndReorderTask_with draggedId targetId
            (findAndReorderTask_task draggedId targetId) (t_subtasks task))
  else task.

Definition findAndReorderTask (tasks : list Task) (draggedId targetId : string)
  : list Task :=
  findAndReorderTask_with draggedId targetId
    (findAndReorderTask_task draggedId targetId) tasks.

(** The updater that [moveTask] hands to [modifyActiveProject].  The
    deep copy [JSON.parse(JSON.stringify(p.tasks))] has the value of
    [p.tasks]; every mutation is done on the copy, so [p] itself is
    what the two [return p] give back. *)
Definition moveTask_updater (draggedId targetId : string)
  (position : Position) (p : Project) : Project :=
  let newTasks := p_tasks p in
  match removeOp draggedId newTasks with
  | None => p
  | Some (draggedItem, newTasks) =>
      match insertOp targetId position draggedItem newTasks with
      | Some newTasks => with_tasks p newTasks
      | None => p
      end
  end.

(** ** The store: callbacks of the [App] component *)

(** [Partial<Task>]: the fields an update carries. *)
Record TaskPatch := mkTaskPatch {
  u_id : option string;
  u_title : option string;
  u_description : option string;
  u_status : option TaskStatus;
  u_subtasks : option (list Task);
  u_attachments : option (list Attachment);
  u_activity : option (list ActivityLog);
  u_tags : option (list string);
  u_expanded : option bool;
  u_createdBy : option string
}.

(** [{ ...t, ...updates }]. *)
Definition patch (t : Task) (updates : TaskPatch) : Task :=
  mkTask (default (t_id t) (u_id updates))
         (default (t_title t) (u_title updates))
         (match u_description updates with
          | Some d => Some d
          | None => t_description t
          end)
         (default (t_status t) (u_status updates))
         (default (t_subtasks t) (u_subtasks updates))
         (default (t_attachments t) (u_attachments updates))
         (default (t_activity t) (u_activity updates))
         (default (t_tags t) (u_tags updates))
         (match u_expanded updates with
          | Some b => Some b
          | None => t_expanded t
          end)
         (default (t_createdBy t) (u_createdBy updates)).

(** Truthiness of a status: see [TaskStatus]. *)
Definition truthy_status (s : TaskStatus) : bool := true.

(** [getStatus] of [toggleTaskStatus]; [None] stands for [null].
    [getStatus_sub taskId t] is [getStatus(t.subtasks)]. *)
Fixpoint getStatus_sub (taskId : string) (t : Task) : option TaskStatus :=
  (fix scan (l : list Task) : option TaskStatus :=
     match l with
     | [] => None
     | c :: l' =>
         if decide (t_id c = taskId) then Some (t_status c)
         else match getStatus_sub taskId c with
              | Some sub => if truthy_status sub then Some sub else scan l'
              | None => scan l'
              end
     end) (t_subtasks t).

Fixpoint getStatus (taskId : string) (tasks : list Task)
  : option TaskStatus :=
  match tasks with
  | [] => None
  | t :: l' =>
      if decide (t_id t = taskId) then Some (t_status t)
      else match getStatus_sub taskId t with
           | Some sub => if truthy_status sub then Some sub else getStatus taskId l'
           | None => getStatus taskId l'
           end
  end.

(** The updater that [toggleTaskStatus] hands to [modifyActiveProject];
    [user] is [currentUser!.id]. *)
Definition toggleTaskStatus_updater (user taskId logId : string) (now : Z)
  (p : Project) : Project :=
  match getStatus taskId (p_tasks p) with
  | None => p
  | Some currentStatus =>
      if negb (truthy_status currentStatus) then p
      else
        let newStatus :=
          if decide (currentStatus = COMPLETED) then PENDING else COMPLETED in
        let log :=
          mkActivityLog logId status_change
            (if decide (newStatus = COMPLETED)
             then "Completó la tarea" else "Reabrió la tarea")
            now user in
        with_tasks p
          (findTaskAndUpdate (p_tasks p) taskId
             (fun t => with_activity (with_status t newStatus)
                         (t_activity t ++ [log])))
  end.

(** [handleSubmit] of [InputModal], through which every typed title
    goes before it reaches [addTask]: a blank value is dropped. *)
Definition handleSubmit (value : string) (onSubmit : string -> AppState -> AppState)
  (prev : AppState) : AppState :=
  match trim value with
  | EmptyString => prev
  | String _ _ => onSubmit value prev
  end.


Definition modifyActiveProject (activeProjectId : option string)
  (updater : Project -> Project) (prev : AppState) : AppState :=
  if truthy activeProjectId
  then mkAppState
         (map (fun p => if decide (Some (p_id p) = activeProjectId)
                        then updater p else p)
              (projects prev))
  else prev.

Section Store.
(** [currentUser] is the id of the selected user, if any;
    [activeProjectId] the id of the open project, if any. *)
Variables (currentUser : option string) (activeProjectId : option string).

(** The two ids and the time stamp are what [generateId()] (twice) and
    [Date.now()] return during the call. *)
Definition newTaskOf (user : string) (title : string)
  (taskId logId : string) (now : Z) : Task :=
  mkTask taskId title None PENDING [] [] 
         [mkActivityLog logId creation "Creado" now user]
         [] (Some true) user.

Definition addTask (parentId : option string) (title : string)
  (taskId logId : string) (now : Z) (prev : AppState) : AppState :=
  match currentUser with
  | None => prev
  | Some user =>
      let newTask := newTaskOf user title taskId logId now in
      modifyActiveProject activeProjectId
        (fun p =>
           match parentId with
           | Some pid =>
               if truthy parentId
               then with_tasks p (findTaskAndAddSubtask (p_tasks p) pid newTask)
               else with_tasks p (p_tasks p ++ [newTask])
           | None => with_tasks p (p_tasks p ++ [newTask])
           end) prev
  end.

Definition moveTask (draggedId targetId : string) (position : Position)
  : AppState -> AppState :=
  modifyActiveProject activeProjectId
    (moveTask_updater draggedId targetId position).

(** [moveTask] of the variant without positions. *)
Definition moveTask_reorder (draggedId targetId : string)
  : AppState -> AppState :=
  modifyActiveProject activeProjectId
    (fun p => with_tasks p (findAndReorderTask (p_tasks p) draggedId targetId)).

Definition deleteTask (taskId : string) : AppState -> AppState :=
  modifyActiveProject activeProjectId
    (fun p => with_tasks p (findTaskAndDelete (p_tasks p) taskId)).

Definition addActivity (taskId content : string) (type : ActivityType)
  (logId : string) (now : Z) (prev : AppState) : AppState :=
  match currentUser with
  | None => prev
  | Some user =>
      modifyActiveProject activeProjectId
        (fun p => with_tasks p
           (findTaskAndUpdate (p_tasks p) taskId
              (fun t => with_activity t
                 (t_activity t ++ [mkActivityLog logId type content now user]))))
        prev
  end.

Definition addAttachment (taskId : string) (type : AttachmentType)
  (name url : string) (attId : string) (now : Z) (prev : AppState)
  : AppState :=
  match currentUser with
  | None => prev
  | Some user =>
      let att := mkAttachment attId name type url now user in
      modifyActiveProject activeProjectId
        (fun p => with_tasks p
           (findTaskAndUpdate (p_tasks p) taskId
              (fun t => with_attachments t (t_attachments t ++ [att]))))
        prev
  end.

(** [!t.expanded] is [true] for a task without the field. *)
Definition toggleExpand (taskId : string) : AppState -> AppState :=
  modifyActiveProject activeProjectId
    (fun p => with_tasks p
       (findTaskAndUpdate (p_tasks p) taskId
          (fun t => with_expanded t (negb (default false (t_expanded t)))))).
Definition updateTask (taskId : string) (updates : TaskPatch)
  : AppState -> AppState :=
  modifyActiveProject activeProjectId
    (fun p => with_tasks p
       (findTaskAndUpdate (p_tasks p) taskId (fun t => patch t updates))).

(** The component renders its callbacks only once a user is selected,
    which is what the non-null assertion [currentUser!] stands on; the
    selected user's id is the argument [user]. *)
Definition toggleTaskStatus (user taskId logId : string) (now : Z)
  : AppState -> AppState :=
  modifyActiveProject activeProjectId
    (toggleTaskStatus_updater user taskId logId now).
End Store.

(** ** Notions the statements use *)

(** The ids of a task and all its descendants, the task first. *)
Fixpoint ids_task (t : Task) : list string :=
  t_id t :: flat_map ids_task (t_subtasks t).

(** The ids of a forest, at all depths, with repetitions. *)
Definition ids (tasks : list Task) : list string := flat_map ids_task tasks.

(** [occurs t tasks]: [t] is a node of the forest, at some depth. *)
Inductive occurs (t : Task) : list Task -> Prop :=
| occurs_here tasks : In t tasks -> occurs t tasks
| occurs_below parent tasks :
    In parent tasks -> occurs t (t_subtasks parent) -> occurs t tasks.

(** A forest with the sibling list of one level left open: [Hole] is
    the root level, [Below l1 t c l2] goes down into the subtasks of the
    task that stands between [l1] and [l2]. *)
Inductive Level :=
| Hole
| Below (l1 : list Task) (parent : Task) (c : Level) (l2 : list Task).

Fixpoint plug (c : Level) (siblings : list Task) : list Task :=
  match c with
  | Hole => siblings
  | Below l1 parent c' l2 =>
      l1 ++ with_subtasks parent (plug c' siblings) :: l2
  end.

Definition Zsum (l : list Z) : Z := foldr Z.add 0 l.

(** All the nodes of a forest, a task before its subtasks. *)
Fixpoint nodes_task (t : Task) : list Task :=
  t :: flat_map nodes_task (t_subtasks t).

Definition nodes (tasks : list Task) : list Task := flat_map nodes_task tasks.

(** ** Projects, statistics and the open task *)

Section Projects.
Variable currentUser : option string.

(** [addProject]; the id and the time stamp are what [generateId()] and
    [Date.now()] return during the call. *)
Definition addProject (title subtitle : string) (projectId : string) (now : Z)
  (prev : AppState) : AppState :=
  match currentUser with
  | None => prev
  | Some user =>
      let newProject := mkProject projectId title subtitle now user [] None in
      mkAppState (projects prev ++ [newProject])
  end.

Definition deleteProject (id : string) (prev : AppState) : AppState :=
  mkAppState (List.filter (fun p => bool_decide (p_id p <> id)) (projects prev)).
End Projects.

(** [countTasks] of [StatsModal]: the two counters [totalTasks] and
    [completedTasks] of the enclosing scope are the state;
    [countTasks_task t] is the body of the [forEach] callback for [t]. *)
Fixpoint countTasks_task (t : Task) (counters : Z * Z) : Z * Z :=
  let (totalTasks, completedTasks) := counters in
  let totalTasks := totalTasks + 1 in
  let completedTasks :=
    if decide (t_status t = COMPLETED) then completedTasks + 1
    else completedTasks in
  fold_left (fun c sub => countTasks_task sub c) (t_subtasks t)
            (totalTasks, completedTasks).

Definition countTasks (tasks : list Task) (counters : Z * Z) : Z * Z :=
  fold_left (fun c t => countTasks_task t c) tasks counters.

(** The counters of [StatsModal] once every project has been gone
    through. *)
Definition statsCounters (state : AppState) : Z * Z :=
  fold_left (fun c p => countTasks (p_tasks p) c) (projects state) (0, 0).

(** [resolveActiveTask]: the task shown by the detail dialog; [None]
    stands for [undefined]. *)
Definition resolveActiveTask (state : AppState) (activeTask : option Task)
  (activeProjectId : option string) : option Task :=
  match activeTask with
  | None => None
  | Some active =>
      if truthy activeProjectId then
        match List.find (fun proj => bool_decide (Some (p_id proj) = activeProjectId))
                        (projects state) with
        | None => None
        | Some p =>
            match findDeep (p_tasks p) (t_id active) with
            | Some found => Some found
            | None => Some active
            end
        end
      else None
  end.

(** ** More notions the statements use *)

(** The values of [f] over a task and all its descendants, the task
    first. *)
Fixpoint field_task {A} (f : Task -> A) (t : Task) : list A :=
  f t :: flat_map (field_task f) (t_subtasks t).

Definition field {A} (f : Task -> A) (tasks : list Task) : list A :=
  flat_map (field_task f) tasks.

(** Every task without subtasks, at any depth, satisfies [P]. *)
Definition all_leaves (P : Task -> Prop) (tasks : list Task) : Prop :=
  Forall (fun u => t_subtasks u = [] -> P u) (nodes tasks).

(** Every task of every project has its [expanded] field. *)
Definition expanded_set (st : AppState) : Prop :=
  Forall (fun p => Forall (fun t => t_expanded t <> None) (nodes (p_tasks p)))
         (projects st).

(** The number of COMPLETED entries of a list of statuses. *)
Definition count_completed (l : list TaskStatus) : Z :=
  Z.of_nat (length (List.filter (fun s => bool_decide (s = COMPLETED)) l)).

(** Project by project, [st'] has the task ids, the task statuses and
    the progress of [st]. *)
Definition same_work (st st' : AppState) : Prop :=
  Forall2 (fun p p' => ids (p_tasks p') = ids (p_tasks p) /\
                       field t_status (p_tasks p') = field t_status (p_tasks p) /\
                       getProjectProgress p' = getProjectProgress p)
          (projects st) (projects st').

(** ** The search, as the specification words it

    A node is included when it matches or when one of its subtasks is
    included; the result keeps the included nodes, each with its
    subtasks replaced by their own filtered list and [expanded] set. *)
Fixpoint included `{Engine} (query : string) (t : Task) : bool :=
  matches query t || existsb (included query) (t_subtasks t).

Fixpoint prune_task `{Engine} (query : string) (t : Task) : Task :=
  with_expanded
    (with_subtasks t
       (filter_map_js (included query) (prune_task query) (t_subtasks t)))
    true.

Definition prune `{Engine} (query : string) (tasks : list Task) : list Task :=
  filter_map_js (included query) (prune_task query) tasks.

(** [q] occurs in [s] when case is ignored. *)
Definition contains_ci `{Engine} (s q : string) : Prop :=
  exists a b, toLowerCase s = String.append a (String.append (toLowerCase q) b).

(** The titles and descriptions of a task and of all its descendants
    are ASCII text. *)
Fixpoint ascii_task (t : Task) : bool :=
  ascii_text (t_title t)
  && match t_description t with
     | Some d => ascii_text d
     | None => true
     end
  && forallb ascii_task (t_subtasks t).

(** Some part of [s] is [q] up to the case of the letters [A]..[Z]. *)
Definition contains_up_to_ascii_case (s q : string) : Prop :=
  exists a m b,
    s = String.append a (String.append m b) /\
    toLowerCase_ascii m = toLowerCase_ascii q.

(** The title or the description of [t] contains [q], case ignored. *)
Definition text_matches `{Engine} (q : string) (t : Task) : Prop :=
  contains_ci (t_title t) q \/
  exists d, t_description t = Some d /\ contains_ci d q.

(** [t] itself or one of its descendants. *)
Definition in_subtree (u t : Task) : Prop := u = t \/ occurs u (t_subtasks t).

(** ** Relocation, as the specification words it *)

(** The siblings [l1 ++ t :: l2] of the target [t] once [item] has been
    put relative to it: immediately before it, immediately after it, or
    as its last subtask with [expanded] set. *)
Definition placed (position : Position) (item : Task)
  (l1 : list Task) (t : Task) (l2 : list Task) : list Task :=
  match position with
  | before => l1 ++ item :: t :: l2
  | after => l1 ++ t :: item :: l2
  | inside =>
      l1 ++ with_expanded (with_subtasks t (t_subtasks t ++ [item])) true :: l2
  end.

(** [tgt] is the id of a descendant of a node whose id is [d]. *)
Definition descendant_of (tasks : list Task) (d tgt : string) : Prop :=
  exists t, occurs t tasks /\ t_id t = d /\ tgt ∈ ids (t_subtasks t).

(** ** Object identity

    The same three updates once more, on objects that carry the
    reference they live at, so that "the same object" and "an equal
    object" can be told apart.  [next] is the first reference not yet in
    use; every object literal of the source takes a new one.  The fields
    of an object other than its subtasks are kept in [o_own] (whose own
    [t_subtasks] is not looked at). *)

Local Unset Elimination Schemes.

Inductive Obj := mkObj {
  o_ref : nat;
  o_own : Task;
  o_subtasks : list Obj
}.

Local Set Elimination Schemes.

Section Obj_induction.
Variable P : Obj -> Prop.
Hypothesis step : forall o, Forall P (o_subtasks o) -> P o.

Fixpoint Obj_ind (o : Obj) : P o :=
  step o
    ((fix all (l : list Obj) : Forall P l :=
        match l with
        | [] => @List.Forall_nil Obj P
        | x :: l' => @List.Forall_cons Obj P x l' (Obj_ind x) (all l')
        end) (o_subtasks o)).
End Obj_induction.

(** The task an object holds. *)
Fixpoint value (o : Obj) : Task :=
  with_subtasks (o_own o) (map value (o_subtasks o)).

(** [tasks.map(f)] for a callback that may create objects. *)
Fixpoint map_alloc {A B} (f : A -> nat -> B * nat) (l : list A) (next : nat)
  : list B * nat :=
  match l with
  | [] => ([], next)
  | x :: l' =>
      let (y, n1) := f x next in
      let (ys, n2) := map_alloc f l' n1 in
      (y :: ys, n2)
  end.

(** [tasks.filter(p).map(f)], likewise. *)
Fixpoint filter_map_alloc {A B} (p : A -> bool) (f : A -> nat -> B * nat)
  (l : list A) (next : nat) : list B * nat :=
  match l with
  | [] => ([], next)
  | x :: l' =>
      if p x then
        let (y, n1) := f x next in
        let (ys, n2) := filter_map_alloc p f l' n1 in
        (y :: ys, n2)
      else filter_map_alloc p f l' next
  end.

Fixpoint findTaskAndUpdate_obj (targetId : string)
  (updater : Obj -> nat -> Obj * nat) (task : Obj) (next : nat) : Obj * nat :=
  if decide (t_id (o_own task) = targetId) then updater task next
  else if (0 <? length (o_subtasks task))%nat
       then
         let (subs, n1) :=
           map_alloc (findTaskAndUpdate_obj targetId updater)
                     (o_subtasks task) next in
         (mkObj n1 (o_own task) subs, S n1)
       else (task, next).

Definition findTaskAndUpdate_objs (tasks : list Obj) (targetId : string)
  (updater : Obj -> nat -> Obj * nat) (next : nat) : list Obj * nat :=
  map_alloc (findTaskAndUpdate_obj targetId updater) tasks next.

Fixpoint findTaskAndAddSubtask_obj (parentId : string) (newTask : Obj)
  (task : Obj) (next : nat) : Obj * nat :=
  if decide (t_id (o_own task) = parentId)
  then (mkObj next (with_expanded (o_own task) true)
              (o_subtasks task ++ [newTask]), S next)
  else if (0 <? length (o_subtasks task))%nat
       then
         let (subs, n1) :=
           map_alloc (findTaskAndAddSubtask_obj parentId newTask)
                     (o_subtasks task) next in
         (mkObj n1 (o_own task) subs, S n1)
       else (task, next).

Definition findTaskAndAddSubtask_objs (tasks : list Obj) (parentId : string)
  (newTask : Obj) (next : nat) : list Obj * nat :=
  map_alloc (findTaskAndAddSubtask_obj parentId newTask) tasks next.

Fixpoint findTaskAndDelete_obj (targetId : string) (task : Obj) (next : nat)
  : Obj * nat :=
  let (subs, n1) :=
    filter_map_alloc (fun t => bool_decide (t_id (o_own t) <> targetId))
                     (findTaskAndDelete_obj targetId) (o_subtasks task) next in
  (mkObj n1 (o_own task) subs, S n1).

Definition findTaskAndDelete_objs (tasks : list Obj) (targetId : string)
  (next : nat) : list Obj * nat :=
  filter_map_alloc (fun t => bool_decide (t_id (o_own t) <> targetId))
                   (findTaskAndDelete_obj targetId) tasks next.

(** The references of the objects of a forest, at every depth. *)
Fixpoint refs_obj (o : Obj) : list nat :=
  o_ref o :: flat_map refs_obj (o_subtasks o).

Definition refs (objs : list Obj) : list nat := flat_map refs_obj objs.

Local Unset Elimination Schemes.

(** [kept_leaves old o o']: [o'] stands where [o] stood; a task without
    subtasks is the very object it was, and a task with subtasks is
    another object, none of those referred to in [old], with the same
    fields of its own and with subtasks related likewise. *)
Inductive kept_leaves (old : list nat) : Obj -> Obj -> Prop :=
| kept_leaf o : o_subtasks o = [] -> kept_leaves old o o
| new_node o o' :
    o_subtasks o <> [] ->
    o_ref o' ∉ old ->
    o_own o' = o_own o ->
    Forall2 (kept_leaves old) (o_subtasks o) (o_subtasks o') ->
    kept_leaves old o o'.

(** [all_new old o o']: [o'] stands where [o] stood and is another
    object, none of those referred to in [old], with the same fields of
    its own, and so are its subtasks at every depth. *)
Inductive all_new (old : list nat) : Obj -> Obj -> Prop :=
| new_task o o' :
    o_ref o' ∉ old ->
    o_own o' = o_own o ->
    Forall2 (all_new old) (o_subtasks o) (o_subtasks o') ->
    all_new old o o'.

Local Set Elimination Schemes.

(** ** The store, as the specification words it *)

(** PENDING becomes COMPLETED and COMPLETED becomes PENDING. *)
Definition flip_status (s : TaskStatus) : TaskStatus :=
  match s with
  | PENDING => COMPLETED
  | COMPLETED => PENDING
  end.

(** [st'] has the projects of [st], as many and in the same order (the
    ids stand where they stood), and every project whose id is not the
    active one is as it was. *)
Definition frame (activeProjectId : option string) (st st' : AppState) : Prop :=
  Forall2 (fun p p' => p_id p' = p_id p /\
                       (Some (p_id p) <> activeProjectId -> p' = p))
          (projects st) (projects st').

(** ** Statements proved by induction on a task *)

(** What one step of the reduction does, given the same for the
    subtasks. *)
Definition step_refines `{Engine} (q : string) (t : Task) : Prop :=
  forall acc,
    searchTasks_step q acc t =
      acc ++ (if included q t then [prune_task q t] else []).

(** What [removeOp] on the subtasks of [t] has done when it succeeds. *)
Definition removeOp_sub_found (d : string) (t : Task) : Prop :=
  forall item t',
    removeOp_sub d t = Some (item, t') ->
    exists c l1 l2,
      t_subtasks t = plug c (l1 ++ item :: l2) /\
      t' = with_subtasks t (plug c (l1 ++ l2)) /\ t_id item = d.

(** What [insertOp] on the subtasks of [t] has done when it succeeds. *)
Definition insertOp_sub_found (tgt : string) (pos : Position) (item t : Task)
  : Prop :=
  forall u t',
    insertOp_sub tgt pos item t = Some (u, t') ->
    exists c l1 x l2,
      t_subtasks t = plug c (l1 ++ x :: l2) /\ t_id x = tgt /\
      t' = with_subtasks t (plug c (placed pos item l1 x l2)).

(** ** Sample data *)

Definition leaf (id title : string) (s : TaskStatus) : Task :=
  mkTask id title None s [] [] [] [] (Some false) "u1".

Definition node (id title : string) (subs : list Task) : Task :=
  mkTask id title None PENDING subs [] [] [] (Some false) "u1".

Definition project_of (id : string) (tasks : list Task) : Project :=
  mkProject id "Proyecto" "" 0 "u1" tasks None.

(** A project with the task "a" (one subtask, "c") followed by the
    leaf "b". *)
Definition forest_acb : list Task :=
  [node "a" "A" [leaf "c" "C" PENDING]; leaf "b" "B" PENDING].

Definition project_acb : Project := project_of "p1" forest_acb.

(** A project with the leaf "b" followed by the leaf "a". *)
Definition project_ba : Project :=
  project_of "p1" [leaf "b" "B" PENDING; leaf "a" "A" PENDING].

(** Two projects in which an id occurs twice: the leaves "a", "b", "a";
    and the task "a" (one subtask, "c") followed by another "c". *)
Definition project_aba : Project :=
  project_of "p1"
    [leaf "a" "A" PENDING; leaf "b" "B" PENDING; leaf "a" "A2" PENDING].

Definition project_acc : Project :=
  project_of "p1" [node "a" "A" [leaf "c" "C" PENDING]; leaf "c" "C2" PENDING].

(** The task "p" with the subtask "a", as two objects at the
    references 1 and 0; the references from 2 on are free. *)
Definition objs_pa : list Obj :=
  [mkObj 1 (node "p" "P" []) [mkObj 0 (leaf "a" "A" PENDING) []]].

(** An updater that hands its argument back. *)
Definition keep (o : Obj) (next : nat) : Obj * nat := (o, next).

(** A state with two projects, "p1" (the sample above) and "p2". *)
Definition state_two : AppState :=
  mkAppState [project_acb; project_of "p2" [leaf "x" "X" PENDING]].

(** U+00A0 NO-BREAK SPACE followed by U+3000 IDEOGRAPHIC SPACE, byte by
    byte (C2 A0, E3 80 80). *)
Definition blank_title : string :=
  String (ascii_of_nat 194) (String (ascii_of_nat 160)
    (String (ascii_of_nat 227) (String (ascii_of_nat 128)
      (String (ascii_of_nat 128) EmptyString)))).

(** The scenario of the specification for the toggle: one PENDING
    leaf "A". *)
Definition project_A : Project := project_of "p1" [leaf "A" "A" PENDING].

(** * Properties *)

Lemma forest_ind (P : Task -> Prop) :
  (forall t, Forall P (t_subtasks t) -> P t) -> forall l : list Task, Forall P l.
Proof.
  intros step; induction l; constructor; auto.
  apply Task_ind; exact step.
Qed.

(** ** Progress *)

Lemma fold_left_add_Zsum {A} (f : A -> Z) (l : list A) (a : Z) :
  fold_left (fun acc x => acc + f x) l a = a + Zsum (map f l).
Proof.
  revert a; induction l as [|x l IH]; intros a; simpl.
  - lia.
  - rewrite IH. lia.
Qed.

Lemma Zsum_bounds (l : list Z) :
  Forall (fun x => 0 <= x <= 100) l ->
  0 <= Zsum l <= 100 * Z.of_nat (length l).
Proof.
  induction 1 as [|x l Hx _ IH]; simpl length; simpl Zsum; lia.
Qed.

Lemma Math_round_div_nearest (total n : Z) :
  0 < n ->
  2 * total - n < 2 * n * Math_round_div total n <= 2 * total + n.
Proof.
  intros Hn. unfold Math_round_div.
  pose proof (Z.mul_div_le (2 * total + n) (2 * n) ltac:(lia)).
  pose proof (Z.mul_succ_div_gt (2 * total + n) (2 * n) ltac:(lia)).
  lia.
Qed.

Lemma getTaskProgress_leaf (t : Task) :
  t_subtasks t = [] ->
  getTaskProgress t = if decide (t_status t = COMPLETED) then 100 else 0.
Proof. destruct t as [? ? ? ? subs ? ? ? ? ?]; simpl; intros ->; reflexivity. Qed.

Lemma getTaskProgress_node (t : Task) :
  t_subtasks t <> [] ->
  getTaskProgress t =
    Math_round_div (Zsum (map getTaskProgress (t_subtasks t)))
                   (Z.of_nat (length (t_subtasks t))).
Proof.
  destruct t as [? ? ? ? subs ? ? ? ? ?]; simpl; intros Hne.
  destruct subs as [|c subs]; [congruence|].
  rewrite (fold_left_add_Zsum getTaskProgress (c :: subs) 0). reflexivity.
Qed.

Lemma getTaskProgress_range (t : Task) : 0 <= getTaskProgress t <= 100.
Proof.
  induction t as [t IH] using Task_ind.
  destruct (t_subtasks t) as [|c subs] eqn:E.
  - rewrite getTaskProgress_leaf by assumption. case_decide; lia.
  - rewrite getTaskProgress_node by congruence. rewrite E in *.
    assert (Hb : Forall (fun x => 0 <= x <= 100) (map getTaskProgress (c :: subs))).
    { apply Forall_fmap. exact IH. }
    apply Zsum_bounds in Hb. rewrite length_map in Hb.
    set (n := Z.of_nat (length (c :: subs))) in *.
    assert (Hn : 0 < n) by (subst n; simpl length; lia).
    pose proof (Math_round_div_nearest (Zsum (map getTaskProgress (c :: subs))) n Hn).
    nia.
Qed.

(** C1.  The progress of a leaf is 100 when its status is COMPLETED and
    0 otherwise.  The progress [r] of a task with [n > 0] subtasks whose
    progresses sum to [total] is the integer nearest to [total / n], a
    tie going up: [total / n - 1/2 < r <= total / n + 1/2], written
    without fractions.  In both cases the progress lies in [0, 100]. *)
Theorem getTaskProgress_law (t : Task) :
  (t_subtasks t = [] ->
   getTaskProgress t = if decide (t_status t = COMPLETED) then 100 else 0) /\
  (t_subtasks t <> [] ->
   let n := Z.of_nat (length (t_subtasks t)) in
   let total := Zsum (map getTaskProgress (t_subtasks t)) in
   2 * total - n < 2 * n * getTaskProgress t <= 2 * total + n) /\
  0 <= getTaskProgress t <= 100.
Proof.
  split; [apply getTaskProgress_leaf|split; [|apply getTaskProgress_range]].
  intros Hne n total. rewrite getTaskProgress_node by assumption.
  apply Math_round_div_nearest. subst n.
  destruct (t_subtasks t); [congruence|simpl length; lia].
Qed.

(** The scenario of the specification: a PENDING and a COMPLETED leaf
    under one parent give 50. *)
Example getTaskProgress_half :
  getTaskProgress
    (node "A" "A" [leaf "B" "B" PENDING; leaf "C" "C" COMPLETED]) = 50.
Proof. reflexivity. Qed.

Lemma getTaskProgress_law_witness :
  getTaskProgress (leaf "C" "C" COMPLETED) = 100 /\
  2 * 100 - 2 <
    2 * 2 * getTaskProgress
              (node "A" "A" [leaf "B" "B" PENDING; leaf "C" "C" COMPLETED])
    <= 2 * 100 + 2.
Proof.
  split.
  - apply (proj1 (getTaskProgress_law (leaf "C" "C" COMPLETED))). reflexivity.
  - apply (proj1 (proj2 (getTaskProgress_law
             (node "A" "A" [leaf "B" "B" PENDING; leaf "C" "C" COMPLETED])))).
    discriminate.
Defined.

(** ** Search *)

Section Search_properties.
Context {engine : Engine}.

Lemma append_cons (c : ascii) (a b : string) :
  String.append (String c a) b = String c (String.append a b).
Proof. reflexivity. Qed.

Lemma append_nil (b : string) : String.append "" b = b.
Proof. reflexivity. Qed.

Lemma prefix_iff (q s : string) :
  String.prefix q s = true <-> exists b, s = String.append q b.
Proof.
  revert s; induction q as [|c q IH]; intros s; simpl.
  - split; [intros _; exists s; reflexivity|]. destruct s; reflexivity.
  - destruct s as [|c' s]; simpl.
    + split; [discriminate|intros [b Hb]; discriminate].
    + destruct (Ascii.ascii_dec c c') as [->|Hne].
      * rewrite IH. split; intros [b Hb]; exists b;
          rewrite append_cons in *; congruence.
      * split; [discriminate|intros [b Hb]].
        rewrite append_cons in Hb. congruence.
Qed.

Lemma includes_iff (s q : string) :
  includes s q = true <->
  exists a b, s = String.append a (String.append q b).
Proof.
  induction s as [|c s IH].
  - change (includes "" q) with (if String.prefix q "" then true else false).
    destruct (String.prefix q "") eqn:E.
    + apply prefix_iff in E as [b Hb]. split; [|reflexivity].
      intros _. exists ""%string, b. exact Hb.
    + split; [discriminate|]. intros (a & b & Hab).
      destruct a; [rewrite append_nil in Hab|discriminate].
      assert (String.prefix q "" = true) by (apply prefix_iff; eauto).
      congruence.
  - change (includes (String c s) q)
      with (if String.prefix q (String c s) then true else includes s q).
    destruct (String.prefix q (String c s)) eqn:E.
    + apply prefix_iff in E as [b Hb]. split; [|reflexivity].
      intros _. exists ""%string, b. exact Hb.
    + rewrite IH. split.
      * intros (a & b & ->). exists (String c a), b. reflexivity.
      * intros (a & b & Hab). destruct a as [|c' a].
        -- rewrite append_nil in Hab.
           assert (String.prefix q (String c s) = true)
             by (apply prefix_iff; eauto).
           congruence.
        -- rewrite append_cons in Hab. injection Hab as _ ->. eauto.
Qed.

Lemma matches_iff (q : string) (t : Task) :
  matches q t = true <-> text_matches q t.
Proof.
  unfold matches, text_matches, contains_ci.
  rewrite orb_true_iff, includes_iff.
  destruct (t_description t) as [d|].
  - rewrite includes_iff. split; (intros [H|H]; [left; exact H|right]).
    + exists d; auto.
    + destruct H as (d' & [= <-] & H). exact H.
  - split; (intros [H|H]; [left; exact H|]).
    + discriminate.
    + destruct H as (d' & [=] & _).
Qed.

Lemma included_eq (q : string) (t : Task) :
  included q t = matches q t || existsb (included q) (t_subtasks t).
Proof. destruct t; reflexivity. Qed.

Lemma prune_task_eq (q : string) (t : Task) :
  prune_task q t =
    with_expanded (with_subtasks t (prune q (t_subtasks t))) true.
Proof. destruct t; reflexivity. Qed.

Lemma searchTasks_step_eq (q : string) (acc : list Task) (t : Task) :
  searchTasks_step q acc t =
    let childMatches := searchTasks (t_subtasks t) q in
    if matches q t || (0 <? length childMatches)%nat
    then acc ++ [with_expanded (with_subtasks t childMatches) true]
    else acc.
Proof. destruct t; reflexivity. Qed.

Lemma filter_map_js_nonempty {A B} (p : A -> bool) (f : A -> B) (l : list A) :
  (0 <? length (filter_map_js p f l))%nat = existsb p l.
Proof.
  induction l as [|x l IH]; simpl; [reflexivity|].
  destruct (p x); simpl; [reflexivity|exact IH].
Qed.

Lemma filter_map_js_spec {A B} (p : A -> bool) (f : A -> B) (l : list A) :
  filter_map_js p f l = map f (List.filter p l).
Proof.
  induction l as [|x l IH]; simpl; [reflexivity|].
  destruct (p x); simpl; congruence.
Qed.

Lemma fold_step_refines (q : string) (l : list Task) :
  Forall (step_refines q) l ->
  forall acc, fold_left (searchTasks_step q) l acc = acc ++ prune q l.
Proof.
  induction 1 as [|t l Ht _ IH]; intros acc; simpl.
  - symmetry; apply app_nil_r.
  - rewrite IH, Ht. unfold prune; simpl.
    destruct (included q t); simpl.
    + rewrite <- app_assoc. reflexivity.
    + rewrite app_nil_r. reflexivity.
Qed.

Lemma searchTasks_step_refines (q : string) (t : Task) : step_refines q t.
Proof.
  induction t as [t IH] using Task_ind. intros acc.
  rewrite searchTasks_step_eq. cbv zeta. unfold searchTasks.
  rewrite (fold_step_refines q _ IH []). simpl.
  unfold prune at 1. rewrite filter_map_js_nonempty.
  rewrite <- included_eq, prune_task_eq.
  destruct (included q t); [reflexivity|symmetry; apply app_nil_r].
Qed.

Lemma searchTasks_prune (tasks : list Task) (q : string) :
  searchTasks tasks q = prune q tasks.
Proof.
  unfold searchTasks.
  rewrite (fold_step_refines q tasks); [reflexivity|].
  apply forest_ind. intros t _. apply searchTasks_step_refines.
Qed.

Lemma in_filter_map_js {A B} (p : A -> bool) (f : A -> B) (l : list A) (y : B) :
  In y (filter_map_js p f l) <-> exists x, In x l /\ p x = true /\ y = f x.
Proof.
  rewrite filter_map_js_spec, in_map_iff. split.
  - intros (x & <- & Hx). apply filter_In in Hx as [? ?]. eauto.
  - intros (x & Hx & Hp & ->). exists x. split; [reflexivity|].
    apply filter_In; auto.
Qed.

Lemma existsb_included_occurs (q : string) (u : Task) (l : list Task) :
  occurs u l -> included q u = true -> existsb (included q) l = true.
Proof.
  induction 1 as [l Hin|parent l Hin _ IH]; intros Hu.
  - apply existsb_exists. eauto.
  - apply existsb_exists. exists parent. split; [assumption|].
    rewrite included_eq, (IH Hu). apply orb_true_r.
Qed.

Lemma included_iff (q : string) (t : Task) :
  included q t = true <->
  text_matches q t \/
  exists u, occurs u (t_subtasks t) /\ included q u = true.
Proof.
  rewrite included_eq, orb_true_iff, matches_iff. split.
  - intros [H|H]; [left; exact H|right].
    apply existsb_exists in H as (c & Hc & Hi).
    exists c. split; [apply occurs_here; exact Hc|exact Hi].
  - intros [H|(u & Hu & Hi)]; [left; exact H|right].
    eapply existsb_included_occurs; eassumption.
Qed.

Lemma in_subtree_occurs (u c : Task) (l : list Task) :
  In c l -> in_subtree u c -> occurs u l.
Proof.
  intros Hc [->|Hu]; [apply occurs_here; exact Hc|].
  eapply occurs_below; eassumption.
Qed.

(** A task is included exactly when it or one of its descendants
    matches. *)
Lemma included_closed (q : string) (t : Task) :
  included q t = true <-> exists u, in_subtree u t /\ text_matches q u.
Proof.
  split.
  - induction t as [t IH] using Task_ind.
    rewrite included_eq, orb_true_iff, matches_iff. intros [H|H].
    + exists t. split; [left; reflexivity|exact H].
    + apply existsb_exists in H as (c & Hc & Hi).
      rewrite Forall_forall in IH.
      destruct (IH c (proj2 (list_elem_of_In _ _) Hc) Hi) as (u & Hu & Hm).
      exists u. split; [right; eapply in_subtree_occurs; eassumption|exact Hm].
  - intros (u & [->|Hu] & Hm).
    + rewrite included_eq. apply orb_true_iff. left. apply matches_iff, Hm.
    + rewrite included_eq. apply orb_true_iff. right.
      apply (existsb_included_occurs q u); [exact Hu|].
      rewrite included_eq. apply orb_true_iff. left. apply matches_iff, Hm.
Qed.

Lemma occurs_prune_expanded (q : string) (l : list Task) :
  Forall (fun t => forall u, occurs u (prune q (t_subtasks t)) ->
                             t_expanded u = Some true) l ->
  forall u, occurs u (prune q l) -> t_expanded u = Some true.
Proof.
  intros Hall u Hu. rewrite Forall_forall in Hall.
  inversion Hu as [? Hin|parent ? Hin Hbelow]; subst.
  - apply in_filter_map_js in Hin as (t & _ & _ & ->).
    rewrite prune_task_eq. reflexivity.
  - apply in_filter_map_js in Hin as (t & Ht & _ & ->).
    rewrite prune_task_eq in Hbelow. simpl in Hbelow.
    apply (Hall t); [apply list_elem_of_In; exact Ht|exact Hbelow].
Qed.

Lemma prune_expanded (q : string) (l : list Task) (u : Task) :
  occurs u (prune q l) -> t_expanded u = Some true.
Proof.
  revert u. apply occurs_prune_expanded. apply forest_ind.
  intros t IH. apply occurs_prune_expanded. exact IH.
Qed.

Lemma matches_same_lower (q q' : string) (t : Task) :
  toLowerCase q' = toLowerCase q -> matches q' t = matches q t.
Proof. intros E. unfold matches. rewrite E. reflexivity. Qed.

Lemma prune_same_lower_with (q q' : string) (l : list Task) :
  Forall (fun t => included q' t = included q t /\
                   prune_task q' t = prune_task q t) l ->
  existsb (included q') l = existsb (included q) l /\ prune q' l = prune q l.
Proof.
  induction 1 as [|t l [Hi Hp] _ [IH1 IH2]]; [split; reflexivity|].
  unfold prune in *. simpl. rewrite Hi, Hp, IH1, IH2. auto.
Qed.

Lemma prune_task_same_lower (q q' : string) (t : Task) :
  toLowerCase q' = toLowerCase q ->
  included q' t = included q t /\ prune_task q' t = prune_task q t.
Proof.
  intros E. induction t as [t IH] using Task_ind.
  destruct (prune_same_lower_with q q' _ IH) as [H1 H2].
  rewrite !included_eq, !prune_task_eq, (matches_same_lower q q' t E), H1, H2.
  auto.
Qed.

Lemma toLowerCase_ascii_app (a b : string) :
  toLowerCase_ascii (String.append a b) =
    String.append (toLowerCase_ascii a) (toLowerCase_ascii b).
Proof.
  induction a as [|c a IH]; [reflexivity|].
  rewrite append_cons. simpl. rewrite IH. reflexivity.
Qed.

Lemma toLowerCase_ascii_split (s x y : string) :
  toLowerCase_ascii s = String.append x y ->
  exists a b, s = String.append a b /\
              toLowerCase_ascii a = x /\ toLowerCase_ascii b = y.
Proof.
  revert s. induction x as [|c x IH]; intros s E.
  - exists ""%string, s. auto.
  - destruct s as [|c' s]; [discriminate|].
    rewrite append_cons in E. simpl in E. injection E as Ec Es.
    destruct (IH s Es) as (a & b & -> & Ha & Hb).
    exists (String c' a), b. simpl. rewrite Ha, Ec. auto.
Qed.

Lemma contains_ci_on_ascii (s q : string) :
  ascii_text s = true -> ascii_text q = true ->
  contains_ci s q <-> contains_up_to_ascii_case s q.
Proof.
  intros Hs Hq. unfold contains_ci, contains_up_to_ascii_case.
  rewrite (toLowerCase_on_ascii s Hs), (toLowerCase_on_ascii q Hq). split.
  - intros (x & y & E).
    apply toLowerCase_ascii_split in E as (a & r & -> & <- & E).
    apply toLowerCase_ascii_split in E as (m & b & -> & Hm & <-).
    exists a, m, b. auto.
  - intros (a & m & b & -> & Hm).
    exists (toLowerCase_ascii a), (toLowerCase_ascii b).
    rewrite !toLowerCase_ascii_app, Hm. reflexivity.
Qed.

(** C4.  For every query (the empty one too), the result of the search
    is the list of the included tasks of the forest, in their order,
    each with [expanded] set and its subtasks replaced by the result of
    the search on them.  A task is included exactly when its title or
    description contains the query once both are in lower case, or one
    of its descendants is included; that is, when it or one of its
    descendants matches.  Every node of the result, at any depth, has
    [expanded] set.  The case of the query does not count: two queries
    with the same lower case give the same result.  On ASCII text the
    test is that some part of the text is the query up to the case of
    its letters. *)
Theorem searchTasks_spec (tasks : list Task) (query : string) :
  searchTasks tasks query =
    map (fun t => with_expanded
                    (with_subtasks t (searchTasks (t_subtasks t) query)) true)
        (List.filter (included query) tasks) /\
  (forall t, included query t = true <->
             text_matches query t \/
             exists u, occurs u (t_subtasks t) /\ included query u = true) /\
  (forall t, included query t = true <->
             exists u, in_subtree u t /\ text_matches query u) /\
  (forall u, occurs u (searchTasks tasks query) -> t_expanded u = Some true) /\
  (forall query', toLowerCase query' = toLowerCase query ->
                  searchTasks tasks query' = searchTasks tasks query) /\
  (forall s, ascii_text s = true -> ascii_text query = true ->
             (contains_ci s query <-> contains_up_to_ascii_case s query)).
Proof.
  split; [|split; [|split; [|split; [|split]]]].
  - rewrite searchTasks_prune. unfold prune. rewrite filter_map_js_spec.
    apply map_ext. intros t. rewrite prune_task_eq, searchTasks_prune.
    reflexivity.
  - intros t. apply included_iff.
  - intros t. apply included_closed.
  - intros u. rewrite searchTasks_prune. apply prune_expanded.
  - intros query' E. rewrite !searchTasks_prune.
    apply prune_same_lower_with, Forall_forall. intros t _.
    apply prune_task_same_lower. exact E.
  - intros s. apply contains_ci_on_ascii.
Qed.

End Search_properties.

Lemma ascii_task_eq (t : Task) :
  ascii_task t =
    ascii_text (t_title t)
    && match t_description t with
       | Some d => ascii_text d
       | None => true
       end
    && forallb ascii_task (t_subtasks t).
Proof. destruct t; reflexivity. Qed.

Lemma matches_on_ascii `{Engine} (q : string) (t : Task) :
  ascii_text q = true -> ascii_task t = true ->
  matches q t = @matches ascii_engine q t.
Proof.
  intros Hq. rewrite ascii_task_eq, !andb_true_iff. intros [[Ht Hd] _].
  unfold matches. simpl.
  rewrite (toLowerCase_on_ascii q Hq), (toLowerCase_on_ascii _ Ht).
  destruct (t_description t) as [d|]; [|reflexivity].
  rewrite (toLowerCase_on_ascii d Hd). reflexivity.
Qed.

Lemma searchTasks_step_on_ascii `{Engine} (q : string) (t : Task) :
  ascii_text q = true -> ascii_task t = true ->
  forall acc,
    searchTasks_step q acc t = @searchTasks_step ascii_engine q acc t.
Proof.
  intros Hq. induction t as [t IH] using Task_ind. intros Ht acc.
  rewrite !searchTasks_step_eq. cbv zeta.
  rewrite (matches_on_ascii q t Hq Ht).
  rewrite ascii_task_eq, !andb_true_iff, forallb_forall in Ht.
  destruct Ht as [_ Hsub].
  assert (E : searchTasks (t_subtasks t) q =
              @searchTasks ascii_engine (t_subtasks t) q).
  { unfold searchTasks. generalize (@nil Task).
    induction IH as [|c l Hc _ IHl]; intros acc'; [reflexivity|]. simpl.
    rewrite Hc by (apply Hsub; left; reflexivity).
    apply IHl. intros x Hx. apply Hsub. right. exact Hx. }
  rewrite E. reflexivity.
Qed.

(** On ASCII titles, descriptions and query, the search of any engine
    is the search that lowers [A]..[Z] only. *)
Lemma searchTasks_on_ascii `{Engine} (tasks : list Task) (q : string) :
  ascii_text q = true -> forallb ascii_task tasks = true ->
  searchTasks tasks q = @searchTasks ascii_engine tasks q.
Proof.
  intros Hq Hall. unfold searchTasks. generalize (@nil Task).
  induction tasks as [|t l IH]; intros acc; [reflexivity|]. simpl in *.
  apply andb_true_iff in Hall as [Ht Hl].
  rewrite (searchTasks_step_on_ascii q t Hq Ht). apply IH. exact Hl.
Qed.

Lemma searchTasks_spec_witness :
  @contains_ci ascii_engine "Buy milk" "buy" <->
  contains_up_to_ascii_case "Buy milk" "buy".
Proof.
  apply (proj2 (proj2 (proj2 (proj2 (proj2
           (@searchTasks_spec ascii_engine [] "buy")))))); reflexivity.
Defined.

(** The scenario of the specification, on any engine: A ("Buy milk")
    and B ("Call dentist") with the subtask C ("Buy bread"), searched
    for "buy". *)
Example searchTasks_buy `{Engine} :
  searchTasks
    [leaf "A" "Buy milk" PENDING;
     node "B" "Call dentist" [leaf "C" "Buy bread" PENDING]] "buy"
  = [with_expanded (leaf "A" "Buy milk" PENDING) true;
     with_expanded
       (node "B" "Call dentist"
          [with_expanded (leaf "C" "Buy bread" PENDING) true]) true].
Proof. rewrite searchTasks_on_ascii; reflexivity. Qed.

(** Beyond ASCII the search follows the engine: on one that knows the
    capital letters of the Latin-1 supplement, "école" finds
    "ÉCOLE". *)
Example searchTasks_ecole :
  @searchTasks latin1_engine [leaf "e" "ÉCOLE" PENDING] "école"
  = [with_expanded (leaf "e" "ÉCOLE" PENDING) true].
Proof. vm_compute. reflexivity. Qed.

(** ** Arrays: [findIndex], [splice], [some] *)

Lemma findIndex_Some {A} (p : A -> bool) (l : list A) (i : nat) :
  findIndex p l = Some i ->
  exists l1 x l2,
    l = l1 ++ x :: l2 /\ length l1 = i /\ p x = true /\
    Forall (fun y => p y = false) l1.
Proof.
  revert i; induction l as [|y l IH]; intros i; simpl; [discriminate|].
  destruct (p y) eqn:E.
  - intros [= <-]. exists [], y, l. auto.
  - destruct (findIndex p l) as [j|]; [|discriminate].
    intros [= <-]. destruct (IH j eq_refl) as (l1 & x & l2 & -> & <- & Hx & Hl1).
    exists (y :: l1), x, l2. auto.
Qed.

Lemma findIndex_None {A} (p : A -> bool) (l : list A) :
  findIndex p l = None <-> Forall (fun y => p y = false) l.
Proof.
  induction l as [|y l IH]; simpl.
  - split; auto.
  - destruct (p y) eqn:E.
    + split; [discriminate|]. intros H. inversion H; congruence.
    + destruct (findIndex p l); split; try discriminate; auto.
      * intros H. inversion H; subst. apply IH in H3. discriminate.
      * intros _. constructor; [assumption|]. apply IH. reflexivity.
Qed.

Lemma splice_in_middle {A} (l1 l2 : list A) (x : A) :
  splice_in (length l1) x (l1 ++ l2) = l1 ++ x :: l2.
Proof. unfold splice_in. rewrite take_app_length, drop_app_length. reflexivity. Qed.

Lemma splice_in_after {A} (l1 l2 : list A) (x y : A) :
  splice_in (S (length l1)) x (l1 ++ y :: l2) = l1 ++ y :: x :: l2.
Proof.
  replace (l1 ++ y :: l2) with ((l1 ++ [y]) ++ l2)
    by (rewrite <- app_assoc; reflexivity).
  replace (S (length l1)) with (length (l1 ++ [y]))
    by (rewrite length_app; simpl; lia).
  rewrite splice_in_middle, <- app_assoc. reflexivity.
Qed.

Lemma alter_middle {A} (f : A -> A) (l1 l2 : list A) (x : A) :
  alter f (length l1) (l1 ++ x :: l2) = l1 ++ f x :: l2.
Proof. induction l1 as [|y l1 IH]; simpl; [reflexivity|]. f_equal. exact IH. Qed.

Lemma some_mut_Some {A X} (f : A -> option (X * A)) (l l' : list A) (x : X) :
  some_mut f l = Some (x, l') ->
  exists l1 t t' l2,
    l = l1 ++ t :: l2 /\ l' = l1 ++ t' :: l2 /\ f t = Some (x, t') /\
    Forall (fun y => f y = None) l1.
Proof.
  revert l'; induction l as [|t l IH]; intros l'; simpl; [discriminate|].
  destruct (f t) as [[x0 t']|] eqn:E.
  - intros [= <- <-]. exists [], t, t', l. auto.
  - destruct (some_mut f l) as [[x0 l'']|]; [|discriminate].
    intros [= <- <-].
    destruct (IH l'' eq_refl) as (l1 & u & u' & l2 & -> & -> & Hu & Hl1).
    exists (t :: l1), u, u', l2. auto.
Qed.

Lemma some_mut_None {A X} (f : A -> option (X * A)) (l : list A) :
  some_mut f l = None <-> Forall (fun y => f y = None) l.
Proof.
  induction l as [|t l IH]; simpl.
  - split; auto.
  - destruct (f t) as [[x t']|] eqn:E.
    + split; [discriminate|]. intros H; inversion H; congruence.
    + destruct (some_mut f l) as [[x l'']|].
      * split; [discriminate|]. intros H; inversion H; subst.
        apply IH in H3. discriminate.
      * split; auto. intros _. constructor; [assumption|]. apply IH. reflexivity.
Qed.

Lemma some_mut_middle {A X} (f : A -> option (X * A))
  (l1 l2 : list A) (t t' : A) (x : X) :
  Forall (fun y => f y = None) l1 -> f t = Some (x, t') ->
  some_mut f (l1 ++ t :: l2) = Some (x, l1 ++ t' :: l2).
Proof.
  intros H Ht. induction H as [|y l1 Hy _ IH]; simpl.
  - rewrite Ht. reflexivity.
  - rewrite Hy, IH. reflexivity.
Qed.

Lemma findIndex_middle {A} (p : A -> bool) (l1 l2 : list A) (x : A) :
  Forall (fun y => p y = false) l1 -> p x = true ->
  findIndex p (l1 ++ x :: l2) = Some (length l1).
Proof.
  intros H Hx. induction H as [|y l1 Hy _ IH]; simpl.
  - rewrite Hx. reflexivity.
  - rewrite Hy, IH. reflexivity.
Qed.

(** ** Ids, occurrences and levels *)

Lemma with_subtasks_same (t : Task) : with_subtasks t (t_subtasks t) = t.
Proof. destruct t; reflexivity. Qed.

Lemma with_subtasks_twice (t : Task) (a b : list Task) :
  with_subtasks (with_subtasks t a) b = with_subtasks t b.
Proof. reflexivity. Qed.

Lemma ids_task_eq (t : Task) : ids_task t = t_id t :: ids (t_subtasks t).
Proof. destruct t; reflexivity. Qed.

Lemma ids_cons (t : Task) (l : list Task) : ids (t :: l) = ids_task t ++ ids l.
Proof. reflexivity. Qed.

Lemma ids_app (l1 l2 : list Task) : ids (l1 ++ l2) = ids l1 ++ ids l2.
Proof. unfold ids. apply flat_map_app. Qed.

Lemma ids_task_with_subtasks (t : Task) (l : list Task) :
  ids_task (with_subtasks t l) = t_id t :: ids l.
Proof. rewrite ids_task_eq. reflexivity. Qed.

Lemma not_in_ids (d : string) (l : list Task) :
  d ∉ ids l <->
  Forall (fun y => t_id y <> d /\ d ∉ ids (t_subtasks y)) l.
Proof.
  induction l as [|t l IH].
  - split; [constructor|]. intros _. apply not_elem_of_nil.
  - rewrite ids_cons, ids_task_eq, Forall_cons, <- IH.
    rewrite not_elem_of_app, not_elem_of_cons. intuition congruence.
Qed.

Lemma ids_plug_remove (c : Level) (l1 l2 : list Task) (x : Task) :
  ids (plug c (l1 ++ x :: l2)) ≡ₚ ids_task x ++ ids (plug c (l1 ++ l2)).
Proof.
  induction c as [|k1 parent c IH k2]; simpl.
  - rewrite !ids_app, ids_cons. apply Permutation_app_swap_app.
  - rewrite !ids_app, !ids_cons, !ids_task_with_subtasks, IH.
    rewrite (Permutation_middle (ids_task x) _ (t_id parent)).
    rewrite <- !app_assoc. apply Permutation_app_swap_app.
Qed.

Lemma occurs_plug (c : Level) (l1 l2 : list Task) (x : Task) :
  occurs x (plug c (l1 ++ x :: l2)).
Proof.
  induction c as [|k1 parent c IH k2]; simpl.
  - apply occurs_here. apply in_elt.
  - eapply occurs_below; [apply in_elt|exact IH].
Qed.

Lemma occurs_ids (t : Task) (l : list Task) :
  occurs t l -> forall i, i ∈ ids_task t -> i ∈ ids l.
Proof.
  induction 1 as [l Hin|parent l Hin _ IH]; intros i Hi.
  - apply list_elem_of_In, in_flat_map. exists t.
    split; [assumption|apply list_elem_of_In; assumption].
  - apply list_elem_of_In, in_flat_map. exists parent.
    split; [assumption|]. apply list_elem_of_In.
    rewrite ids_task_eq. right. apply IH. exact Hi.
Qed.

(** ** [removeOp] *)

Lemma removeOp_sub_eq (d : string) (t : Task) :
  removeOp_sub d t =
    match removeOp d (t_subtasks t) with
    | Some (item, subs) => Some (item, with_subtasks t subs)
    | None => None
    end.
Proof. destruct t; reflexivity. Qed.

Lemma findIndex_id_None (d : string) (l : list Task) :
  findIndex (fun t => bool_decide (t_id t = d)) l = None <->
  Forall (fun y => t_id y <> d) l.
Proof.
  rewrite findIndex_None. apply Forall_iff. intros y.
  rewrite bool_decide_eq_false. reflexivity.
Qed.

Lemma removeOp_found_with (d : string) (l : list Task) :
  Forall (removeOp_sub_found d) l ->
  forall item rest,
    removeOp d l = Some (item, rest) ->
    exists c l1 l2,
      l = plug c (l1 ++ item :: l2) /\ rest = plug c (l1 ++ l2) /\
      t_id item = d.
Proof.
  intros Hall item rest. unfold removeOp, removeOp_with.
  destruct (findIndex _ l) as [idx|] eqn:E.
  - apply findIndex_Some in E as (l1 & x & l2 & -> & <- & Hx & _).
    rewrite list_lookup_middle by reflexivity. rewrite delete_middle.
    intros [= <- <-]. apply bool_decide_eq_true in Hx.
    exists Hole, l1, l2. auto.
  - intros H. apply some_mut_Some in H
      as (k1 & t & t' & k2 & -> & -> & Ht & _).
    apply Forall_app in Hall as [_ Hall]. apply Forall_cons in Hall as [Hok _].
    destruct (Hok _ _ Ht) as (c & l1 & l2 & Hsub & -> & Hid).
    exists (Below k1 t c k2), l1, l2. simpl.
    rewrite <- Hsub, with_subtasks_same. auto.
Qed.

Lemma removeOp_sub_found_all (d : string) (t : Task) : removeOp_sub_found d t.
Proof.
  induction t as [t IH] using Task_ind. intros item t'.
  rewrite removeOp_sub_eq.
  destruct (removeOp d (t_subtasks t)) as [[item' subs]|] eqn:E; [|discriminate].
  intros [= <- <-].
  destruct (removeOp_found_with d _ IH _ _ E) as (c & l1 & l2 & ? & -> & ?).
  exists c, l1, l2. auto.
Qed.

(** What a successful [removeOp] has done: it took [item], whose id is
    the dragged one, out of the sibling list of one level. *)
Lemma removeOp_found (d : string) (l : list Task) (item : Task) (rest : list Task) :
  removeOp d l = Some (item, rest) ->
  exists c l1 l2,
    l = plug c (l1 ++ item :: l2) /\ rest = plug c (l1 ++ l2) /\ t_id item = d.
Proof.
  apply removeOp_found_with. apply forest_ind. intros t _.
  apply removeOp_sub_found_all.
Qed.

Lemma removeOp_None_with (d : string) (l : list Task) :
  Forall (fun t => removeOp_sub d t = None <-> d ∉ ids (t_subtasks t)) l ->
  removeOp d l = None <-> d ∉ ids l.
Proof.
  intros Hall. rewrite not_in_ids. unfold removeOp, removeOp_with.
  destruct (findIndex _ l) as [idx|] eqn:E.
  - apply findIndex_Some in E as (l1 & x & l2 & -> & <- & Hx & _).
    rewrite list_lookup_middle by reflexivity.
    apply bool_decide_eq_true in Hx. split; [discriminate|].
    intros H. apply Forall_app in H as [_ H]. apply Forall_cons in H as [[H _] _].
    contradiction.
  - apply findIndex_id_None in E. rewrite some_mut_None.
    rewrite !Forall_forall in *. split.
    + intros H t Ht. split; [auto|]. apply Hall; auto.
    + intros H t Ht. apply Hall; [assumption|]. apply H. assumption.
Qed.

Lemma removeOp_sub_None (d : string) (t : Task) :
  removeOp_sub d t = None <-> d ∉ ids (t_subtasks t).
Proof.
  induction t as [t IH] using Task_ind. rewrite removeOp_sub_eq.
  rewrite <- (removeOp_None_with d _ IH).
  destruct (removeOp d (t_subtasks t)) as [[? ?]|]; split; congruence.
Qed.

(** [removeOp] fails exactly when the dragged id is nowhere. *)
Lemma removeOp_None (d : string) (l : list Task) :
  removeOp d l = None <-> d ∉ ids l.
Proof.
  apply removeOp_None_with. apply forest_ind. intros t _.
  apply removeOp_sub_None.
Qed.

(** ** [insertOp] *)

Lemma insertOp_sub_eq (tgt : string) (pos : Position) (item t : Task) :
  insertOp_sub tgt pos item t =
    match insertOp tgt pos item (t_subtasks t) with
    | Some subs => Some (tt, with_subtasks t subs)
    | None => None
    end.
Proof.
  destruct t; simpl. unfold insertOp.
  destruct (insertOp_with _ _ _ _ _) as [[[] ?]|]; reflexivity.
Qed.

Lemma insertOp_eq (tgt : string) (pos : Position) (item : Task) (l : list Task) :
  insertOp tgt pos item l =
    match findIndex (fun t => bool_decide (t_id t = tgt)) l with
    | Some idx =>
        Some (match pos with
              | inside =>
                  alter (fun t => with_expanded
                                    (with_subtasks t (t_subtasks t ++ [item]))
                                    true) idx l
              | before => splice_in idx item l
              | after => splice_in (S idx) item l
              end)
    | None => snd <$> some_mut (insertOp_sub tgt pos item) l
    end.
Proof.
  unfold insertOp, insertOp_with.
  destruct (findIndex _ l); [destruct pos|]; reflexivity.
Qed.

Lemma insertOp_found_with (tgt : string) (pos : Position) (item : Task)
  (l : list Task) :
  Forall (insertOp_sub_found tgt pos item) l ->
  forall res,
    insertOp tgt pos item l = Some res ->
    exists c l1 x l2,
      l = plug c (l1 ++ x :: l2) /\ t_id x = tgt /\
      res = plug c (placed pos item l1 x l2).
Proof.
  intros Hall res. rewrite insertOp_eq.
  destruct (findIndex _ l) as [idx|] eqn:E.
  - apply findIndex_Some in E as (l1 & x & l2 & -> & <- & Hx & _).
    apply bool_decide_eq_true in Hx. intros [= <-].
    exists Hole, l1, x, l2. split; [reflexivity|split; [assumption|]].
    destruct pos; unfold placed.
    + apply splice_in_middle.
    + apply splice_in_after.
    + exact (alter_middle
               (fun t => with_expanded
                           (with_subtasks t (t_subtasks t ++ [item])) true)
               l1 l2 x).
  - destruct (some_mut _ l) as [[u l']|] eqn:Es; [|discriminate].
    intros [= <-]. apply some_mut_Some in Es
      as (k1 & t & t' & k2 & -> & -> & Ht & _).
    apply Forall_app in Hall as [_ Hall]. apply Forall_cons in Hall as [Hok _].
    destruct (Hok _ _ Ht) as (c & l1 & x & l2 & Hsub & Hid & ->).
    exists (Below k1 t c k2), l1, x, l2. simpl.
    rewrite <- Hsub, with_subtasks_same. auto.
Qed.

Lemma insertOp_sub_found_all (tgt : string) (pos : Position) (item t : Task) :
  insertOp_sub_found tgt pos item t.
Proof.
  induction t as [t IH] using Task_ind. intros u t'.
  rewrite insertOp_sub_eq.
  destruct (insertOp tgt pos item (t_subtasks t)) as [subs|] eqn:E; [|discriminate].
  intros [= <- <-].
  destruct (insertOp_found_with _ _ _ _ IH _ E) as (c & l1 & x & l2 & ? & ? & ->).
  exists c, l1, x, l2. auto.
Qed.

(** What a successful [insertOp] has done: it found a task [x] with the
    target id at some level and put [item] relative to it there. *)
Lemma insertOp_found (tgt : string) (pos : Position) (item : Task)
  (l res : list Task) :
  insertOp tgt pos item l = Some res ->
  exists c l1 x l2,
    l = plug c (l1 ++ x :: l2) /\ t_id x = tgt /\
    res = plug c (placed pos item l1 x l2).
Proof.
  apply insertOp_found_with. apply forest_ind. intros t _.
  apply insertOp_sub_found_all.
Qed.

Lemma insertOp_None_with (tgt : string) (pos : Position) (item : Task)
  (l : list Task) :
  Forall (fun t => insertOp_sub tgt pos item t = None <->
                   tgt ∉ ids (t_subtasks t)) l ->
  insertOp tgt pos item l = None <-> tgt ∉ ids l.
Proof.
  intros Hall. rewrite not_in_ids, insertOp_eq.
  destruct (findIndex _ l) as [idx|] eqn:E.
  - apply findIndex_Some in E as (l1 & x & l2 & -> & <- & Hx & _).
    apply bool_decide_eq_true in Hx. split; [discriminate|].
    intros H. apply Forall_app in H as [_ H]. apply Forall_cons in H as [[H _] _].
    contradiction.
  - apply findIndex_id_None in E.
    rewrite fmap_None, some_mut_None, !Forall_forall in *. split.
    + intros H t Ht. split; [auto|]. apply Hall; auto.
    + intros H t Ht. apply Hall; [assumption|]. apply H. assumption.
Qed.

Lemma insertOp_sub_None (tgt : string) (pos : Position) (item t : Task) :
  insertOp_sub tgt pos item t = None <-> tgt ∉ ids (t_subtasks t).
Proof.
  induction t as [t IH] using Task_ind. rewrite insertOp_sub_eq.
  rewrite <- (insertOp_None_with tgt pos item _ IH).
  destruct (insertOp tgt pos item (t_subtasks t)); split; congruence.
Qed.

(** [insertOp] fails exactly when the target id is nowhere. *)
Lemma insertOp_None (tgt : string) (pos : Position) (item : Task)
  (l : list Task) :
  insertOp tgt pos item l = None <-> tgt ∉ ids l.
Proof.
  apply insertOp_None_with. apply forest_ind. intros t _.
  apply insertOp_sub_None.
Qed.

Lemma ids_plug_perm (c : Level) (a b : list Task) (extra : list string) :
  ids a ≡ₚ extra ++ ids b ->
  ids (plug c a) ≡ₚ extra ++ ids (plug c b).
Proof.
  intros Hab. induction c as [|k1 parent c IH k2]; simpl; [exact Hab|].
  rewrite !ids_app, !ids_cons, !ids_task_with_subtasks, IH.
  rewrite (Permutation_middle extra _ (t_id parent)).
  rewrite <- !app_assoc. apply Permutation_app_swap_app.
Qed.

Lemma Permutation_pull {A} (a x i b : list A) :
  a ++ (x ++ i) ++ b ≡ₚ i ++ a ++ x ++ b.
Proof.
  rewrite (Permutation_app_comm x i), <- app_assoc.
  apply Permutation_app_swap_app.
Qed.

Lemma ids_task_inside (x item : Task) :
  ids_task (with_expanded (with_subtasks x (t_subtasks x ++ [item])) true) =
    ids_task x ++ ids_task item.
Proof.
  rewrite (ids_task_eq x), ids_task_eq. simpl.
  rewrite ids_app, ids_cons. simpl. rewrite app_nil_r. reflexivity.
Qed.

Lemma ids_placed (pos : Position) (item : Task) (l1 l2 : list Task) (x : Task) :
  ids (placed pos item l1 x l2) ≡ₚ ids_task item ++ ids (l1 ++ x :: l2).
Proof.
  destruct pos; unfold placed; rewrite !ids_app, !ids_cons.
  - apply Permutation_app_swap_app.
  - rewrite (app_assoc (ids_task x)). apply Permutation_pull.
  - rewrite ids_task_inside. apply Permutation_pull.
Qed.

(** ** Unique ids *)

Lemma NoDup_ids_sub (l : list Task) (t : Task) :
  NoDup (ids l) -> In t l -> NoDup (ids_task t).
Proof.
  induction l as [|a l IH]; [intros _ []|].
  rewrite ids_cons, NoDup_app. intros (Ha & _ & Hl) [->|Hin]; auto.
Qed.

Lemma NoDup_ids_top (l : list Task) (t t' : Task) (i : string) :
  NoDup (ids l) -> In t l -> In t' l ->
  i ∈ ids_task t -> i ∈ ids_task t' -> t = t'.
Proof.
  induction l as [|a l IH]; [intros _ []|].
  rewrite ids_cons, NoDup_app. intros (_ & Hdisj & Hl) Ht Ht' Hi Hi'.
  assert (Hin : forall u, In u l -> i ∈ ids_task u -> i ∈ ids l).
  { intros u Hu Hiu. apply (occurs_ids u); [apply occurs_here|]; assumption. }
  destruct Ht as [->|Ht], Ht' as [->|Ht']; auto.
  - exfalso. apply (Hdisj i Hi). eauto.
  - exfalso. apply (Hdisj i Hi'). eauto.
Qed.

Lemma occurs_id_in (t : Task) (l : list Task) :
  occurs t l -> t_id t ∈ ids l.
Proof.
  intros H. apply (occurs_ids t l H). rewrite ids_task_eq. left.
Qed.

(** With unique ids, an id names one node. *)
Lemma NoDup_ids_unique (l : list Task) (t t' : Task) :
  NoDup (ids l) -> occurs t l -> occurs t' l -> t_id t = t_id t' -> t = t'.
Proof.
  intros Hnd Ht. revert t' Hnd.
  induction Ht as [l Hin|parent l Hin Hsub IH]; intros t' Hnd Ht' Hid.
  - inversion Ht' as [? Hin'|parent' ? Hin' Hsub']; subst.
    + apply (NoDup_ids_top l t t' (t_id t)); auto.
      * rewrite ids_task_eq; left.
      * rewrite Hid, ids_task_eq; left.
    + assert (t = parent').
      { apply (NoDup_ids_top l t parent' (t_id t)); auto.
        - rewrite ids_task_eq; left.
        - rewrite Hid, ids_task_eq. right. apply occurs_id_in. exact Hsub'. }
      subst parent'. exfalso.
      pose proof (NoDup_ids_sub l t Hnd Hin) as Hn.
      rewrite ids_task_eq, NoDup_cons in Hn. destruct Hn as [Hn _].
      apply Hn. rewrite Hid. apply occurs_id_in. exact Hsub'.
  - pose proof (NoDup_ids_sub l parent Hnd Hin) as Hn.
    rewrite ids_task_eq, NoDup_cons in Hn. destruct Hn as [Hhead Hn].
    inversion Ht' as [? Hin'|parent' ? Hin' Hsub']; subst.
    + assert (parent = t').
      { apply (NoDup_ids_top l parent t' (t_id t')); auto.
        - rewrite <- Hid, ids_task_eq. right. apply occurs_id_in. exact Hsub.
        - rewrite ids_task_eq; left. }
      subst t'. exfalso. apply Hhead. rewrite <- Hid.
      apply occurs_id_in. exact Hsub.
    + assert (parent = parent').
      { apply (NoDup_ids_top l parent parent' (t_id t)); auto.
        - rewrite ids_task_eq. right. apply occurs_id_in. exact Hsub.
        - rewrite Hid, ids_task_eq. right. apply occurs_id_in. exact Hsub'. }
      subst parent'. apply IH; assumption.
Qed.

(** ** Relocation *)

Lemma with_tasks_same (p : Project) : with_tasks p (p_tasks p) = p.
Proof. destruct p; reflexivity. Qed.

(** The three ways [moveTask_updater] can go. *)
Lemma moveTask_updater_cases (d tgt : string) (pos : Position) (p : Project) :
  (removeOp d (p_tasks p) = None /\ moveTask_updater d tgt pos p = p) \/
  (exists item rest,
      removeOp d (p_tasks p) = Some (item, rest) /\
      insertOp tgt pos item rest = None /\ moveTask_updater d tgt pos p = p) \/
  (exists item rest res,
      removeOp d (p_tasks p) = Some (item, rest) /\
      insertOp tgt pos item rest = Some res /\
      moveTask_updater d tgt pos p = with_tasks p res).
Proof.
  unfold moveTask_updater.
  destruct (removeOp d (p_tasks p)) as [[item rest]|]; [|left; auto].
  destruct (insertOp tgt pos item rest) as [res|] eqn:E; right.
  - right. exists item, rest, res. auto.
  - left. exists item, rest. auto.
Qed.

Lemma removeOp_ids (d : string) (l rest : list Task) (item : Task) :
  removeOp d l = Some (item, rest) ->
  t_id item = d /\ occurs item l /\ ids l ≡ₚ ids_task item ++ ids rest.
Proof.
  intros H. apply removeOp_found in H as (c & l1 & l2 & -> & -> & Hid).
  split; [assumption|split]; [apply occurs_plug|apply ids_plug_remove].
Qed.

Lemma insertOp_ids (tgt : string) (pos : Position) (item : Task)
  (l res : list Task) :
  insertOp tgt pos item l = Some res ->
  ids res ≡ₚ ids_task item ++ ids l.
Proof.
  intros H. apply insertOp_found in H as (c & l1 & x & l2 & -> & _ & ->).
  apply ids_plug_perm, ids_placed.
Qed.

(** C10.  Whatever the dragged id, the target id and the position, the
    tasks that [moveTask] leaves in the project have the same ids, with
    the same multiplicities, as the tasks it found there: the dragged
    subtree is neither lost nor duplicated. *)
Theorem moveTask_ids_preserved (d tgt : string) (pos : Position) (p : Project) :
  ids (p_tasks (moveTask_updater d tgt pos p)) ≡ₚ ids (p_tasks p).
Proof.
  destruct (moveTask_updater_cases d tgt pos p)
    as [[_ ->]|[(item & rest & _ & _ & ->)|(item & rest & res & Hr & Hi & ->)]];
    try reflexivity.
  apply removeOp_ids in Hr as (_ & _ & Hr). apply insertOp_ids in Hi.
  simpl. rewrite Hi, Hr. reflexivity.
Qed.

Lemma removeOp_elsewhere (d : string) (l rest : list Task) (item : Task) :
  NoDup (ids l) -> removeOp d l = Some (item, rest) ->
  forall i, i ∈ ids_task item -> i ∉ ids rest.
Proof.
  intros Hnd Hr. apply removeOp_ids in Hr as (_ & _ & Hperm).
  rewrite Hperm in Hnd. apply NoDup_app in Hnd as (_ & Hdisj & _).
  exact Hdisj.
Qed.

(** C2, as amended.  [moveTask] gives back the project it was given,
    untouched, when the move is invalid: in a forest whose ids are all
    different, (1) when the dragged task is the target and (2) when the
    target is a descendant of the dragged task, whatever the position;
    in every forest, (3) when the dragged id is absent and (4) when the
    target id is not found once the dragged subtree has been taken out,
    in which case the removal is dropped. *)
Theorem moveTask_rejects (d tgt : string) (pos : Position) (p : Project) :
  (NoDup (ids (p_tasks p)) -> d = tgt -> moveTask_updater d tgt pos p = p) /\
  (NoDup (ids (p_tasks p)) -> descendant_of (p_tasks p) d tgt ->
   moveTask_updater d tgt pos p = p) /\
  (d ∉ ids (p_tasks p) -> moveTask_updater d tgt pos p = p) /\
  (forall item rest,
      removeOp d (p_tasks p) = Some (item, rest) -> tgt ∉ ids rest ->
      moveTask_updater d tgt pos p = p).
Proof.
  assert (Hcyc : NoDup (ids (p_tasks p)) ->
                 (forall item rest, removeOp d (p_tasks p) = Some (item, rest) ->
                                    tgt ∈ ids_task item) ->
                 moveTask_updater d tgt pos p = p).
  { intros Hnd Hin.
    destruct (moveTask_updater_cases d tgt pos p)
      as [[_ ->]|[(item & rest & _ & _ & ->)|(item & rest & res & Hr & Hi & _)]];
      try reflexivity.
    exfalso. assert (Hsome : insertOp tgt pos item rest <> None) by congruence.
    apply Hsome, insertOp_None.
    apply (removeOp_elsewhere d _ _ _ Hnd Hr). eauto. }
  repeat split.
  - intros Hnd <-. apply Hcyc; [assumption|]. intros item rest Hr.
    apply removeOp_ids in Hr as (<- & _ & _). rewrite ids_task_eq. left.
  - intros Hnd (t & Ht & Hid & Htgt). apply Hcyc; [assumption|].
    intros item rest Hr. apply removeOp_ids in Hr as (Hd & Hocc & _).
    assert (t = item) as ->
      by (apply (NoDup_ids_unique (p_tasks p)); auto; congruence).
    rewrite ids_task_eq. right. exact Htgt.
  - intros Habs. apply removeOp_None in Habs.
    unfold moveTask_updater. rewrite Habs. reflexivity.
  - intros item rest Hr Habs. apply (insertOp_None tgt pos item) in Habs.
    unfold moveTask_updater. rewrite Hr, Habs. reflexivity.
Qed.

Lemma moveTask_rejects_witness :
  moveTask_updater "a" "a" after project_acb = project_acb /\
  moveTask_updater "a" "c" inside project_acb = project_acb /\
  moveTask_updater "z" "b" before project_acb = project_acb /\
  moveTask_updater "b" "z" after project_acb = project_acb.
Proof.
  assert (Hnd : NoDup (ids (p_tasks project_acb)))
    by (apply (bool_decide_unpack _); vm_compute; exact I).
  split; [|split; [|split]].
  - apply (proj1 (moveTask_rejects "a" "a" after project_acb));
      [exact Hnd|reflexivity].
  - apply (proj1 (proj2 (moveTask_rejects "a" "c" inside project_acb)));
      [exact Hnd|].
    exists (node "a" "A" [leaf "c" "C" PENDING]).
    split; [apply occurs_here; left; reflexivity|].
    split; [reflexivity|]. apply (bool_decide_unpack _); vm_compute; exact I.
  - apply (proj1 (proj2 (proj2 (moveTask_rejects "z" "b" before project_acb)))).
    apply (bool_decide_unpack _); vm_compute; exact I.
  - apply (proj2 (proj2 (proj2 (moveTask_rejects "b" "z" after project_acb)))
             (leaf "b" "B" PENDING) [node "a" "A" [leaf "c" "C" PENDING]]);
      [reflexivity|].
    apply (bool_decide_unpack _); vm_compute; exact I.
Defined.

(** C2, as stated, fails in a forest where an id occurs twice: dropping
    the first "a" on "a" finds the second "a" once the first is taken
    out and moves the task; and moving "a" inside its own subtask "c"
    goes through when another "c" stands outside "a". *)
Lemma moveTask_rejects_counterexample :
  p_tasks (moveTask_updater "a" "a" before project_aba) =
    [leaf "b" "B" PENDING; leaf "a" "A" PENDING; leaf "a" "A2" PENDING] /\
  moveTask_updater "a" "a" before project_aba <> project_aba /\
  descendant_of (p_tasks project_acc) "a" "c" /\
  p_tasks (moveTask_updater "a" "c" inside project_acc) =
    [mkTask "c" "C2" None PENDING [node "a" "A" [leaf "c" "C" PENDING]]
            [] [] [] (Some true) "u1"] /\
  moveTask_updater "a" "c" inside project_acc <> project_acc.
Proof.
  split; [reflexivity|]. split; [vm_compute; discriminate|].
  split; [|split; [reflexivity|vm_compute; discriminate]].
  exists (node "a" "A" [leaf "c" "C" PENDING]).
  split; [|split; [reflexivity|]].
  - apply occurs_here. left. reflexivity.
  - apply (bool_decide_unpack _); vm_compute; exact I.
Qed.

(** C3.  When the dragged id and the target id are both in the forest
    and the target is neither a node with the dragged id nor inside the
    subtree of one, [moveTask] takes one task [item] with the dragged id
    out of its sibling list, subtree and all, finds a task [x] with the
    target id in what is left, and puts [item], as it was, relative to
    [x] in the sibling list of [x]: immediately before it, immediately
    after it, or as the last subtask of [x], whose [expanded] is then
    set. *)
Theorem moveTask_places (d tgt : string) (pos : Position) (p : Project) :
  d ∈ ids (p_tasks p) ->
  tgt ∈ ids (p_tasks p) ->
  (forall t, occurs t (p_tasks p) -> t_id t = d -> tgt ∉ ids_task t) ->
  exists item c l1 l2 c' k1 x k2,
    t_id item = d /\
    p_tasks p = plug c (l1 ++ item :: l2) /\
    plug c (l1 ++ l2) = plug c' (k1 ++ x :: k2) /\
    t_id x = tgt /\
    moveTask_updater d tgt pos p =
      with_tasks p (plug c' (placed pos item k1 x k2)).
Proof.
  intros Hd Htgt Hout.
  destruct (removeOp d (p_tasks p)) as [[item rest]|] eqn:Hr;
    [|apply removeOp_None in Hr; contradiction].
  pose proof (removeOp_ids _ _ _ _ Hr) as (Hid & Hocc & Hperm).
  assert (Hrest : tgt ∈ ids rest).
  { rewrite Hperm in Htgt. apply elem_of_app in Htgt as [Hin|Hin]; [|exact Hin].
    exfalso. exact (Hout item Hocc Hid Hin). }
  destruct (insertOp tgt pos item rest) as [res|] eqn:Hi;
    [|apply insertOp_None in Hi; contradiction].
  destruct (removeOp_found _ _ _ _ Hr) as (c & l1 & l2 & HF & -> & _).
  destruct (insertOp_found _ _ _ _ _ Hi) as (c' & k1 & x & k2 & Hrest' & Hx & ->).
  exists item, c, l1, l2, c', k1, x, k2. repeat split; auto.
  unfold moveTask_updater. rewrite Hr, Hi. reflexivity.
Qed.

Lemma nodes_task_eq (t : Task) :
  nodes_task t = t :: nodes (t_subtasks t).
Proof. destruct t; reflexivity. Qed.

Lemma occurs_nodes (t : Task) (l : list Task) :
  occurs t l -> In t (nodes l).
Proof.
  induction 1 as [l Hin|parent l Hin _ IH]; apply in_flat_map.
  - exists t. split; [assumption|]. rewrite nodes_task_eq. left. reflexivity.
  - exists parent. split; [assumption|]. rewrite nodes_task_eq. right. exact IH.
Qed.

(** The nodes of a forest written out, one case each. *)
Ltac occurs_cases H :=
  apply occurs_nodes in H; vm_compute in H;
  repeat match type of H with
    | _ \/ _ => destruct H as [<-|H]
    | False => destruct H
    end.

Lemma moveTask_places_witness :
  exists item c l1 l2 c' k1 x k2,
    t_id item = "b" /\
    p_tasks project_acb = plug c (l1 ++ item :: l2) /\
    plug c (l1 ++ l2) = plug c' (k1 ++ x :: k2) /\
    t_id x = "c" /\
    moveTask_updater "b" "c" inside project_acb =
      with_tasks project_acb (plug c' (placed inside item k1 x k2)).
Proof.
  apply (moveTask_places "b" "c" inside project_acb).
  - apply (bool_decide_unpack _); vm_compute; exact I.
  - apply (bool_decide_unpack _); vm_compute; exact I.
  - intros t Hocc Hid. occurs_cases Hocc;
      solve [discriminate Hid
            |apply (bool_decide_unpack _); vm_compute; exact I].
Defined.

(** The three positions on the sample project: "b" is put before "a",
    after "c" and inside "c". *)
Example moveTask_before_a :
  p_tasks (moveTask_updater "b" "a" before project_acb) =
    [leaf "b" "B" PENDING; node "a" "A" [leaf "c" "C" PENDING]].
Proof. reflexivity. Qed.

Example moveTask_after_c :
  p_tasks (moveTask_updater "b" "c" after project_acb) =
    [node "a" "A" [leaf "c" "C" PENDING; leaf "b" "B" PENDING]].
Proof. reflexivity. Qed.

Example moveTask_inside_c :
  p_tasks (moveTask_updater "b" "c" inside project_acb) =
    [node "a" "A"
       [with_expanded (node "c" "C" [leaf "b" "B" PENDING]) true]].
Proof. reflexivity. Qed.

(** ** Relocation when the ids involved are unique *)

Lemma not_in_ids_app (i : string) (l1 l2 : list Task) :
  i ∉ ids (l1 ++ l2) -> Forall (fun y => t_id y <> i) l1.
Proof.
  rewrite not_in_ids, Forall_app. intros [H _].
  eapply Forall_impl; [exact H|]. intros y [Hy _]. exact Hy.
Qed.

Lemma not_in_ids_plug_below (i : string) (k1 k2 : list Task) (parent : Task)
  (sub : list Task) :
  i ∉ ids (k1 ++ with_subtasks parent sub :: k2) ->
  Forall (fun y => t_id y <> i) (k1 ++ with_subtasks parent sub :: k2) /\
  Forall (fun y => i ∉ ids (t_subtasks y)) k1 /\ i ∉ ids sub.
Proof.
  rewrite not_in_ids. intros H. split; [|split].
  - eapply Forall_impl; [exact H|]. intros y [Hy _]. exact Hy.
  - apply Forall_app in H as [H _].
    eapply Forall_impl; [exact H|]. intros y [_ Hy]. exact Hy.
  - apply Forall_app in H as [_ H]. apply Forall_cons in H as [[_ H] _]. exact H.
Qed.

(** A task whose id is nowhere else is the one [removeOp] takes. *)
Lemma removeOp_plug (c : Level) (l1 l2 : list Task) (item : Task) :
  t_id item ∉ ids (plug c (l1 ++ l2)) ->
  removeOp (t_id item) (plug c (l1 ++ item :: l2)) =
    Some (item, plug c (l1 ++ l2)).
Proof.
  induction c as [|k1 parent c IH k2]; simpl; intros Habs;
    unfold removeOp, removeOp_with.
  - rewrite findIndex_middle.
    + rewrite list_lookup_middle by reflexivity. rewrite delete_middle. reflexivity.
    + apply findIndex_None, findIndex_id_None.
      eapply not_in_ids_app; eassumption.
    + apply bool_decide_eq_true; reflexivity.
  - apply not_in_ids_plug_below in Habs as (Htop & Hk1 & Hsub).
    assert (E : findIndex (fun t => bool_decide (t_id t = t_id item))
                  (k1 ++ with_subtasks parent (plug c (l1 ++ item :: l2)) :: k2)
                = None).
    { apply findIndex_id_None. apply Forall_app in Htop as [Ha Hb].
      apply Forall_cons in Hb as [Hp Hb]. apply Forall_app. split; [exact Ha|].
      constructor; [exact Hp|exact Hb]. }
    rewrite E. apply some_mut_middle.
    + eapply Forall_impl; [exact Hk1|]. intros y Hy. apply removeOp_sub_None. exact Hy.
    + rewrite removeOp_sub_eq. simpl. rewrite (IH Hsub). reflexivity.
Qed.

(** A target whose id is nowhere else is the one [insertOp] finds. *)
Lemma insertOp_plug (c : Level) (l1 l2 : list Task) (x item : Task)
  (pos : Position) :
  t_id x ∉ ids (plug c (l1 ++ l2)) ->
  insertOp (t_id x) pos item (plug c (l1 ++ x :: l2)) =
    Some (plug c (placed pos item l1 x l2)).
Proof.
  induction c as [|k1 parent c IH k2]; simpl; intros Habs; rewrite insertOp_eq.
  - rewrite findIndex_middle;
      [|apply findIndex_None, findIndex_id_None; eapply not_in_ids_app; eassumption
       |apply bool_decide_eq_true; reflexivity].
    f_equal. destruct pos; unfold placed.
    + apply splice_in_middle.
    + apply splice_in_after.
    + exact (alter_middle
               (fun t => with_expanded
                           (with_subtasks t (t_subtasks t ++ [item])) true)
               l1 l2 x).
  - apply not_in_ids_plug_below in Habs as (Htop & Hk1 & Hsub).
    assert (E : findIndex (fun t => bool_decide (t_id t = t_id x))
                  (k1 ++ with_subtasks parent (plug c (l1 ++ x :: l2)) :: k2)
                = None).
    { apply findIndex_id_None. apply Forall_app in Htop as [Ha Hb].
      apply Forall_cons in Hb as [Hp Hb]. apply Forall_app. split; [exact Ha|].
      constructor; [exact Hp|exact Hb]. }
    rewrite E.
    rewrite (some_mut_middle _ k1 k2 _
               (with_subtasks parent (plug c (placed pos item l1 x l2))) tt).
    + reflexivity.
    + eapply Forall_impl; [exact Hk1|]. intros y Hy.
      apply insertOp_sub_None. exact Hy.
    + rewrite insertOp_sub_eq. simpl. rewrite (IH Hsub). reflexivity.
Qed.

Lemma with_tasks_twice (p : Project) (a b : list Task) :
  with_tasks (with_tasks p a) b = with_tasks p b.
Proof. reflexivity. Qed.

(** C8, as amended.  In a forest with unique ids, when the task [a] is
    the sibling immediately before the task [b], moving [a] after [b]
    and then [a] before [b] gives back the project as it was. *)
Theorem moveTask_round_trip (c : Level) (l1 l2 : list Task) (a b : Task)
  (p : Project) :
  p_tasks p = plug c (l1 ++ a :: b :: l2) ->
  NoDup (ids (p_tasks p)) ->
  moveTask_updater (t_id a) (t_id b) before
    (moveTask_updater (t_id a) (t_id b) after p) = p.
Proof.
  intros HF Hnd.
  assert (Ha : t_id a ∉ ids (plug c (l1 ++ b :: l2))).
  { rewrite HF, ids_plug_remove, NoDup_app in Hnd.
    destruct Hnd as (_ & Hdisj & _). apply Hdisj. rewrite ids_task_eq. left. }
  assert (Hb : t_id b ∉ ids (plug c (l1 ++ l2))).
  { rewrite HF, ids_plug_remove, NoDup_app in Hnd.
    destruct Hnd as (_ & _ & Hnd).
    rewrite ids_plug_remove, NoDup_app in Hnd.
    destruct Hnd as (_ & Hdisj & _). apply Hdisj. rewrite ids_task_eq. left. }
  assert (Hfirst : moveTask_updater (t_id a) (t_id b) after p =
                   with_tasks p (plug c (l1 ++ b :: a :: l2))).
  { unfold moveTask_updater. rewrite HF, (removeOp_plug c l1 (b :: l2) a Ha).
    rewrite (insertOp_plug c l1 l2 b a after Hb). reflexivity. }
  rewrite Hfirst. unfold moveTask_updater. simpl p_tasks.
  replace (l1 ++ b :: a :: l2) with ((l1 ++ [b]) ++ a :: l2)
    by (rewrite <- app_assoc; reflexivity).
  rewrite (removeOp_plug c (l1 ++ [b]) l2 a)
    by (rewrite <- app_assoc; exact Ha).
  rewrite <- app_assoc. simpl app.
  rewrite (insertOp_plug c l1 l2 b a before Hb). unfold placed.
  rewrite with_tasks_twice, <- HF. apply with_tasks_same.
Qed.

Lemma moveTask_round_trip_witness :
  moveTask_updater "c" "b" before
    (moveTask_updater "c" "b" after
       (project_of "p1"
          [node "a" "A" [leaf "c" "C" PENDING; leaf "b" "B" PENDING]]))
  = project_of "p1"
      [node "a" "A" [leaf "c" "C" PENDING; leaf "b" "B" PENDING]].
Proof.
  apply (moveTask_round_trip
           (Below [] (node "a" "A" []) Hole []) [] []
           (leaf "c" "C" PENDING) (leaf "b" "B" PENDING)).
  - reflexivity.
  - apply (bool_decide_unpack _); vm_compute; exact I.
Defined.

(** C8, as stated, fails: for the sibling leaves [b], [a] in this
    order, the round trip ends with [a] before [b], which is not the
    order it started from. *)
Lemma moveTask_round_trip_counterexample :
  p_tasks project_ba = [leaf "b" "B" PENDING; leaf "a" "A" PENDING] /\
  p_tasks (moveTask_updater "a" "b" before
             (moveTask_updater "a" "b" after project_ba)) =
    [leaf "a" "A" PENDING; leaf "b" "B" PENDING] /\
  p_tasks (moveTask_updater "a" "b" before
             (moveTask_updater "a" "b" after project_ba)) <>
    p_tasks project_ba.
Proof.
  split; [reflexivity|]. split; [reflexivity|]. vm_compute. discriminate.
Qed.

(** ** Updates that find nothing *)

Lemma findTaskAndUpdate_task_eq (id : string) (u : Task -> Task) (t : Task) :
  findTaskAndUpdate_task id u t =
    if decide (t_id t = id) then u t
    else if (0 <? length (t_subtasks t))%nat
         then with_subtasks t (findTaskAndUpdate (t_subtasks t) id u)
         else t.
Proof. destruct t; reflexivity. Qed.

Lemma findTaskAndAddSubtask_task_eq (id : string) (n t : Task) :
  findTaskAndAddSubtask_task id n t =
    if decide (t_id t = id)
    then with_expanded (with_subtasks t (t_subtasks t ++ [n])) true
    else if (0 <? length (t_subtasks t))%nat
         then with_subtasks t (findTaskAndAddSubtask (t_subtasks t) id n)
         else t.
Proof. destruct t; reflexivity. Qed.

Lemma findTaskAndDelete_task_eq (id : string) (t : Task) :
  findTaskAndDelete_task id t =
    with_subtasks t (findTaskAndDelete (t_subtasks t) id).
Proof. destruct t; reflexivity. Qed.

(** [findTaskAndDelete] is the [filter] followed by the [map] of the
    source. *)
Lemma findTaskAndDelete_eq (tasks : list Task) (id : string) :
  findTaskAndDelete tasks id =
    map (fun task => with_subtasks task (findTaskAndDelete (t_subtasks task) id))
        (List.filter (fun t => bool_decide (t_id t <> id)) tasks).
Proof.
  unfold findTaskAndDelete at 1. rewrite filter_map_js_spec.
  apply map_ext. intros t. apply findTaskAndDelete_task_eq.
Qed.

Lemma map_fixed {A} (f : A -> A) (l : list A) :
  Forall (fun x => f x = x) l -> map f l = l.
Proof. induction 1; simpl; congruence. Qed.

Lemma filter_map_js_fixed {A} (p : A -> bool) (f : A -> A) (l : list A) :
  Forall (fun x => p x = true /\ f x = x) l -> filter_map_js p f l = l.
Proof. induction 1 as [|x l [Hp Hf] _ IH]; simpl; [|rewrite Hp]; congruence. Qed.

Lemma absent_forest (id : string) (P : Task -> Prop) (l : list Task) :
  Forall (fun t => id ∉ ids_task t -> P t) l -> id ∉ ids l -> Forall P l.
Proof.
  induction 1 as [|t l Ht _ IH]; [constructor|].
  rewrite ids_cons, not_elem_of_app. intros [H1 H2]. constructor; auto.
Qed.

Lemma findTaskAndUpdate_task_absent (id : string) (u : Task -> Task) (t : Task) :
  id ∉ ids_task t -> findTaskAndUpdate_task id u t = t.
Proof.
  induction t as [t IH] using Task_ind.
  rewrite ids_task_eq, not_elem_of_cons. intros [Hid Hsub].
  rewrite findTaskAndUpdate_task_eq. rewrite decide_False by congruence.
  destruct (0 <? length (t_subtasks t))%nat; [|reflexivity].
  unfold findTaskAndUpdate. rewrite map_fixed; [apply with_subtasks_same|].
  apply (absent_forest id); assumption.
Qed.

Lemma findTaskAndAddSubtask_task_absent (id : string) (n t : Task) :
  id ∉ ids_task t -> findTaskAndAddSubtask_task id n t = t.
Proof.
  induction t as [t IH] using Task_ind.
  rewrite ids_task_eq, not_elem_of_cons. intros [Hid Hsub].
  rewrite findTaskAndAddSubtask_task_eq. rewrite decide_False by congruence.
  destruct (0 <? length (t_subtasks t))%nat; [|reflexivity].
  unfold findTaskAndAddSubtask. rewrite map_fixed; [apply with_subtasks_same|].
  apply (absent_forest id); assumption.
Qed.

Lemma findTaskAndDelete_forest_absent (id : string) (l : list Task) :
  Forall (fun t => id ∉ ids_task t -> findTaskAndDelete_task id t = t) l ->
  id ∉ ids l -> findTaskAndDelete l id = l.
Proof.
  intros Hall Habs. unfold findTaskAndDelete. apply filter_map_js_fixed.
  pose proof (absent_forest id _ l Hall Habs) as Hfix.
  apply not_in_ids in Habs. rewrite Forall_forall in *.
  intros t Ht. split; [|auto].
  apply bool_decide_eq_true. apply (Habs t Ht).
Qed.

Lemma findTaskAndDelete_task_absent (id : string) (t : Task) :
  id ∉ ids_task t -> findTaskAndDelete_task id t = t.
Proof.
  induction t as [t IH] using Task_ind.
  rewrite ids_task_eq, not_elem_of_cons. intros [Hid Hsub].
  rewrite findTaskAndDelete_task_eq.
  rewrite findTaskAndDelete_forest_absent by assumption.
  apply with_subtasks_same.
Qed.

(** The value-level part of C5: an id that occurs nowhere leaves the
    forest as it was. *)
Lemma find_absent_unchanged (tasks : list Task) (id : string)
  (u : Task -> Task) (n : Task) :
  id ∉ ids tasks ->
  findTaskAndUpdate tasks id u = tasks /\
  findTaskAndAddSubtask tasks id n = tasks /\
  findTaskAndDelete tasks id = tasks.
Proof.
  intros Habs. split; [|split].
  - unfold findTaskAndUpdate. apply map_fixed.
    apply (absent_forest id); [|assumption]. apply forest_ind.
    intros t _. apply findTaskAndUpdate_task_absent.
  - unfold findTaskAndAddSubtask. apply map_fixed.
    apply (absent_forest id); [|assumption]. apply forest_ind.
    intros t _. apply findTaskAndAddSubtask_task_absent.
  - apply findTaskAndDelete_forest_absent; [|assumption]. apply forest_ind.
    intros t _. apply findTaskAndDelete_task_absent.
Qed.

(** ** The same updates on objects *)

Lemma value_eq (o : Obj) :
  value o = with_subtasks (o_own o) (map value (o_subtasks o)).
Proof. destruct o; reflexivity. Qed.

Lemma value_id (o : Obj) : t_id (value o) = t_id (o_own o).
Proof. rewrite value_eq. reflexivity. Qed.

Lemma value_subtasks (o : Obj) : t_subtasks (value o) = map value (o_subtasks o).
Proof. rewrite value_eq. reflexivity. Qed.

Lemma findTaskAndUpdate_obj_eq (id : string) (upd : Obj -> nat -> Obj * nat)
  (o : Obj) (next : nat) :
  findTaskAndUpdate_obj id upd o next =
    if decide (t_id (o_own o) = id) then upd o next
    else if (0 <? length (o_subtasks o))%nat
         then
           let (subs, n1) := findTaskAndUpdate_objs (o_subtasks o) id upd next in
           (mkObj n1 (o_own o) subs, S n1)
         else (o, next).
Proof. destruct o; reflexivity. Qed.

Lemma findTaskAndAddSubtask_obj_eq (id : string) (new o : Obj) (next : nat) :
  findTaskAndAddSubtask_obj id new o next =
    if decide (t_id (o_own o) = id)
    then (mkObj next (with_expanded (o_own o) true) (o_subtasks o ++ [new]),
          S next)
    else if (0 <? length (o_subtasks o))%nat
         then
           let (subs, n1) :=
             findTaskAndAddSubtask_objs (o_subtasks o) id new next in
           (mkObj n1 (o_own o) subs, S n1)
         else (o, next).
Proof. destruct o; reflexivity. Qed.

Lemma findTaskAndDelete_obj_eq (id : string) (o : Obj) (next : nat) :
  findTaskAndDelete_obj id o next =
    let (subs, n1) := findTaskAndDelete_objs (o_subtasks o) id next in
    (mkObj n1 (o_own o) subs, S n1).
Proof. destruct o; reflexivity. Qed.

Lemma map_alloc_value (f : Obj -> nat -> Obj * nat) (g : Task -> Task)
  (l : list Obj) :
  Forall (fun o => forall n, value (f o n).1 = g (value o)) l ->
  forall n, map value (map_alloc f l n).1 = map g (map value l).
Proof.
  induction 1 as [|o l Ho _ IH]; intros n; simpl; [reflexivity|].
  specialize (Ho n). destruct (f o n) as [y n1]. specialize (IH n1).
  destruct (map_alloc f l n1) as [ys n2]. simpl in *. congruence.
Qed.

Lemma filter_map_alloc_value (p : Obj -> bool) (p' : Task -> bool)
  (f : Obj -> nat -> Obj * nat) (g : Task -> Task) (l : list Obj) :
  (forall o, p o = p' (value o)) ->
  Forall (fun o => forall n, value (f o n).1 = g (value o)) l ->
  forall n,
    map value (filter_map_alloc p f l n).1 = filter_map_js p' g (map value l).
Proof.
  intros Hp. induction 1 as [|o l Ho _ IH]; intros n; simpl; [reflexivity|].
  rewrite <- Hp. destruct (p o); [|apply IH].
  specialize (Ho n). destruct (f o n) as [y n1]. specialize (IH n1).
  destruct (filter_map_alloc p f l n1) as [ys n2]. simpl in *. congruence.
Qed.

Lemma map_alloc_rel (R : Obj -> Obj -> Prop) (f : Obj -> nat -> Obj * nat)
  (l : list Obj) (next : nat) :
  Forall (fun o => forall n, (next <= n)%nat ->
                   R o (f o n).1 /\ (n <= (f o n).2)%nat) l ->
  forall n, (next <= n)%nat ->
    Forall2 R l (map_alloc f l n).1 /\ (n <= (map_alloc f l n).2)%nat.
Proof.
  induction 1 as [|o l Ho _ IH]; intros n Hn; simpl; [split; [constructor|lia]|].
  specialize (Ho n Hn). destruct (f o n) as [y n1]. simpl in Ho.
  destruct Ho as [Hy Hn1]. specialize (IH n1 ltac:(lia)).
  destruct (map_alloc f l n1) as [ys n2]. simpl in *.
  destruct IH as [Hys Hn2]. split; [constructor; assumption|lia].
Qed.

Lemma filter_map_alloc_rel (R : Obj -> Obj -> Prop) (p : Obj -> bool)
  (f : Obj -> nat -> Obj * nat) (l : list Obj) (next : nat) :
  Forall (fun o => p o = true /\
                   forall n, (next <= n)%nat ->
                     R o (f o n).1 /\ (n <= (f o n).2)%nat) l ->
  forall n, (next <= n)%nat ->
    Forall2 R l (filter_map_alloc p f l n).1 /\
    (n <= (filter_map_alloc p f l n).2)%nat.
Proof.
  induction 1 as [|o l [Hp Ho] _ IH]; intros n Hn; simpl;
    [split; [constructor|lia]|].
  rewrite Hp. specialize (Ho n Hn). destruct (f o n) as [y n1]. simpl in Ho.
  destruct Ho as [Hy Hn1]. specialize (IH n1 ltac:(lia)).
  destruct (filter_map_alloc p f l n1) as [ys n2]. simpl in *.
  destruct IH as [Hys Hn2]. split; [constructor; assumption|lia].
Qed.

Lemma fresh_ref (old : list nat) (next n : nat) :
  Forall (fun r => (r < next)%nat) old -> (next <= n)%nat -> n ∉ old.
Proof.
  intros Hold Hn Hin. rewrite Forall_forall in Hold.
  specialize (Hold n Hin). lia.
Qed.

(** The object-level functions compute the values of the value-level
    ones. *)
Lemma findTaskAndAddSubtask_obj_value (id : string) (new o : Obj) (n : nat) :
  value (findTaskAndAddSubtask_obj id new o n).1 =
    findTaskAndAddSubtask_task id (value new) (value o).
Proof.
  revert n. induction o as [o IH] using Obj_ind. intros n.
  rewrite findTaskAndAddSubtask_obj_eq, findTaskAndAddSubtask_task_eq.
  rewrite value_id, value_subtasks, length_map.
  destruct (decide (t_id (o_own o) = id)).
  - simpl. rewrite (value_eq o), map_app. reflexivity.
  - destruct (0 <? length (o_subtasks o))%nat; [|reflexivity].
    pose proof (map_alloc_value _ _ _ IH n) as Hsub.
    unfold findTaskAndAddSubtask_objs, findTaskAndAddSubtask.
    destruct (map_alloc _ (o_subtasks o) n) as [subs n1]. simpl in *.
    rewrite Hsub, (value_eq o). reflexivity.
Qed.

Lemma findTaskAndDelete_obj_value (id : string) (o : Obj) (n : nat) :
  value (findTaskAndDelete_obj id o n).1 = findTaskAndDelete_task id (value o).
Proof.
  revert n. induction o as [o IH] using Obj_ind. intros n.
  rewrite findTaskAndDelete_obj_eq, findTaskAndDelete_task_eq, value_subtasks.
  pose proof (filter_map_alloc_value
                (fun t => bool_decide (t_id (o_own t) <> id))
                (fun t => bool_decide (t_id t <> id)) _ _ (o_subtasks o)
                (fun o => f_equal (fun i => bool_decide (i <> id))
                            (eq_sym (value_id o))) IH n) as Hsub.
  unfold findTaskAndDelete_objs, findTaskAndDelete.
  destruct (filter_map_alloc _ _ (o_subtasks o) n) as [subs n1]. simpl in *.
  rewrite Hsub, value_eq. reflexivity.
Qed.

Lemma absent_objs (id : string) (P : Obj -> Prop) (l : list Obj) :
  Forall (fun o => id ∉ ids_task (value o) -> P o) l ->
  id ∉ ids (map value l) -> Forall P l.
Proof.
  induction 1 as [|o l Ho _ IH]; [constructor|]. simpl map.
  rewrite ids_cons, not_elem_of_app. intros [H1 H2]. constructor; auto.
Qed.

Lemma findTaskAndUpdate_obj_absent (id : string)
  (upd : Obj -> nat -> Obj * nat) (o : Obj) :
  id ∉ ids_task (value o) ->
  forall n, value (findTaskAndUpdate_obj id upd o n).1 = value o.
Proof.
  induction o as [o IH] using Obj_ind.
  rewrite ids_task_eq, not_elem_of_cons, value_id, value_subtasks.
  intros [Hid Hsub] n. rewrite findTaskAndUpdate_obj_eq.
  rewrite decide_False by congruence.
  destruct (o_subtasks o) as [|c subs] eqn:E; simpl length.
  - reflexivity.
  - change (0 <? S (length subs))%nat with true. cbv iota.
    rewrite <- E in *. pose proof (absent_objs id _ _ IH Hsub) as Hall.
    pose proof (map_alloc_value _ (fun t => t) _ Hall n) as Hval.
    unfold findTaskAndUpdate_objs.
    destruct (map_alloc _ (o_subtasks o) n) as [subs' n1]. simpl in *.
    rewrite (value_eq o), Hval, map_id. reflexivity.
Qed.

(** Which objects come back, for an id that occurs nowhere: the
    references handed out by the call are [next] and later ones. *)
Lemma findTaskAndUpdate_obj_kept (old : list nat) (next : nat) (id : string)
  (upd : Obj -> nat -> Obj * nat) (o : Obj) :
  Forall (fun r => (r < next)%nat) old ->
  id ∉ ids_task (value o) ->
  forall n, (next <= n)%nat ->
    kept_leaves old o (findTaskAndUpdate_obj id upd o n).1 /\
    (n <= (findTaskAndUpdate_obj id upd o n).2)%nat.
Proof.
  intros Hold. induction o as [o IH] using Obj_ind.
  rewrite ids_task_eq, not_elem_of_cons, value_id, value_subtasks.
  intros [Hid Hsub] n Hn. rewrite findTaskAndUpdate_obj_eq.
  rewrite decide_False by congruence.
  destruct (o_subtasks o) as [|c subs] eqn:E; simpl length.
  - simpl. split; [apply kept_leaf; exact E|lia].
  - change (0 <? S (length subs))%nat with true. cbv iota.
    rewrite <- E in *. pose proof (absent_objs id _ _ IH Hsub) as Hall.
    pose proof (map_alloc_rel _ _ _ next Hall n Hn) as Hrel.
    unfold findTaskAndUpdate_objs.
    destruct (map_alloc _ (o_subtasks o) n) as [subs' n1]. simpl in *.
    destruct Hrel as [Hsame Hn1]. split; [|lia].
    apply new_node; simpl.
    + rewrite E. discriminate.
    + apply (fresh_ref old next); [assumption|lia].
    + reflexivity.
    + exact Hsame.
Qed.

Lemma findTaskAndAddSubtask_obj_kept (old : list nat) (next : nat)
  (id : string) (new o : Obj) :
  Forall (fun r => (r < next)%nat) old ->
  id ∉ ids_task (value o) ->
  forall n, (next <= n)%nat ->
    kept_leaves old o (findTaskAndAddSubtask_obj id new o n).1 /\
    (n <= (findTaskAndAddSubtask_obj id new o n).2)%nat.
Proof.
  intros Hold. induction o as [o IH] using Obj_ind.
  rewrite ids_task_eq, not_elem_of_cons, value_id, value_subtasks.
  intros [Hid Hsub] n Hn. rewrite findTaskAndAddSubtask_obj_eq.
  rewrite decide_False by congruence.
  destruct (o_subtasks o) as [|c subs] eqn:E; simpl length.
  - simpl. split; [apply kept_leaf; exact E|lia].
  - change (0 <? S (length subs))%nat with true. cbv iota.
    rewrite <- E in *. pose proof (absent_objs id _ _ IH Hsub) as Hall.
    pose proof (map_alloc_rel _ _ _ next Hall n Hn) as Hrel.
    unfold findTaskAndAddSubtask_objs.
    destruct (map_alloc _ (o_subtasks o) n) as [subs' n1]. simpl in *.
    destruct Hrel as [Hsame Hn1]. split; [|lia].
    apply new_node; simpl.
    + rewrite E. discriminate.
    + apply (fresh_ref old next); [assumption|lia].
    + reflexivity.
    + exact Hsame.
Qed.

Lemma absent_objs_kept (id : string) (P : Obj -> Prop) (l : list Obj) :
  Forall (fun o => id ∉ ids_task (value o) -> P o) l ->
  id ∉ ids (map value l) ->
  Forall (fun o => bool_decide (t_id (o_own o) <> id) = true /\ P o) l.
Proof.
  induction 1 as [|o l Ho _ IH]; [constructor|]. simpl map.
  rewrite ids_cons, not_elem_of_app. intros [H1 H2]. constructor; auto.
  split; [|auto]. apply bool_decide_eq_true. intros E. apply H1.
  rewrite ids_task_eq, value_id, elem_of_cons. left. exact (eq_sym E).
Qed.

Lemma findTaskAndDelete_obj_new (old : list nat) (next : nat) (id : string)
  (o : Obj) :
  Forall (fun r => (r < next)%nat) old ->
  id ∉ ids_task (value o) ->
  forall n, (next <= n)%nat ->
    all_new old o (findTaskAndDelete_obj id o n).1 /\
    (n <= (findTaskAndDelete_obj id o n).2)%nat.
Proof.
  intros Hold. induction o as [o IH] using Obj_ind.
  rewrite ids_task_eq, not_elem_of_cons, value_id, value_subtasks.
  intros [Hid Hsub] n Hn. rewrite findTaskAndDelete_obj_eq.
  pose proof (absent_objs_kept id _ _ IH Hsub) as Hall.
  pose proof (filter_map_alloc_rel _ _ _ _ next Hall n Hn) as Hrel.
  unfold findTaskAndDelete_objs.
  destruct (filter_map_alloc _ _ (o_subtasks o) n) as [subs' n1]. simpl in *.
  destruct Hrel as [Hnew Hn1]. split; [|lia].
  apply new_task; simpl.
  - apply (fresh_ref old next); [assumption|lia].
  - reflexivity.
  - exact Hnew.
Qed.

(** C5, as amended.  For an id that occurs nowhere in the forest, the
    three updates return a forest equal to the one they were given,
    task for task at every depth, and they cannot fail.  On objects:
    the values are the same; when the references of the forest are the
    ones below [next], [findTaskAndUpdate] and [findTaskAndAddSubtask]
    hand back the very objects of the tasks without subtasks and put a
    new object in the place of every task that has subtasks, and
    [findTaskAndDelete] puts a new object in the place of every
    task. *)
Theorem find_absent_no_op (id : string) (u : Task -> Task)
  (upd : Obj -> nat -> Obj * nat) (new : Obj) (next : nat) :
  (forall tasks : list Task,
      id ∉ ids tasks ->
      findTaskAndUpdate tasks id u = tasks /\
      findTaskAndAddSubtask tasks id (value new) = tasks /\
      findTaskAndDelete tasks id = tasks) /\
  (forall objs : list Obj,
      id ∉ ids (map value objs) ->
      map value (findTaskAndUpdate_objs objs id upd next).1 = map value objs /\
      map value (findTaskAndAddSubtask_objs objs id new next).1
        = map value objs /\
      map value (findTaskAndDelete_objs objs id next).1 = map value objs) /\
  (forall objs : list Obj,
      id ∉ ids (map value objs) ->
      Forall (fun r => (r < next)%nat) (refs objs) ->
      Forall2 (kept_leaves (refs objs)) objs
              (findTaskAndUpdate_objs objs id upd next).1 /\
      Forall2 (kept_leaves (refs objs)) objs
              (findTaskAndAddSubtask_objs objs id new next).1 /\
      Forall2 (all_new (refs objs)) objs
              (findTaskAndDelete_objs objs id next).1).
Proof.
  split; [intros tasks; apply find_absent_unchanged|]. split.
  - intros objs Habs.
    destruct (find_absent_unchanged _ id u (value new) Habs)
      as (_ & Hadd & Hdel).
    split; [|split].
    + unfold findTaskAndUpdate_objs.
      rewrite (map_alloc_value _ (fun t => t)); [apply map_id|].
      apply (absent_objs id); [|assumption]. apply Forall_forall.
      intros o _. apply findTaskAndUpdate_obj_absent.
    + unfold findTaskAndAddSubtask_objs.
      rewrite (map_alloc_value _ (findTaskAndAddSubtask_task id (value new))).
      * exact Hadd.
      * apply Forall_forall. intros o _ n.
        apply findTaskAndAddSubtask_obj_value.
    + unfold findTaskAndDelete_objs.
      rewrite (filter_map_alloc_value _ (fun t => bool_decide (t_id t <> id)) _
                 (findTaskAndDelete_task id)).
      * exact Hdel.
      * intros o. rewrite value_id. reflexivity.
      * apply Forall_forall. intros o _ n. apply findTaskAndDelete_obj_value.
  - intros objs Habs Hold. split; [|split].
    + unfold findTaskAndUpdate_objs.
      apply (map_alloc_rel _ _ _ next); [|lia].
      apply (absent_objs id); [|assumption]. apply Forall_forall.
      intros o _. apply findTaskAndUpdate_obj_kept. exact Hold.
    + unfold findTaskAndAddSubtask_objs.
      apply (map_alloc_rel _ _ _ next); [|lia].
      apply (absent_objs id); [|assumption]. apply Forall_forall.
      intros o _. apply findTaskAndAddSubtask_obj_kept. exact Hold.
    + unfold findTaskAndDelete_objs.
      apply (filter_map_alloc_rel _ _ _ _ next); [|lia].
      apply (absent_objs_kept id); [|assumption]. apply Forall_forall.
      intros o _. apply findTaskAndDelete_obj_new. exact Hold.
Qed.

Lemma find_absent_no_op_witness :
  findTaskAndDelete (map value objs_pa) "zz" = map value objs_pa /\
  map value (findTaskAndDelete_objs objs_pa "zz" 2).1 = map value objs_pa /\
  Forall2 (kept_leaves (refs objs_pa)) objs_pa
          (findTaskAndUpdate_objs objs_pa "zz" keep 2).1 /\
  Forall2 (all_new (refs objs_pa)) objs_pa
          (findTaskAndDelete_objs objs_pa "zz" 2).1.
Proof.
  assert (Habs : "zz" ∉ ids (map value objs_pa))
    by (apply (bool_decide_unpack _); vm_compute; exact I).
  assert (Hold : Forall (fun r => (r < 2)%nat) (refs objs_pa))
    by (apply (bool_decide_unpack _); vm_compute; exact I).
  pose proof (find_absent_no_op "zz" (fun t => t) keep
                (mkObj 2 (leaf "n" "N" PENDING) []) 2) as (Hval & Hobj & Hid).
  split; [|split; [|split]].
  - apply (Hval (map value objs_pa) Habs).
  - apply (Hobj objs_pa Habs).
  - apply (Hid objs_pa Habs Hold).
  - apply (Hid objs_pa Habs Hold).
Defined.

(** C5, as stated, fails: for an id that occurs nowhere, neither
    [findTaskAndDelete] nor the two others give back the objects they
    were given: the task "p", which has a subtask, comes back as a new
    object (and so does its subtask "a" from [findTaskAndDelete]). *)
Lemma find_absent_identity_counterexample :
  ("zz" ∉ ids (map value objs_pa)) /\
  fst (findTaskAndUpdate_objs objs_pa "zz" keep 2) <> objs_pa /\
  fst (findTaskAndAddSubtask_objs objs_pa "zz"
         (mkObj 2 (leaf "n" "N" PENDING) []) 3) <> objs_pa /\
  fst (findTaskAndDelete_objs objs_pa "zz" 2) <> objs_pa /\
  map o_ref (findTaskAndUpdate_objs objs_pa "zz" keep 2).1 = [2%nat] /\
  map o_ref objs_pa = [1%nat].
Proof.
  split; [apply (bool_decide_unpack _); vm_compute; exact I|].
  repeat split; try (vm_compute; discriminate).
Qed.

(** ** The first task with a given id *)

Lemma findDeep_task_eq (id : string) (t : Task) :
  findDeep_task id t =
    if decide (t_id t = id) then Some t else findDeep (t_subtasks t) id.
Proof.
  destruct t as [i ? ? ? subs ? ? ? ? ?]; simpl.
  destruct (decide (i = id)); [reflexivity|].
  induction subs as [|c subs IH]; simpl; [reflexivity|].
  destruct (findDeep_task id c); [reflexivity|exact IH].
Qed.

Lemma getStatus_sub_eq (id : string) (t : Task) :
  getStatus_sub id t = getStatus id (t_subtasks t).
Proof.
  destruct t as [i ? ? ? subs ? ? ? ? ?]; simpl.
  induction subs as [|c subs IH]; simpl; [reflexivity|].
  destruct (decide (t_id c = id)); [reflexivity|].
  destruct (getStatus_sub id c); simpl; [reflexivity|exact IH].
Qed.

Lemma getStatus_findDeep_with (id : string) (l : list Task) :
  Forall (fun t => getStatus id (t_subtasks t) =
                   t_status <$> findDeep (t_subtasks t) id) l ->
  getStatus id l = t_status <$> findDeep l id.
Proof.
  induction 1 as [|t l Ht _ IH]; simpl; [reflexivity|].
  rewrite findDeep_task_eq, getStatus_sub_eq, Ht.
  destruct (decide (t_id t = id)); [reflexivity|].
  destruct (findDeep (t_subtasks t) id); simpl; [reflexivity|exact IH].
Qed.

(** [getStatus] returns the status of the task [findDeep] returns. *)
Lemma getStatus_findDeep (id : string) (l : list Task) :
  getStatus id l = t_status <$> findDeep l id.
Proof.
  apply getStatus_findDeep_with. apply forest_ind. intros t IH.
  apply getStatus_findDeep_with. exact IH.
Qed.

Lemma findDeep_update_with (id : string) (u : Task -> Task) (l : list Task) :
  Forall (fun t => findDeep_task id (findTaskAndUpdate_task id u t) =
                   u <$> findDeep_task id t) l ->
  findDeep (findTaskAndUpdate l id u) id = u <$> findDeep l id.
Proof.
  induction 1 as [|t l Ht _ IH]; simpl; [reflexivity|].
  rewrite Ht. destruct (findDeep_task id t); simpl; [reflexivity|exact IH].
Qed.

Lemma findDeep_task_with_subtasks (id : string) (t : Task) (l : list Task) :
  findDeep_task id (with_subtasks t l) =
    if decide (t_id t = id) then Some (with_subtasks t l) else findDeep l id.
Proof. rewrite findDeep_task_eq. reflexivity. Qed.

Lemma findDeep_task_update (id : string) (u : Task -> Task) (t : Task) :
  (forall x, t_id (u x) = t_id x) ->
  findDeep_task id (findTaskAndUpdate_task id u t) = u <$> findDeep_task id t.
Proof.
  intros Hu. induction t as [t IH] using Task_ind.
  rewrite findTaskAndUpdate_task_eq, (findDeep_task_eq id t).
  destruct (decide (t_id t = id)) as [E|E].
  - rewrite findDeep_task_eq, Hu, decide_True by assumption. reflexivity.
  - destruct (0 <? length (t_subtasks t))%nat eqn:El.
    + rewrite findDeep_task_with_subtasks, decide_False by assumption.
      apply findDeep_update_with. exact IH.
    + rewrite findDeep_task_eq, decide_False by assumption.
      destruct (t_subtasks t); [reflexivity|discriminate El].
Qed.

(** After [findTaskAndUpdate] with an updater that keeps ids, the first
    task with the id is the updated first task with the id. *)
Lemma findDeep_update (id : string) (u : Task -> Task) (l : list Task) :
  (forall x, t_id (u x) = t_id x) ->
  findDeep (findTaskAndUpdate l id u) id = u <$> findDeep l id.
Proof.
  intros Hu. apply findDeep_update_with. apply forest_ind. intros t _.
  apply findDeep_task_update. exact Hu.
Qed.

Lemma findTaskAndAddSubtask_as_update (l : list Task) (id : string) (n : Task) :
  findTaskAndAddSubtask l id n =
    findTaskAndUpdate l id
      (fun t => with_expanded (with_subtasks t (t_subtasks t ++ [n])) true).
Proof.
  unfold findTaskAndAddSubtask, findTaskAndUpdate.
  pose proof (forest_ind
    (fun t => findTaskAndAddSubtask_task id n t =
              findTaskAndUpdate_task id
                (fun t => with_expanded (with_subtasks t (t_subtasks t ++ [n])) true)
                t)) as Hall.
  apply Forall_fmap_ext_1, Hall. intros t IH.
  rewrite findTaskAndAddSubtask_task_eq, findTaskAndUpdate_task_eq.
  destruct (decide (t_id t = id)); [reflexivity|].
  destruct (0 <? length (t_subtasks t))%nat; [|reflexivity].
  unfold findTaskAndAddSubtask, findTaskAndUpdate. f_equal.
  apply Forall_fmap_ext_1. exact IH.
Qed.

(** ** The store *)

Lemma truthy_Some (a : string) : a <> ""%string -> truthy (Some a) = true.
Proof. destruct a; [congruence|reflexivity]. Qed.

Lemma modifyActiveProject_active (a : string) (updater : Project -> Project)
  (st : AppState) :
  a <> ""%string ->
  projects (modifyActiveProject (Some a) updater st) =
    map (fun p => if decide (p_id p = a) then updater p else p) (projects st).
Proof.
  intros Ha. unfold modifyActiveProject. rewrite truthy_Some by assumption.
  simpl. apply map_ext. intros p.
  destruct (decide (Some (p_id p) = Some a)) as [E|E],
           (decide (p_id p = a)) as [E'|E']; congruence.
Qed.

(** C6, as amended.  [addTask] builds a task with the given title and
    id, status PENDING, no subtasks, attachments or tags, [expanded]
    set, the selected user as its creator and one activity entry, of
    type [creation].  In the project whose id is the active one, it puts
    that task at the end of the root tasks when there is no parent id,
    and otherwise at the end of the subtasks of the first task with the
    parent id.  It leaves the state as it is when no project is active.
    It does not look at the title: a title that is blank once trimmed
    is stopped before, by [handleSubmit] of the input dialog. *)
Theorem addTask_spec (user active title taskId logId : string) (now : Z)
  (st : AppState) :
  let newTask := newTaskOf user title taskId logId now in
  (t_id newTask = taskId /\ t_title newTask = title /\
   t_status newTask = PENDING /\ t_subtasks newTask = [] /\
   t_attachments newTask = [] /\ t_tags newTask = [] /\
   t_expanded newTask = Some true /\ t_createdBy newTask = user /\
   exists log, t_activity newTask = [log] /\ log_type log = creation) /\
  (active <> ""%string ->
   projects (addTask (Some user) (Some active) None title taskId logId now st) =
     map (fun p => if decide (p_id p = active)
                   then with_tasks p (p_tasks p ++ [newTask]) else p)
         (projects st)) /\
  (forall pid,
      active <> ""%string -> pid <> ""%string ->
      projects (addTask (Some user) (Some active) (Some pid) title taskId logId
                  now st) =
        map (fun p => if decide (p_id p = active)
                      then with_tasks p
                             (findTaskAndAddSubtask (p_tasks p) pid newTask)
                      else p)
            (projects st) /\
      forall tasks parent,
        findDeep tasks pid = Some parent ->
        findDeep (findTaskAndAddSubtask tasks pid newTask) pid =
          Some (with_expanded
                  (with_subtasks parent (t_subtasks parent ++ [newTask])) true)) /\
  (forall currentUser parentId,
      addTask currentUser None parentId title taskId logId now st = st) /\
  (forall currentUser parentId,
      trim title = ""%string ->
      handleSubmit title
        (fun value => addTask currentUser (Some active) parentId value taskId
                        logId now) st = st).
Proof.
  intros newTask. split; [|split; [|split; [|split]]].
  - repeat split. eexists. split; reflexivity.
  - intros Ha. unfold addTask. apply modifyActiveProject_active. exact Ha.
  - intros pid Ha Hpid. split.
    + unfold addTask. rewrite modifyActiveProject_active by assumption.
      rewrite truthy_Some by assumption. reflexivity.
    + intros tasks parent Hfind.
      rewrite findTaskAndAddSubtask_as_update, findDeep_update, Hfind;
        reflexivity.
  - intros currentUser parentId. unfold addTask.
    destruct currentUser; reflexivity.
  - intros currentUser parentId Hblank. unfold handleSubmit.
    rewrite Hblank. reflexivity.
Qed.

Lemma addTask_spec_witness :
  projects (addTask (Some "u1") (Some "p1") None "Nueva" "t9" "l9" 7 state_two) =
    [with_tasks project_acb
       (forest_acb ++ [newTaskOf "u1" "Nueva" "t9" "l9" 7]);
     project_of "p2" [leaf "x" "X" PENDING]] /\
  findDeep
    (findTaskAndAddSubtask forest_acb "c" (newTaskOf "u1" "Nueva" "t9" "l9" 7))
    "c" =
    Some (with_expanded
            (with_subtasks (leaf "c" "C" PENDING)
               [newTaskOf "u1" "Nueva" "t9" "l9" 7]) true) /\
  handleSubmit "   "
    (fun value => addTask (Some "u1") (Some "p1") None value "t9" "l9" 7)
    state_two = state_two.
Proof.
  pose proof (addTask_spec "u1" "p1" "Nueva" "t9" "l9" 7 state_two)
    as (_ & Hroot & Hsub & _ & _).
  pose proof (addTask_spec "u1" "p1" "   " "t9" "l9" 7 state_two)
    as (_ & _ & _ & _ & Hblank).
  split; [|split].
  - rewrite Hroot by discriminate. reflexivity.
  - apply (proj2 (Hsub "c" ltac:(discriminate) ltac:(discriminate))).
    reflexivity.
  - apply Hblank. reflexivity.
Defined.

(** C6, as stated, fails: with a project active, [addTask] with a title
    that is empty once trimmed does add a task. *)
Lemma addTask_blank_title_counterexample :
  trim "  " = ""%string /\
  addTask (Some "u1") (Some "p1") None "  " "t9" "l9" 7 state_two <> state_two /\
  map (fun p => length (p_tasks p))
      (projects (addTask (Some "u1") (Some "p1") None "  " "t9" "l9" 7
                   state_two)) = [3%nat; 1%nat].
Proof.
  split; [reflexivity|]. split; [|reflexivity].
  vm_compute. discriminate.
Qed.

(** A title made of a NO-BREAK SPACE and an IDEOGRAPHIC SPACE is blank
    once trimmed, and [handleSubmit] drops it. *)
Example handleSubmit_no_break_space :
  trim blank_title = ""%string /\
  handleSubmit blank_title
    (fun value => addTask (Some "u1") (Some "p1") None value "t9" "l9" 7)
    state_two = state_two.
Proof. split; reflexivity. Qed.

(** C7.  When the forest of the project has a task with the given id,
    [t] being the first one, [toggleTaskStatus] leaves in its place the
    task [t] with its status flipped (PENDING to COMPLETED, COMPLETED to
    PENDING) and with one more entry at the end of its activity, of type
    [status_change] and by the invoking user.  If [t] is a PENDING leaf,
    the new status is COMPLETED and the progress of the task is 100. *)
Theorem toggleTaskStatus_flips (user taskId logId : string) (now : Z)
  (p : Project) (t : Task) :
  findDeep (p_tasks p) taskId = Some t ->
  exists log,
    log_type log = status_change /\ log_createdBy log = user /\
    let t' := with_activity (with_status t (flip_status (t_status t)))
                            (t_activity t ++ [log]) in
    findDeep (p_tasks (toggleTaskStatus_updater user taskId logId now p)) taskId
      = Some t' /\
    t_status t' = flip_status (t_status t) /\
    t_activity t' = t_activity t ++ [log] /\
    (t_subtasks t = [] -> t_status t = PENDING ->
     t_status t' = COMPLETED /\ getTaskProgress t' = 100).
Proof.
  intros Hfind. unfold toggleTaskStatus_updater.
  rewrite getStatus_findDeep, Hfind. simpl.
  set (newStatus := if decide (t_status t = COMPLETED) then PENDING else COMPLETED).
  assert (Hnew : newStatus = flip_status (t_status t))
    by (subst newStatus; destruct (t_status t); reflexivity).
  eexists (mkActivityLog logId status_change _ now user).
  split; [reflexivity|split; [reflexivity|]]. cbv zeta.
  split; [|split; [reflexivity|split; [reflexivity|]]].
  - rewrite findDeep_update by reflexivity. rewrite Hfind, Hnew. reflexivity.
  - intros Hleaf Hpending. rewrite Hpending. split; [reflexivity|].
    rewrite Hleaf. reflexivity.
Qed.

Lemma toggleTaskStatus_flips_witness :
  exists log,
    log_type log = status_change /\ log_createdBy log = "u1"%string /\
    let t' := with_activity (with_status (leaf "A" "A" PENDING) COMPLETED)
                            [log] in
    findDeep (p_tasks (toggleTaskStatus_updater "u1" "A" "l1" 5 project_A)) "A"
      = Some t' /\
    t_status t' = COMPLETED /\
    t_activity t' = [log] /\
    (t_subtasks (leaf "A" "A" PENDING) = [] ->
     t_status (leaf "A" "A" PENDING) = PENDING ->
     t_status t' = COMPLETED /\ getTaskProgress t' = 100).
Proof.
  apply (toggleTaskStatus_flips "u1" "A" "l1" 5 project_A (leaf "A" "A" PENDING)).
  reflexivity.
Defined.

(** Twice the toggle gives back the status the task had. *)
Lemma flip_status_twice (s : TaskStatus) : flip_status (flip_status s) = s.
Proof. destruct s; reflexivity. Qed.

(** ** Frame *)

Lemma frame_refl (a : option string) (st : AppState) : frame a st st.
Proof. unfold frame. apply Forall2_same_length_lookup_2; [reflexivity|].
  intros i p p' H1 H2. assert (p = p') as -> by congruence. auto.
Qed.

Lemma modifyActiveProject_frame (a : option string)
  (updater : Project -> Project) (st : AppState) :
  (forall p, p_id (updater p) = p_id p) ->
  frame a st (modifyActiveProject a updater st).
Proof.
  intros Hid. unfold modifyActiveProject.
  destruct (truthy a); [|apply frame_refl].
  unfold frame. simpl. induction (projects st) as [|p l IH]; simpl; constructor.
  - destruct (decide (Some (p_id p) = a)); split; auto. contradiction.
  - exact IH.
Qed.

Lemma moveTask_updater_id (d tgt : string) (pos : Position) (p : Project) :
  p_id (moveTask_updater d tgt pos p) = p_id p.
Proof.
  destruct (moveTask_updater_cases d tgt pos p)
    as [[_ ->]|[(? & ? & _ & _ & ->)|(? & ? & ? & _ & _ & ->)]]; reflexivity.
Qed.

Lemma toggleTaskStatus_updater_id (user taskId logId : string) (now : Z)
  (p : Project) :
  p_id (toggleTaskStatus_updater user taskId logId now p) = p_id p.
Proof.
  unfold toggleTaskStatus_updater.
  destruct (getStatus taskId (p_tasks p)); reflexivity.
Qed.

(** C9.  Each of the eight mutations that go through
    [modifyActiveProject] ([moveTask] in its two variants) leaves as
    many projects as it found, in the same order, and leaves every
    project whose id is not the active one exactly as it was. *)
Theorem mutations_frame (currentUser activeProjectId : option string)
  (st : AppState) :
  (forall parentId title taskId logId now,
      frame activeProjectId st
        (addTask currentUser activeProjectId parentId title taskId logId now st)) /\
  (forall taskId updates,
      frame activeProjectId st (updateTask activeProjectId taskId updates st)) /\
  (forall taskId,
      frame activeProjectId st (deleteTask activeProjectId taskId st)) /\
  (forall draggedId targetId position,
      frame activeProjectId st
        (moveTask activeProjectId draggedId targetId position st)) /\
  (forall draggedId targetId,
      frame activeProjectId st
        (moveTask_reorder activeProjectId draggedId targetId st)) /\
  (forall user taskId logId now,
      frame activeProjectId st
        (toggleTaskStatus activeProjectId user taskId logId now st)) /\
  (forall taskId content type logId now,
      frame activeProjectId st
        (addActivity currentUser activeProjectId taskId content type logId now st)) /\
  (forall taskId type name url attId now,
      frame activeProjectId st
        (addAttachment currentUser activeProjectId taskId type name url attId
           now st)) /\
  (forall taskId,
      frame activeProjectId st (toggleExpand activeProjectId taskId st)).
Proof.
  repeat split; intros.
  - unfold addTask. destruct currentUser; [|apply frame_refl].
    apply modifyActiveProject_frame. intros p.
    destruct parentId; [destruct (truthy _)|]; reflexivity.
  - apply modifyActiveProject_frame. reflexivity.
  - apply modifyActiveProject_frame. reflexivity.
  - apply modifyActiveProject_frame. apply moveTask_updater_id.
  - apply modifyActiveProject_frame. reflexivity.
  - apply modifyActiveProject_frame. apply toggleTaskStatus_updater_id.
  - unfold addActivity. destruct currentUser; [|apply frame_refl].
    apply modifyActiveProject_frame. reflexivity.
  - unfold addAttachment. destruct currentUser; [|apply frame_refl].
    apply modifyActiveProject_frame. reflexivity.
  - apply modifyActiveProject_frame. reflexivity.
Qed.

(** On the sample state, deleting "a" in "p1" leaves "p2" as it was. *)
Example deleteTask_other_project :
  projects (deleteTask (Some "p1") "a" state_two) =
    [project_of "p1" [leaf "b" "B" PENDING];
     project_of "p2" [leaf "x" "X" PENDING]].
Proof. reflexivity. Qed.

(** The reordering of the variant without positions, on the sample
    project: "b" takes the place of "a". *)
Example moveTask_reorder_b_a :
  projects (moveTask_reorder (Some "p1") "b" "a" state_two) =
    [project_of "p1" [leaf "b" "B" PENDING; node "a" "A" [leaf "c" "C" PENDING]];
     project_of "p2" [leaf "x" "X" PENDING]].
Proof. reflexivity. Qed.

(** * Further properties of the code *)

(** ** Deleting *)

Lemma findTaskAndDelete_task_id (id : string) (t : Task) :
  t_id (findTaskAndDelete_task id t) = t_id t.
Proof. rewrite findTaskAndDelete_task_eq. reflexivity. Qed.

Lemma findTaskAndDelete_cons (id : string) (t : Task) (l : list Task) :
  findTaskAndDelete (t :: l) id =
    if bool_decide (t_id t <> id)
    then findTaskAndDelete_task id t :: findTaskAndDelete l id
    else findTaskAndDelete l id.
Proof. reflexivity. Qed.

Lemma findTaskAndDelete_gone_with (id : string) (l : list Task) :
  Forall (fun t => (id ∉ ids (findTaskAndDelete (t_subtasks t) id)) /\
                   sublist (ids (findTaskAndDelete (t_subtasks t) id))
                           (ids (t_subtasks t))) l ->
  (id ∉ ids (findTaskAndDelete l id)) /\
  sublist (ids (findTaskAndDelete l id)) (ids l).
Proof.
  induction 1 as [|t l [Ht1 Ht2] _ [IH1 IH2]].
  - split; [apply not_elem_of_nil|constructor].
  - rewrite findTaskAndDelete_cons, (ids_cons t l), (ids_task_eq t).
    destruct (bool_decide (t_id t <> id)) eqn:E.
    + apply bool_decide_eq_true in E.
      rewrite ids_cons, findTaskAndDelete_task_eq, ids_task_with_subtasks.
      split.
      * rewrite not_elem_of_app, not_elem_of_cons. auto.
      * simpl. apply sublist_skip. apply sublist_app; assumption.
    + split; [assumption|]. simpl. apply sublist_cons.
      apply sublist_inserts_l. assumption.
Qed.

Lemma findTaskAndDelete_removes (tasks : list Task) (id : string) :
  (id ∉ ids (findTaskAndDelete tasks id)) /\
  sublist (ids (findTaskAndDelete tasks id)) (ids tasks).
Proof.
  apply findTaskAndDelete_gone_with. apply forest_ind. intros t IH.
  apply findTaskAndDelete_gone_with. exact IH.
Qed.

(** After [findTaskAndDelete] the id is nowhere in the forest, and the
    ids that are left are ids of the input, in their order: the
    deletion takes every task with the id out, subtree and all, and
    brings nothing in. *)
Theorem findTaskAndDelete_gone (tasks : list Task) (id : string) :
  (id ∉ ids (findTaskAndDelete tasks id)) /\
  sublist (ids (findTaskAndDelete tasks id)) (ids tasks).
Proof. apply findTaskAndDelete_removes. Qed.

Lemma findTaskAndDelete_commute_with (a b : string) (l : list Task) :
  Forall (fun t => findTaskAndDelete (findTaskAndDelete (t_subtasks t) b) a =
                   findTaskAndDelete (findTaskAndDelete (t_subtasks t) a) b) l ->
  findTaskAndDelete (findTaskAndDelete l b) a =
    findTaskAndDelete (findTaskAndDelete l a) b.
Proof.
  induction 1 as [|t l Ht _ IH]; [reflexivity|].
  rewrite !(findTaskAndDelete_cons _ t l).
  destruct (bool_decide (t_id t <> b)) eqn:Eb,
           (bool_decide (t_id t <> a)) eqn:Ea;
    rewrite ?findTaskAndDelete_cons, ?findTaskAndDelete_task_id, ?Ea, ?Eb;
    try exact IH.
  rewrite IH, !findTaskAndDelete_task_eq. simpl. rewrite Ht. reflexivity.
Qed.

(** Deleting is idempotent, and two deletions can be done in either
    order. *)
Theorem findTaskAndDelete_idempotent_commute (tasks : list Task) (a b : string) :
  findTaskAndDelete (findTaskAndDelete tasks a) a = findTaskAndDelete tasks a /\
  findTaskAndDelete (findTaskAndDelete tasks b) a =
    findTaskAndDelete (findTaskAndDelete tasks a) b.
Proof.
  split.
  - apply (find_absent_unchanged _ a (fun t => t) (leaf "" "" PENDING)).
    apply findTaskAndDelete_removes.
  - apply findTaskAndDelete_commute_with. apply forest_ind. intros t IH.
    apply findTaskAndDelete_commute_with. exact IH.
Qed.

(** ** Looking a task up *)

Lemma findDeep_cons (id : string) (t : Task) (l : list Task) :
  findDeep (t :: l) id =
    if decide (t_id t = id) then Some t
    else match findDeep (t_subtasks t) id with
         | Some found => Some found
         | None => findDeep l id
         end.
Proof.
  simpl. rewrite findDeep_task_eq.
  destruct (decide (t_id t = id)); reflexivity.
Qed.

Lemma findDeep_spec_with (id : string) (l : list Task) :
  Forall (fun t =>
            (findDeep (t_subtasks t) id = None <-> id ∉ ids (t_subtasks t)) /\
            (forall u, findDeep (t_subtasks t) id = Some u ->
                       t_id u = id /\ occurs u (t_subtasks t))) l ->
  (findDeep l id = None <-> id ∉ ids l) /\
  (forall u, findDeep l id = Some u -> t_id u = id /\ occurs u l).
Proof.
  induction 1 as [|t l [Ht1 Ht2] _ [IH1 IH2]].
  - split; [split; [intros _; apply not_elem_of_nil|reflexivity]|discriminate].
  - rewrite findDeep_cons, ids_cons, ids_task_eq.
    destruct (decide (t_id t = id)) as [E|E].
    + split.
      * split; [discriminate|]. rewrite not_elem_of_app, not_elem_of_cons.
        intros [[H _] _]. congruence.
      * intros u [= <-]. split; [assumption|]. apply occurs_here. left. reflexivity.
    + destruct (findDeep (t_subtasks t) id) as [found|] eqn:Ef.
      * split.
        -- split; [discriminate|]. rewrite not_elem_of_app, not_elem_of_cons.
           intros [[_ H] _]. apply Ht1 in H. discriminate.
        -- intros u [= <-]. destruct (Ht2 found eq_refl) as [Hid Hocc].
           split; [assumption|].
           eapply occurs_below; [left; reflexivity|exact Hocc].
      * split.
        -- rewrite IH1, not_elem_of_app, not_elem_of_cons.
           split; [intros H; repeat split; [congruence|apply Ht1; reflexivity|exact H]
                  |intros [_ H]; exact H].
        -- intros u Hu. destruct (IH2 u Hu) as [Hid Hocc]. split; [assumption|].
           inversion Hocc as [? Hin|parent ? Hin Hsub]; subst.
           ++ apply occurs_here. right. exact Hin.
           ++ eapply occurs_below; [right; exact Hin|exact Hsub].
Qed.

Lemma findDeep_lookup (tasks : list Task) (id : string) :
  (findDeep tasks id = None <-> id ∉ ids tasks) /\
  (forall u, findDeep tasks id = Some u -> t_id u = id /\ occurs u tasks).
Proof.
  apply findDeep_spec_with. apply forest_ind. intros t IH.
  apply findDeep_spec_with. exact IH.
Qed.

(** [findDeep] finds nothing exactly when the id is nowhere in the
    forest, and what it finds is a node of the forest with that id. *)
Theorem findDeep_spec (tasks : list Task) (id : string) :
  (findDeep tasks id = None <-> id ∉ ids tasks) /\
  (forall u, findDeep tasks id = Some u -> t_id u = id /\ occurs u tasks).
Proof. apply findDeep_lookup. Qed.

(** ** Updates in place *)

Lemma ids_field (l : list Task) : ids l = field t_id l.
Proof.
  unfold ids, field. apply flat_map_ext. intros t.
  induction t as [t IH] using Task_ind. destruct t as [i ? ? ? subs ? ? ? ? ?].
  simpl in *. f_equal. induction IH as [|c subs Hc _ IHs]; simpl; congruence.
Qed.

Lemma field_task_eq {A} (f : Task -> A) (t : Task) :
  field_task f t = f t :: field f (t_subtasks t).
Proof. destruct t; reflexivity. Qed.

Lemma findTaskAndUpdate_length (l : list Task) (id : string) (u : Task -> Task) :
  length (findTaskAndUpdate l id u) = length l.
Proof. apply length_map. Qed.

Lemma map_same_with {A B} (f : A -> B) (g : A -> A) (l : list A) :
  Forall (fun x => f (g x) = f x) l -> map f (map g l) = map f l.
Proof. induction 1; simpl; congruence. Qed.

Lemma flat_map_same_with {A B} (f : A -> list B) (g : A -> A) (l : list A) :
  Forall (fun x => f (g x) = f x) l -> flat_map f (map g l) = flat_map f l.
Proof. induction 1; simpl; congruence. Qed.

Lemma getTaskProgress_eq (t : Task) :
  getTaskProgress t =
    match t_subtasks t with
    | [] => if decide (t_status t = COMPLETED) then 100 else 0
    | _ :: _ =>
        Math_round_div (Zsum (map getTaskProgress (t_subtasks t)))
                       (Z.of_nat (length (t_subtasks t)))
    end.
Proof.
  destruct (t_subtasks t) eqn:E.
  - apply getTaskProgress_leaf. exact E.
  - rewrite getTaskProgress_node, E by congruence. reflexivity.
Qed.

(** An updater that keeps the id, the status and the subtasks of the
    task it is given. *)
Lemma findTaskAndUpdate_task_keeps {A} (f : Task -> A) (id : string)
  (u : Task -> Task) (t : Task) :
  (forall x l, f (with_subtasks x l) = f x) ->
  (forall x, f (u x) = f x /\ t_status (u x) = t_status x /\
             t_subtasks (u x) = t_subtasks x) ->
  field_task f (findTaskAndUpdate_task id u t) = field_task f t /\
  getTaskProgress (findTaskAndUpdate_task id u t) = getTaskProgress t.
Proof.
  intros Hf Hu. induction t as [t IH] using Task_ind.
  rewrite findTaskAndUpdate_task_eq.
  destruct (decide (t_id t = id)).
  - destruct (Hu t) as (H1 & H2 & H3). split.
    + rewrite !field_task_eq, H1, H3. reflexivity.
    + rewrite (getTaskProgress_eq (u t)), (getTaskProgress_eq t), H2, H3.
      reflexivity.
  - destruct (0 <? length (t_subtasks t))%nat; [|split; reflexivity].
    unfold findTaskAndUpdate. split.
    + rewrite !field_task_eq, Hf. simpl. f_equal. unfold field.
      apply flat_map_same_with.
      eapply Forall_impl; [exact IH|]. intros x [Hx _]. exact Hx.
    + rewrite (getTaskProgress_eq (with_subtasks _ _)), (getTaskProgress_eq t).
      simpl. rewrite length_map, map_same_with
        by (eapply Forall_impl; [exact IH|]; intros x [_ Hx]; exact Hx).
      destruct (t_subtasks t); reflexivity.
Qed.

Lemma findTaskAndUpdate_keeps (id : string) (u : Task -> Task) (l : list Task) :
  (forall x, t_id (u x) = t_id x /\ t_status (u x) = t_status x /\
             t_subtasks (u x) = t_subtasks x) ->
  ids (findTaskAndUpdate l id u) = ids l /\
  field t_status (findTaskAndUpdate l id u) = field t_status l /\
  map getTaskProgress (findTaskAndUpdate l id u) = map getTaskProgress l.
Proof.
  intros Hu. rewrite !ids_field. unfold field, findTaskAndUpdate.
  split; [|split].
  - apply flat_map_same_with, Forall_forall. intros t _.
    apply (findTaskAndUpdate_task_keeps t_id); [reflexivity|exact Hu].
  - apply flat_map_same_with, Forall_forall. intros t _.
    apply (findTaskAndUpdate_task_keeps t_status); [reflexivity|].
    intros x. destruct (Hu x) as (_ & H & H'). auto.
  - apply map_same_with, Forall_forall. intros t _.
    apply (findTaskAndUpdate_task_keeps t_id id u t); [reflexivity|exact Hu].
Qed.

Lemma getProjectProgress_eq (p : Project) :
  getProjectProgress p =
    match p_tasks p with
    | [] => 0
    | _ :: _ =>
        Math_round_div (Zsum (map getTaskProgress (p_tasks p)))
                       (Z.of_nat (length (p_tasks p)))
    end.
Proof.
  unfold getProjectProgress. destruct (p_tasks p) as [|c l]; [reflexivity|].
  rewrite (fold_left_add_Zsum getTaskProgress (c :: l) 0). reflexivity.
Qed.

Lemma same_work_refl (st : AppState) : same_work st st.
Proof.
  unfold same_work. induction (projects st); constructor; auto.
Qed.

Lemma modifyActiveProject_same_work (a : option string) (id : string)
  (u : Task -> Task) (st : AppState) :
  (forall x, t_id (u x) = t_id x /\ t_status (u x) = t_status x /\
             t_subtasks (u x) = t_subtasks x) ->
  same_work st
    (modifyActiveProject a
       (fun p => with_tasks p (findTaskAndUpdate (p_tasks p) id u)) st).
Proof.
  intros Hu. unfold modifyActiveProject.
  destruct (truthy a); [|apply same_work_refl].
  unfold same_work. simpl.
  induction (projects st) as [|p l IH]; simpl; constructor; [|exact IH].
  destruct (decide (Some (p_id p) = a)); [|auto].
  destruct (findTaskAndUpdate_keeps id u (p_tasks p) Hu) as (H1 & H2 & H3).
  split; [exact H1|split; [exact H2|]].
  rewrite !getProjectProgress_eq. simpl p_tasks.
  rewrite H3, findTaskAndUpdate_length.
  unfold findTaskAndUpdate. destruct (p_tasks p); reflexivity.
Qed.

(** Folding a task, commenting on it and attaching something to it
    change no task id, no status and no progress, in any project. *)
Theorem bookkeeping_same_work (currentUser activeProjectId : option string)
  (st : AppState) :
  (forall taskId,
      same_work st (toggleExpand activeProjectId taskId st)) /\
  (forall taskId content type logId now,
      same_work st
        (addActivity currentUser activeProjectId taskId content type logId now
           st)) /\
  (forall taskId type name url attId now,
      same_work st
        (addAttachment currentUser activeProjectId taskId type name url attId
           now st)).
Proof.
  split; [|split]; intros.
  - apply modifyActiveProject_same_work. auto.
  - unfold addActivity. destruct currentUser; [|apply same_work_refl].
    apply modifyActiveProject_same_work. auto.
  - unfold addAttachment. destruct currentUser; [|apply same_work_refl].
    apply modifyActiveProject_same_work. auto.
Qed.

(** ** Updates one after the other *)

Lemma findTaskAndUpdate_task_compose (id : string) (u v : Task -> Task) (t : Task) :
  (forall x, t_id (u x) = t_id x) ->
  findTaskAndUpdate_task id v (findTaskAndUpdate_task id u t) =
    findTaskAndUpdate_task id (fun x => v (u x)) t.
Proof.
  intros Hu. induction t as [t IH] using Task_ind.
  rewrite (findTaskAndUpdate_task_eq id u t),
          (findTaskAndUpdate_task_eq id (fun x => v (u x)) t).
  destruct (decide (t_id t = id)) as [E|E].
  - rewrite findTaskAndUpdate_task_eq, Hu, decide_True by assumption.
    reflexivity.
  - destruct (0 <? length (t_subtasks t))%nat eqn:El.
    + rewrite findTaskAndUpdate_task_eq. simpl.
      rewrite decide_False, findTaskAndUpdate_length, El by assumption.
      unfold findTaskAndUpdate. rewrite map_map. f_equal.
      apply Forall_fmap_ext_1. exact IH.
    + rewrite findTaskAndUpdate_task_eq, decide_False, El by assumption.
      reflexivity.
Qed.

Lemma findTaskAndUpdate_task_fixed (id : string) (u : Task -> Task) (t : Task) :
  (forall x, u x = x) -> findTaskAndUpdate_task id u t = t.
Proof.
  intros Hu. induction t as [t IH] using Task_ind.
  rewrite findTaskAndUpdate_task_eq.
  destruct (decide (t_id t = id)); [apply Hu|].
  destruct (0 <? length (t_subtasks t))%nat; [|reflexivity].
  unfold findTaskAndUpdate. rewrite map_fixed by exact IH.
  apply with_subtasks_same.
Qed.

Lemma findTaskAndUpdate_twice (tasks : list Task) (id : string)
  (u v : Task -> Task) :
  (forall x, t_id (u x) = t_id x) ->
  findTaskAndUpdate (findTaskAndUpdate tasks id u) id v =
    findTaskAndUpdate tasks id (fun x => v (u x)).
Proof.
  intros Hu. unfold findTaskAndUpdate. rewrite map_map. apply map_ext.
  intros t. apply findTaskAndUpdate_task_compose. exact Hu.
Qed.

Lemma findTaskAndUpdate_undo (tasks : list Task) (id : string)
  (u v : Task -> Task) :
  (forall x, t_id (u x) = t_id x) -> (forall x, v (u x) = x) ->
  findTaskAndUpdate (findTaskAndUpdate tasks id u) id v = tasks.
Proof.
  intros Hu Hinv. rewrite findTaskAndUpdate_twice by exact Hu.
  unfold findTaskAndUpdate. apply map_fixed, Forall_forall. intros t _.
  apply findTaskAndUpdate_task_fixed. exact Hinv.
Qed.

(** Two updates of the same id, one after the other, are one update
    with the two updaters composed, as long as the first keeps the id of
    the task; an updater that is its own inverse applied twice gives the
    forest back. *)
Theorem findTaskAndUpdate_compose (tasks : list Task) (id : string)
  (u v : Task -> Task) :
  (forall x, t_id (u x) = t_id x) ->
  findTaskAndUpdate (findTaskAndUpdate tasks id u) id v =
    findTaskAndUpdate tasks id (fun x => v (u x)) /\
  ((forall x, v (u x) = x) ->
   findTaskAndUpdate (findTaskAndUpdate tasks id u) id v = tasks).
Proof.
  intros Hu. split; [apply findTaskAndUpdate_twice; exact Hu|].
  apply findTaskAndUpdate_undo. exact Hu.
Qed.

Lemma findTaskAndUpdate_compose_witness :
  findTaskAndUpdate
    (findTaskAndUpdate forest_acb "c"
       (fun t => with_status t (flip_status (t_status t))))
    "c" (fun t => with_status t (flip_status (t_status t))) = forest_acb.
Proof.
  apply (proj2 (findTaskAndUpdate_compose forest_acb "c"
                  (fun t => with_status t (flip_status (t_status t)))
                  (fun t => with_status t (flip_status (t_status t)))
                  (fun x => eq_refl))).
  intros [? ? ? s ? ? ? ? ? ?]. destruct s; reflexivity.
Defined.

Lemma modifyActiveProject_fixed (a : option string) (f : Project -> Project)
  (st : AppState) :
  (forall p, f p = p) -> modifyActiveProject a f st = st.
Proof.
  intros Hf. unfold modifyActiveProject. destruct (truthy a); [|reflexivity].
  destruct st as [ps]. simpl. f_equal. apply map_fixed, Forall_forall.
  intros p _. destruct (decide _); auto.
Qed.

Lemma modifyActiveProject_twice (a : option string)
  (f g : Project -> Project) (st : AppState) :
  (forall p, p_id (g p) = p_id p) ->
  modifyActiveProject a f (modifyActiveProject a g st) =
    modifyActiveProject a (fun p => f (g p)) st.
Proof.
  intros Hg. unfold modifyActiveProject.
  destruct (truthy a); [|reflexivity].
  simpl. f_equal. rewrite map_map. apply map_ext. intros p.
  destruct (decide (Some (p_id p) = a)) as [Ea|Ea].
  - rewrite Hg, decide_True by assumption. reflexivity.
  - rewrite decide_False by assumption. reflexivity.
Qed.

(** Two mutations of the active project, one after the other, are one
    mutation with the two updaters composed, as long as the first keeps
    the id of the project. *)
Theorem modifyActiveProject_compose (a : option string)
  (f g : Project -> Project) (st : AppState) :
  (forall p, p_id (g p) = p_id p) ->
  modifyActiveProject a f (modifyActiveProject a g st) =
    modifyActiveProject a (fun p => f (g p)) st.
Proof. apply modifyActiveProject_twice. Qed.

Lemma modifyActiveProject_compose_witness :
  deleteTask (Some "p1") "b" (deleteTask (Some "p1") "a" state_two) =
    modifyActiveProject (Some "p1")
      (fun p => with_tasks
                  (with_tasks p (findTaskAndDelete (p_tasks p) "a"))
                  (findTaskAndDelete
                     (p_tasks (with_tasks p (findTaskAndDelete (p_tasks p) "a")))
                     "b"))
      state_two.
Proof.
  apply (modifyActiveProject_compose (Some "p1")
           (fun p => with_tasks p (findTaskAndDelete (p_tasks p) "b"))
           (fun p => with_tasks p (findTaskAndDelete (p_tasks p) "a"))
           state_two).
  reflexivity.
Defined.

(** ** Progress at the extremes and under a toggle *)

Lemma Math_round_div_all (n : Z) : 0 < n -> Math_round_div (100 * n) n = 100.
Proof.
  intros Hn. unfold Math_round_div. symmetry.
  apply (Z.div_unique_pos _ _ 100 n); lia.
Qed.

Lemma Math_round_div_none (n : Z) : 0 < n -> Math_round_div 0 n = 0.
Proof.
  intros Hn. unfold Math_round_div. apply Z.div_small. lia.
Qed.

Lemma Math_round_div_mono (a b n : Z) :
  0 < n -> a <= b -> Math_round_div a n <= Math_round_div b n.
Proof.
  intros Hn Hab. unfold Math_round_div. apply Z.div_le_mono; lia.
Qed.

Lemma Zsum_const (f : Task -> Z) (l : list Task) (c : Z) :
  Forall (fun t => f t = c) l -> Zsum (map f l) = c * Z.of_nat (length l).
Proof.
  induction 1 as [|t l Ht _ IH]; simpl length; simpl Zsum; [lia|].
  fold (Zsum (map f l)). rewrite Ht, IH. lia.
Qed.

Lemma Zsum_le (f g : Task -> Z) (l : list Task) :
  Forall (fun t => f t <= g t) l -> Zsum (map f l) <= Zsum (map g l).
Proof.
  induction 1 as [|t l Ht _ IH]; simpl; [lia|].
  fold (Zsum (map f l)) (Zsum (map g l)). lia.
Qed.

Lemma Forall_nodes (Q : Task -> Prop) (l : list Task) :
  Forall Q (nodes l) <-> Forall (fun t => Forall Q (nodes_task t)) l.
Proof.
  unfold nodes. induction l as [|t l IH]; simpl.
  - split; constructor.
  - rewrite Forall_app, Forall_cons, IH. reflexivity.
Qed.

Lemma round_of_equal (f : Task -> Z) (l : list Task) (c : Z) :
  l <> [] -> Forall (fun t => f t = c) l -> (c = 0 \/ c = 100) ->
  Math_round_div (Zsum (map f l)) (Z.of_nat (length l)) = c.
Proof.
  intros Hne Hall Hc. rewrite (Zsum_const f l c Hall).
  assert (0 < Z.of_nat (length l)) by (destruct l; [congruence|simpl length; lia]).
  destruct Hc as [-> | ->]; [apply Math_round_div_none|apply Math_round_div_all];
    assumption.
Qed.

Lemma getTaskProgress_all_done (t : Task) :
  Forall (fun u => t_subtasks u = [] -> t_status u = COMPLETED) (nodes_task t) ->
  getTaskProgress t = 100.
Proof.
  induction t as [t IH] using Task_ind.
  rewrite nodes_task_eq, Forall_cons, Forall_nodes. intros [Hleaf Hsub].
  rewrite getTaskProgress_eq. destruct (t_subtasks t) as [|c subs] eqn:E.
  - rewrite decide_True by auto. reflexivity.
  - apply round_of_equal; [discriminate| |auto].
    rewrite Forall_forall in *. intros x Hx. apply IH; auto.
Qed.

Lemma getTaskProgress_none_done (t : Task) :
  Forall (fun u => t_subtasks u = [] -> t_status u <> COMPLETED) (nodes_task t) ->
  getTaskProgress t = 0.
Proof.
  induction t as [t IH] using Task_ind.
  rewrite nodes_task_eq, Forall_cons, Forall_nodes. intros [Hleaf Hsub].
  rewrite getTaskProgress_eq. destruct (t_subtasks t) as [|c subs] eqn:E.
  - rewrite decide_False by auto. reflexivity.
  - apply round_of_equal; [discriminate| |auto].
    rewrite Forall_forall in *. intros x Hx. apply IH; auto.
Qed.

(** When every task without subtasks is COMPLETED, every root task and
    the project (if it has a task) are at 100; when none is, they are
    at 0. *)
Theorem progress_extremes (p : Project) :
  (all_leaves (fun u => t_status u = COMPLETED) (p_tasks p) ->
   Forall (fun t => getTaskProgress t = 100) (p_tasks p) /\
   (p_tasks p <> [] -> getProjectProgress p = 100)) /\
  (all_leaves (fun u => t_status u <> COMPLETED) (p_tasks p) ->
   Forall (fun t => getTaskProgress t = 0) (p_tasks p) /\
   getProjectProgress p = 0).
Proof.
  unfold all_leaves. rewrite !Forall_nodes. split; intros Hall.
  - assert (H100 : Forall (fun t => getTaskProgress t = 100) (p_tasks p)).
    { eapply Forall_impl; [exact Hall|]. apply getTaskProgress_all_done. }
    split; [exact H100|]. intros Hne. rewrite getProjectProgress_eq.
    destruct (p_tasks p) as [|c l] eqn:E; [congruence|].
    apply round_of_equal; [discriminate|exact H100|auto].
  - assert (H0 : Forall (fun t => getTaskProgress t = 0) (p_tasks p)).
    { eapply Forall_impl; [exact Hall|]. apply getTaskProgress_none_done. }
    split; [exact H0|]. rewrite getProjectProgress_eq.
    destruct (p_tasks p) as [|c l] eqn:E; [reflexivity|].
    apply round_of_equal; [discriminate|exact H0|auto].
Qed.

Lemma progress_extremes_witness :
  getProjectProgress (project_of "p1" [node "a" "A" [leaf "c" "C" COMPLETED]]) = 100
  /\ getProjectProgress project_acb = 0.
Proof.
  split.
  - apply (proj1 (progress_extremes
                    (project_of "p1" [node "a" "A" [leaf "c" "C" COMPLETED]]))).
    + unfold all_leaves. apply (bool_decide_unpack _). vm_compute. exact I.
    + discriminate.
  - apply (proj2 (progress_extremes project_acb)).
    unfold all_leaves. apply (bool_decide_unpack _). vm_compute. exact I.
Defined.

Lemma getTaskProgress_set_status (id : string) (u : Task -> Task)
  (s : TaskStatus) (t : Task) :
  (forall x, t_subtasks (u x) = t_subtasks x /\ t_status (u x) = s) ->
  if decide (s = COMPLETED)
  then getTaskProgress t <= getTaskProgress (findTaskAndUpdate_task id u t)
  else getTaskProgress (findTaskAndUpdate_task id u t) <= getTaskProgress t.
Proof.
  intros Hu. induction t as [t IH] using Task_ind.
  rewrite findTaskAndUpdate_task_eq.
  destruct (decide (t_id t = id)).
  - destruct (Hu t) as [Hsub Hst].
    rewrite (getTaskProgress_eq (u t)), Hsub, Hst.
    pose proof (getTaskProgress_range t) as Hr.
    rewrite (getTaskProgress_eq t) in *.
    destruct (t_subtasks t); destruct (decide (s = COMPLETED)); lia.
  - destruct (0 <? length (t_subtasks t))%nat eqn:El;
      [|destruct (decide (s = COMPLETED)); lia].
    apply Nat.ltb_lt in El.
    assert (Hne : t_subtasks t <> []) by (destruct (t_subtasks t); simpl in El; [lia|discriminate]).
    rewrite (getTaskProgress_node t Hne).
    rewrite (getTaskProgress_node (with_subtasks t _))
      by (simpl; unfold findTaskAndUpdate; destruct (t_subtasks t); [congruence|discriminate]).
    simpl t_subtasks. unfold findTaskAndUpdate. rewrite length_map, map_map.
    assert (Hn : 0 < Z.of_nat (length (t_subtasks t))) by lia.
    destruct (decide (s = COMPLETED)); apply Math_round_div_mono; try exact Hn;
      apply (Zsum_le _ _ (t_subtasks t)); exact IH.
Qed.

Lemma getProjectProgress_set_status (id : string) (u : Task -> Task)
  (s : TaskStatus) (p : Project) :
  (forall x, t_subtasks (u x) = t_subtasks x /\ t_status (u x) = s) ->
  if decide (s = COMPLETED)
  then getProjectProgress p <=
       getProjectProgress (with_tasks p (findTaskAndUpdate (p_tasks p) id u))
  else getProjectProgress (with_tasks p (findTaskAndUpdate (p_tasks p) id u))
       <= getProjectProgress p.
Proof.
  intros Hu.
  assert (Hall : Forall (fun t =>
            if decide (s = COMPLETED)
            then getTaskProgress t <= getTaskProgress (findTaskAndUpdate_task id u t)
            else getTaskProgress (findTaskAndUpdate_task id u t) <= getTaskProgress t)
            (p_tasks p)).
  { apply Forall_forall. intros t _. apply getTaskProgress_set_status. exact Hu. }
  rewrite !getProjectProgress_eq. simpl p_tasks.
  destruct (p_tasks p) as [|c l] eqn:E.
  - destruct (decide (s = COMPLETED)); simpl; lia.
  - change (findTaskAndUpdate (c :: l) id u)
      with (findTaskAndUpdate_task id u c :: findTaskAndUpdate l id u).
    cbv iota.
    change (findTaskAndUpdate_task id u c :: findTaskAndUpdate l id u)
      with (map (findTaskAndUpdate_task id u) (c :: l)).
    rewrite length_map, map_map.
    assert (Hn : 0 < Z.of_nat (length (c :: l))) by (simpl length; lia).
    destruct (decide (s = COMPLETED)); apply Math_round_div_mono; try exact Hn;
      apply (Zsum_le _ _ (c :: l)); exact Hall.
Qed.

Lemma toggleTaskStatus_updater_found (user taskId logId : string) (now : Z)
  (p : Project) (s : TaskStatus) :
  getStatus taskId (p_tasks p) = Some s ->
  exists content,
    toggleTaskStatus_updater user taskId logId now p =
      with_tasks p
        (findTaskAndUpdate (p_tasks p) taskId
           (fun t => with_activity (with_status t (flip_status s))
                       (t_activity t ++
                          [mkActivityLog logId status_change content now user]))).
Proof.
  intros Hs. unfold toggleTaskStatus_updater. rewrite Hs. simpl.
  eexists. destruct s; reflexivity.
Qed.

(** Completing a task never lowers the progress of the project, and
    reopening one never raises it. *)
Theorem toggleTaskStatus_progress (user taskId logId : string) (now : Z)
  (p : Project) :
  (getStatus taskId (p_tasks p) = Some PENDING ->
   getProjectProgress p <=
     getProjectProgress (toggleTaskStatus_updater user taskId logId now p)) /\
  (getStatus taskId (p_tasks p) = Some COMPLETED ->
   getProjectProgress (toggleTaskStatus_updater user taskId logId now p) <=
     getProjectProgress p).
Proof.
  split; intros Hs;
    destruct (toggleTaskStatus_updater_found user taskId logId now p _ Hs)
      as [content ->].
  - apply (getProjectProgress_set_status taskId _ COMPLETED p). auto.
  - apply (getProjectProgress_set_status taskId _ PENDING p). auto.
Qed.

Lemma toggleTaskStatus_progress_witness :
  getProjectProgress project_A <=
    getProjectProgress (toggleTaskStatus_updater "u1" "A" "l1" 5 project_A).
Proof.
  apply (proj1 (toggleTaskStatus_progress "u1" "A" "l1" 5 project_A)).
  reflexivity.
Defined.

(** Two toggles of the same task give the first task with that id its
    status back and leave two more entries, of type [status_change], at
    the end of its activity. *)
Theorem toggleTaskStatus_twice (user taskId log1 log2 : string) (now1 now2 : Z)
  (p : Project) (t : Task) :
  findDeep (p_tasks p) taskId = Some t ->
  exists e1 e2,
    log_type e1 = status_change /\ log_type e2 = status_change /\
    findDeep
      (p_tasks (toggleTaskStatus_updater user taskId log2 now2
                  (toggleTaskStatus_updater user taskId log1 now1 p))) taskId =
      Some (with_activity t (t_activity t ++ [e1; e2])).
Proof.
  intros Hfind.
  assert (Hs : getStatus taskId (p_tasks p) = Some (t_status t))
    by (rewrite getStatus_findDeep, Hfind; reflexivity).
  destruct (toggleTaskStatus_updater_found user taskId log1 now1 p _ Hs)
    as [c1 ->].
  set (u1 := fun x => with_activity (with_status x (flip_status (t_status t)))
                        (t_activity x ++
                           [mkActivityLog log1 status_change c1 now1 user])).
  assert (Hfind1 : findDeep (findTaskAndUpdate (p_tasks p) taskId u1) taskId =
                   Some (u1 t))
    by (rewrite findDeep_update, Hfind; reflexivity).
  assert (Hs1 : getStatus taskId
                  (p_tasks (with_tasks p (findTaskAndUpdate (p_tasks p) taskId u1)))
                = Some (flip_status (t_status t)))
    by (rewrite getStatus_findDeep; simpl p_tasks; rewrite Hfind1; reflexivity).
  destruct (toggleTaskStatus_updater_found user taskId log2 now2 _ _ Hs1)
    as [c2 ->].
  exists (mkActivityLog log1 status_change c1 now1 user),
         (mkActivityLog log2 status_change c2 now2 user).
  split; [reflexivity|split; [reflexivity|]].
  simpl p_tasks. rewrite findDeep_update, Hfind1 by reflexivity.
  subst u1. simpl. rewrite flip_status_twice, <- app_assoc.
  destruct t; reflexivity.
Qed.

Lemma toggleTaskStatus_twice_witness :
  exists e1 e2,
    log_type e1 = status_change /\ log_type e2 = status_change /\
    findDeep
      (p_tasks (toggleTaskStatus_updater "u1" "A" "l2" 6
                  (toggleTaskStatus_updater "u1" "A" "l1" 5 project_A))) "A" =
      Some (with_activity (leaf "A" "A" PENDING) [e1; e2]).
Proof.
  apply (toggleTaskStatus_twice "u1" "A" "l1" "l2" 5 6 project_A
           (leaf "A" "A" PENDING)).
  reflexivity.
Defined.

(** ** More on the search *)

Section More_on_the_search.
Context {engine : Engine}.

Lemma prune_cons (q : string) (t : Task) (l : list Task) :
  prune q (t :: l) =
    if included q t then prune_task q t :: prune q l else prune q l.
Proof. reflexivity. Qed.

Lemma matches_prune_task (q : string) (t : Task) :
  matches q (prune_task q t) = matches q t.
Proof. rewrite prune_task_eq. reflexivity. Qed.

Lemma prune_twice_with (q : string) (l : list Task) :
  Forall (fun t => included q t = true ->
                   included q (prune_task q t) = true /\
                   prune_task q (prune_task q t) = prune_task q t) l ->
  prune q (prune q l) = prune q l /\
  existsb (included q) (prune q l) = existsb (included q) l.
Proof.
  induction 1 as [|t l Ht _ [IH1 IH2]]; [split; reflexivity|].
  rewrite prune_cons. destruct (included q t) eqn:E.
  - destruct (Ht eq_refl) as [Hi Hp].
    rewrite prune_cons, Hi, Hp, IH1. simpl. rewrite Hi, E. auto.
  - simpl. rewrite E. auto.
Qed.

Lemma prune_task_twice (q : string) (t : Task) :
  included q t = true ->
  included q (prune_task q t) = true /\
  prune_task q (prune_task q t) = prune_task q t.
Proof.
  induction t as [t IH] using Task_ind. intros Hinc.
  destruct (prune_twice_with q _ IH) as [H1 H2].
  rewrite included_eq in Hinc. split.
  - rewrite included_eq, matches_prune_task.
    rewrite (prune_task_eq q t). simpl t_subtasks. rewrite H2. exact Hinc.
  - rewrite (prune_task_eq q (prune_task q t)), (prune_task_eq q t).
    simpl t_subtasks. rewrite H1. reflexivity.
Qed.

Lemma prune_ids_with (q : string) (l : list Task) :
  Forall (fun t => sublist (ids (prune q (t_subtasks t))) (ids (t_subtasks t))) l ->
  sublist (ids (prune q l)) (ids l).
Proof.
  induction 1 as [|t l Ht _ IH]; [constructor|].
  rewrite prune_cons, (ids_cons t l), (ids_task_eq t).
  destruct (included q t).
  - rewrite ids_cons, prune_task_eq, ids_task_eq. simpl.
    apply sublist_skip, sublist_app; assumption.
  - simpl. apply sublist_cons, sublist_inserts_l. assumption.
Qed.

Lemma included_empty_query (t : Task) : included "" t = true.
Proof.
  rewrite included_eq. apply orb_true_iff. left.
  unfold matches. apply orb_true_iff. left.
  rewrite (toLowerCase_on_ascii "" eq_refl).
  destruct (toLowerCase (t_title t)); reflexivity.
Qed.

Lemma prune_empty_ids_with (l : list Task) :
  Forall (fun t => ids (prune "" (t_subtasks t)) = ids (t_subtasks t)) l ->
  ids (prune "" l) = ids l.
Proof.
  induction 1 as [|t l Ht _ IH]; [reflexivity|].
  rewrite prune_cons, included_empty_query, !ids_cons, IH.
  rewrite prune_task_eq, !ids_task_eq. simpl. rewrite Ht. reflexivity.
Qed.

(** Searching the result of a search again, for the same query, changes
    nothing; the ids of a result are ids of the forest, in their order;
    the result is empty exactly when no task of the forest, at any
    depth, matches; and the empty query keeps every task. *)
Theorem searchTasks_more (tasks : list Task) (query : string) :
  searchTasks (searchTasks tasks query) query = searchTasks tasks query /\
  sublist (ids (searchTasks tasks query)) (ids tasks) /\
  (searchTasks tasks query = [] <->
   forall u, occurs u tasks -> ~ text_matches query u) /\
  ids (searchTasks tasks "") = ids tasks.
Proof.
  rewrite !searchTasks_prune. split; [|split; [|split]].
  - apply prune_twice_with, Forall_forall. intros t _. apply prune_task_twice.
  - apply prune_ids_with. apply forest_ind. intros t IH.
    apply prune_ids_with. exact IH.
  - assert (Hnil : prune query tasks = [] <->
                   existsb (included query) tasks = false).
    { unfold prune.
      rewrite <- (filter_map_js_nonempty (included query) (prune_task query)).
      destruct (filter_map_js _ _ tasks); simpl length;
        [change (0 <? 0)%nat with false|change (0 <? S _)%nat with true];
        split; intros; try reflexivity; discriminate. }
    rewrite Hnil. split.
    + intros Hex u Hu Hm.
      assert (Hinc : included query u = true)
        by (apply included_closed; exists u; split; [left; reflexivity|exact Hm]).
      rewrite (existsb_included_occurs query u tasks Hu Hinc) in Hex.
      discriminate.
    + intros Hno. destruct (existsb (included query) tasks) eqn:E; [|reflexivity].
      apply existsb_exists in E as (t & Ht & Hinc).
      apply included_closed in Hinc as (u & Hu & Hm).
      exfalso. apply (Hno u); [|exact Hm].
      eapply in_subtree_occurs; eassumption.
  - apply prune_empty_ids_with. apply forest_ind.
    intros t IH. apply prune_empty_ids_with. exact IH.
Qed.

End More_on_the_search.

(** ** Adding a subtask *)

Lemma findTaskAndAddSubtask_ids_with (pid : string) (new : Task) (l : list Task) :
  Forall (fun t => NoDup (ids_task t) -> pid ∈ ids_task t ->
                   ids_task (findTaskAndAddSubtask_task pid new t) ≡ₚ
                     ids_task new ++ ids_task t) l ->
  NoDup (ids l) -> pid ∈ ids l ->
  ids (findTaskAndAddSubtask l pid new) ≡ₚ ids_task new ++ ids l.
Proof.
  induction 1 as [|t l Ht _ IH]; [intros _ H; inversion H|].
  rewrite (ids_cons t l), NoDup_app, elem_of_app.
  intros (Hnt & Hdisj & Hnl) Hin.
  change (findTaskAndAddSubtask (t :: l) pid new)
    with (findTaskAndAddSubtask_task pid new t :: findTaskAndAddSubtask l pid new).
  rewrite ids_cons.
  destruct (decide (pid ∈ ids_task t)) as [Hpt|Hpt].
  - assert (Hrest : findTaskAndAddSubtask l pid new = l).
    { apply (find_absent_unchanged _ pid (fun x => x) new). apply Hdisj, Hpt. }
    rewrite Hrest, (Ht Hnt Hpt), <- app_assoc. reflexivity.
  - destruct Hin as [Hin|Hin]; [contradiction|].
    rewrite (findTaskAndAddSubtask_task_absent pid new t Hpt), (IH Hnl Hin).
    apply Permutation_app_swap_app.
Qed.

Lemma findTaskAndAddSubtask_task_ids (pid : string) (new t : Task) :
  NoDup (ids_task t) -> pid ∈ ids_task t ->
  ids_task (findTaskAndAddSubtask_task pid new t) ≡ₚ ids_task new ++ ids_task t.
Proof.
  induction t as [t IH] using Task_ind.
  rewrite findTaskAndAddSubtask_task_eq, (ids_task_eq t), NoDup_cons, elem_of_cons.
  intros [_ Hnd] Hin. destruct (decide (t_id t = pid)) as [E|E].
  - rewrite ids_task_inside, (ids_task_eq t). apply Permutation_app_comm.
  - destruct Hin as [Hin|Hin]; [congruence|].
    destruct (t_subtasks t) as [|c subs] eqn:Es; [inversion Hin|].
    simpl length. change (0 <? S (length subs))%nat with true. cbv iota.
    rewrite ids_task_with_subtasks, <- Es in *.
    rewrite (findTaskAndAddSubtask_ids_with pid new _ IH Hnd Hin).
    apply Permutation_middle.
Qed.

(** In a forest with unique ids that has the parent id, adding a
    subtask brings in the ids of the new task once and keeps all the
    others. *)
Theorem findTaskAndAddSubtask_ids (tasks : list Task) (parentId : string)
  (newTask : Task) :
  NoDup (ids tasks) -> parentId ∈ ids tasks ->
  ids (findTaskAndAddSubtask tasks parentId newTask) ≡ₚ
    ids_task newTask ++ ids tasks.
Proof.
  apply findTaskAndAddSubtask_ids_with, Forall_forall. intros t _.
  apply findTaskAndAddSubtask_task_ids.
Qed.

Lemma findTaskAndAddSubtask_ids_witness :
  ids (findTaskAndAddSubtask forest_acb "c" (leaf "n" "N" PENDING)) ≡ₚ
    ids_task (leaf "n" "N" PENDING) ++ ids forest_acb.
Proof.
  apply (findTaskAndAddSubtask_ids forest_acb "c" (leaf "n" "N" PENDING));
    apply (bool_decide_unpack _); vm_compute; exact I.
Defined.

(** ** Projects *)

Lemma filter_all {A} (p : A -> bool) (l : list A) :
  Forall (fun x => p x = true) l -> List.filter p l = l.
Proof. induction 1 as [|x l Hx _ IH]; simpl; [|rewrite Hx]; congruence. Qed.

(** A project added under an id that no project has, then deleted,
    leaves the state as it was; after [deleteProject] no project has
    the id, and the projects that are left are those with another id,
    in their order. *)
Theorem deleteProject_addProject (user title subtitle id : string) (now : Z)
  (st : AppState) :
  (id ∉ map p_id (projects st) ->
   deleteProject id (addProject (Some user) title subtitle id now st) = st) /\
  (id ∉ map p_id (projects (deleteProject id st))) /\
  projects (deleteProject id st) =
    List.filter (fun p => bool_decide (p_id p <> id)) (projects st).
Proof.
  split; [|split; [|reflexivity]].
  - intros Habs. unfold deleteProject, addProject. destruct st as [ps]. simpl in *.
    f_equal. rewrite List.filter_app. simpl.
    rewrite bool_decide_eq_false_2 by (intros H; apply H; reflexivity).
    rewrite app_nil_r. apply filter_all, Forall_forall. intros p Hp.
    apply bool_decide_eq_true. intros E. apply Habs.
    apply list_elem_of_fmap. exists p. auto.
  - unfold deleteProject. simpl. intros Hin.
    apply list_elem_of_fmap in Hin as (p & Hid & Hp).
    apply list_elem_of_In, filter_In in Hp as [_ Hp].
    apply bool_decide_eq_true in Hp. congruence.
Qed.

Lemma deleteProject_addProject_witness :
  deleteProject "p3" (addProject (Some "u1") "Tres" "" "p3" 9 state_two)
  = state_two.
Proof.
  apply (proj1 (deleteProject_addProject "u1" "Tres" "" "p3" 9 state_two)).
  apply (bool_decide_unpack _); vm_compute; exact I.
Defined.

(** ** The counters of the statistics *)

Lemma count_completed_cons (s : TaskStatus) (l : list TaskStatus) :
  count_completed (s :: l) =
    (if decide (s = COMPLETED) then 1 else 0) + count_completed l.
Proof.
  unfold count_completed. simpl. destruct (decide (s = COMPLETED)).
  - rewrite bool_decide_eq_true_2 by assumption. simpl length. lia.
  - rewrite bool_decide_eq_false_2 by assumption. lia.
Qed.

Lemma count_completed_app (l k : list TaskStatus) :
  count_completed (l ++ k) = count_completed l + count_completed k.
Proof.
  unfold count_completed. rewrite List.filter_app, length_app. lia.
Qed.

Lemma count_completed_bounds (l : list TaskStatus) :
  0 <= count_completed l <= Z.of_nat (length l).
Proof.
  unfold count_completed. pose proof (List.filter_length_le
    (fun s => bool_decide (s = COMPLETED)) l). lia.
Qed.

Lemma count_completed_Permutation (l k : list TaskStatus) :
  l ≡ₚ k -> count_completed l = count_completed k.
Proof.
  induction 1; rewrite ?count_completed_cons in *; lia.
Qed.

Lemma countTasks_task_eq (t : Task) (total completed : Z) :
  countTasks_task t (total, completed) =
    countTasks (t_subtasks t)
      (total + 1,
       if decide (t_status t = COMPLETED) then completed + 1 else completed).
Proof. destruct t; reflexivity. Qed.

Lemma countTasks_counts_with (l : list Task) :
  Forall (fun t => forall a b,
            countTasks (t_subtasks t) (a, b) =
              (a + Z.of_nat (length (field t_status (t_subtasks t))),
               b + count_completed (field t_status (t_subtasks t)))) l ->
  forall a b,
    countTasks l (a, b) =
      (a + Z.of_nat (length (field t_status l)),
       b + count_completed (field t_status l)).
Proof.
  induction 1 as [|t l Ht _ IH]; intros a b.
  - unfold count_completed. simpl. f_equal; lia.
  - change (countTasks (t :: l) (a, b))
      with (countTasks l (countTasks_task t (a, b))).
    rewrite countTasks_task_eq, Ht, IH.
    change (field t_status (t :: l))
      with (field_task t_status t ++ field t_status l).
    rewrite field_task_eq, count_completed_app, count_completed_cons, length_app.
    simpl length. destruct (decide (t_status t = COMPLETED)); f_equal; lia.
Qed.

Lemma countTasks_counts (l : list Task) (a b : Z) :
  countTasks l (a, b) =
    (a + Z.of_nat (length (field t_status l)),
     b + count_completed (field t_status l)).
Proof.
  revert a b. apply countTasks_counts_with. apply forest_ind. intros t IH.
  apply countTasks_counts_with. exact IH.
Qed.

(** The two counters of the statistics are the number of tasks of all
    the projects, at all depths, and the number of those whose status is
    COMPLETED (tasks with subtasks included); the second is never above
    the first. *)
Theorem statsCounters_counts (st : AppState) :
  let statuses := flat_map (fun p => field t_status (p_tasks p)) (projects st) in
  statsCounters st = (Z.of_nat (length statuses), count_completed statuses) /\
  0 <= snd (statsCounters st) <= fst (statsCounters st).
Proof.
  intros statuses.
  assert (H : forall l a b,
             fold_left (fun c p => countTasks (p_tasks p) c) l (a, b) =
               (a + Z.of_nat (length (flat_map (fun p => field t_status (p_tasks p)) l)),
                b + count_completed
                      (flat_map (fun p => field t_status (p_tasks p)) l))).
  { induction l as [|p l IH]; intros a b; simpl.
    - unfold count_completed. simpl. f_equal; lia.
    - rewrite countTasks_counts, IH, length_app, count_completed_app.
      f_equal; lia. }
  unfold statsCounters. rewrite H. fold statuses. simpl.
  split; [reflexivity|]. apply count_completed_bounds.
Qed.

(** ** Relocation and the statuses *)

Lemma field_cons {A} (f : Task -> A) (t : Task) (l : list Task) :
  field f (t :: l) = field_task f t ++ field f l.
Proof. reflexivity. Qed.

Lemma field_app {A} (f : Task -> A) (l1 l2 : list Task) :
  field f (l1 ++ l2) = field f l1 ++ field f l2.
Proof. unfold field. apply flat_map_app. Qed.

Lemma status_plug_perm (c : Level) (a b : list Task) (extra : list TaskStatus) :
  field t_status a ≡ₚ extra ++ field t_status b ->
  field t_status (plug c a) ≡ₚ extra ++ field t_status (plug c b).
Proof.
  intros Hab. induction c as [|k1 parent c IH k2]; simpl; [exact Hab|].
  rewrite !field_app, !field_cons, !field_task_eq. simpl. rewrite IH.
  rewrite <- app_assoc.
  rewrite (Permutation_middle extra _ (t_status parent)).
  apply Permutation_app_swap_app.
Qed.

Lemma status_placed (pos : Position) (item : Task) (l1 l2 : list Task) (x : Task) :
  field t_status (placed pos item l1 x l2) ≡ₚ
    field_task t_status item ++ field t_status (l1 ++ x :: l2).
Proof.
  destruct pos; unfold placed; rewrite !field_app, !field_cons.
  - apply Permutation_app_swap_app.
  - rewrite (app_assoc (field_task t_status x)). apply Permutation_pull.
  - assert (E : field_task t_status
                  (with_expanded (with_subtasks x (t_subtasks x ++ [item])) true)
                = field_task t_status x ++ field_task t_status item).
    { rewrite (field_task_eq _ x), field_task_eq. simpl.
      rewrite field_app, field_cons. simpl. rewrite app_nil_r. reflexivity. }
    rewrite E. apply Permutation_pull.
Qed.

(** Whatever the move, the statuses of the tasks of the project are the
    same afterwards, with the same multiplicities, and so are the two
    counters that the statistics take from the project. *)
Theorem moveTask_keeps_statuses (d tgt : string) (pos : Position)
  (p : Project) (counters : Z * Z) :
  field t_status (p_tasks (moveTask_updater d tgt pos p)) ≡ₚ
    field t_status (p_tasks p) /\
  countTasks (p_tasks (moveTask_updater d tgt pos p)) counters =
    countTasks (p_tasks p) counters.
Proof.
  assert (Hperm : field t_status (p_tasks (moveTask_updater d tgt pos p)) ≡ₚ
                  field t_status (p_tasks p)).
  { destruct (moveTask_updater_cases d tgt pos p)
      as [[_ ->]|[(item & rest & _ & _ & ->)|(item & rest & res & Hr & Hi & ->)]];
      try reflexivity.
    apply removeOp_found in Hr as (c & l1 & l2 & -> & -> & _).
    apply insertOp_found in Hi as (c' & k1 & x & k2 & Hrest & _ & ->).
    simpl p_tasks.
    rewrite (status_plug_perm c' _ _ _ (status_placed pos item k1 k2 x)).
    rewrite <- Hrest. symmetry. apply status_plug_perm.
    rewrite !field_app, field_cons. apply Permutation_app_swap_app. }
  split; [exact Hperm|]. destruct counters as [a b].
  rewrite !countTasks_counts.
  rewrite (Permutation_length Hperm), (count_completed_Permutation _ _ Hperm).
  reflexivity.
Qed.

(** ** Reordering without positions *)

Lemma ids_Permutation (l k : list Task) : l ≡ₚ k -> ids l ≡ₚ ids k.
Proof.
  induction 1 as [|x l k _ IH|x y l|l k m _ IH1 _ IH2].
  - reflexivity.
  - rewrite !ids_cons, IH. reflexivity.
  - rewrite !ids_cons. apply Permutation_app_swap_app.
  - etransitivity; eassumption.
Qed.

Lemma splice_in_Permutation {A} (i : nat) (x : A) (l : list A) :
  splice_in i x l ≡ₚ x :: l.
Proof.
  unfold splice_in. rewrite <- Permutation_middle, take_drop. reflexivity.
Qed.

Lemma findAndReorderTask_task_eq (d tgt : string) (t : Task) :
  findAndReorderTask_task d tgt t =
    if (0 <? length (t_subtasks t))%nat
    then with_subtasks t (findAndReorderTask (t_subtasks t) d tgt)
    else t.
Proof. destruct t; reflexivity. Qed.

Lemma findAndReorderTask_map_ids (d tgt : string) (l : list Task) :
  Forall (fun t => ids (findAndReorderTask (t_subtasks t) d tgt) ≡ₚ
                   ids (t_subtasks t)) l ->
  ids (map (findAndReorderTask_task d tgt) l) ≡ₚ ids l.
Proof.
  induction 1 as [|t l Ht _ IH]; [reflexivity|]. simpl map.
  rewrite !ids_cons, IH, findAndReorderTask_task_eq.
  destruct (0 <? length (t_subtasks t))%nat; [|reflexivity].
  rewrite ids_task_with_subtasks, (ids_task_eq t), Ht. reflexivity.
Qed.

Lemma findAndReorderTask_ids_with (d tgt : string) (l : list Task) :
  Forall (fun t => ids (findAndReorderTask (t_subtasks t) d tgt) ≡ₚ
                   ids (t_subtasks t)) l ->
  ids (findAndReorderTask l d tgt) ≡ₚ ids l.
Proof.
  intros Hall. unfold findAndReorderTask, findAndReorderTask_with.
  destruct (findIndex (fun t => bool_decide (t_id t = d)) l) as [i|] eqn:Ed;
    [destruct (findIndex (fun t => bool_decide (t_id t = tgt)) l) as [j|]|].
  - destruct (l !! i) as [moved|] eqn:El; [|reflexivity].
    apply ids_Permutation. unfold splice_at_found.
    destruct (findIndex _ (delete i l)); rewrite splice_in_Permutation;
      symmetry; apply delete_Permutation; exact El.
  - apply findAndReorderTask_map_ids. exact Hall.
  - apply findAndReorderTask_map_ids. exact Hall.
Qed.

(** [findAndReorderTask] neither loses nor duplicates a task, whatever
    the two ids (the same id twice, or an absent one, included). *)
Theorem findAndReorderTask_ids (tasks : list Task) (draggedId targetId : string) :
  ids (findAndReorderTask tasks draggedId targetId) ≡ₚ ids tasks.
Proof.
  apply findAndReorderTask_ids_with. apply forest_ind. intros t IH.
  apply findAndReorderTask_ids_with. exact IH.
Qed.

Lemma findIndex_id_middle (i : string) (l1 l2 : list Task) (x : Task) :
  Forall (fun y => t_id y <> i) l1 -> t_id x = i ->
  findIndex (fun t => bool_decide (t_id t = i)) (l1 ++ x :: l2)
  = Some (length l1).
Proof.
  intros H Hx. apply findIndex_middle.
  - eapply Forall_impl; [exact H|]. intros y Hy.
    apply bool_decide_eq_false. exact Hy.
  - apply bool_decide_eq_true. exact Hx.
Qed.

(** Among siblings whose ids are all different, [findAndReorderTask]
    takes the dragged task out and puts it immediately before the
    target, whether it stood before the target or after it. *)
Theorem findAndReorderTask_siblings (l1 l2 l3 : list Task) (a b : Task) :
  NoDup (map t_id (l1 ++ a :: l2 ++ b :: l3)) ->
  findAndReorderTask (l1 ++ a :: l2 ++ b :: l3) (t_id a) (t_id b) =
    l1 ++ l2 ++ a :: b :: l3 /\
  findAndReorderTask (l1 ++ b :: l2 ++ a :: l3) (t_id a) (t_id b) =
    l1 ++ a :: b :: l2 ++ l3.
Proof.
  intros Hnd.
  rewrite !map_app, !map_cons, !map_app, !map_cons in Hnd.
  rewrite NoDup_app in Hnd. destruct Hnd as (_ & Hd1 & Hnd).
  rewrite NoDup_cons in Hnd. destruct Hnd as [Ha Hnd].
  rewrite NoDup_app in Hnd. destruct Hnd as (_ & Hd2 & Hnd).
  rewrite NoDup_cons in Hnd. destruct Hnd as [Hb _].
  rewrite not_elem_of_app, not_elem_of_cons in Ha. destruct Ha as (H2a & Hab & _).
  assert (Hother : forall (i : string) (l : list Task),
             i ∉ map t_id l -> Forall (fun y => t_id y <> i) l).
  { intros i l Hi. apply Forall_forall. intros y Hy E. apply Hi.
    apply list_elem_of_fmap. exists y. auto. }
  assert (H1a : t_id a ∉ map t_id l1).
  { intros H. apply (Hd1 _ H). rewrite elem_of_cons. auto. }
  assert (H1b : t_id b ∉ map t_id l1).
  { intros H. apply (Hd1 _ H).
    rewrite elem_of_cons, elem_of_app, elem_of_cons. auto. }
  assert (H2b : t_id b ∉ map t_id l2).
  { intros H. apply (Hd2 _ H). rewrite elem_of_cons. auto. }
  unfold findAndReorderTask, findAndReorderTask_with. split.
  - rewrite (findIndex_id_middle (t_id a) l1) by auto.
    replace (l1 ++ a :: l2 ++ b :: l3) with ((l1 ++ a :: l2) ++ b :: l3)
      by (rewrite <- app_assoc; reflexivity).
    rewrite (findIndex_id_middle (t_id b) (l1 ++ a :: l2)); [|
      apply Forall_app; split; [auto|constructor; [congruence|auto]]|reflexivity].
    rewrite <- app_assoc. simpl app.
    rewrite list_lookup_middle by reflexivity. rewrite delete_middle.
    replace (l1 ++ l2 ++ b :: l3) with ((l1 ++ l2) ++ b :: l3)
      by (rewrite <- app_assoc; reflexivity).
    rewrite (findIndex_id_middle (t_id b) (l1 ++ l2))
      by (try reflexivity; apply Forall_app; auto).
    unfold splice_at_found.
    replace ((l1 ++ l2) ++ b :: l3) with ((l1 ++ l2) ++ (b :: l3)) by reflexivity.
    rewrite splice_in_middle, <- app_assoc. reflexivity.
  - replace (l1 ++ b :: l2 ++ a :: l3) with ((l1 ++ b :: l2) ++ a :: l3)
      by (rewrite <- app_assoc; reflexivity).
    rewrite (findIndex_id_middle (t_id a) (l1 ++ b :: l2)); [|
      apply Forall_app; split; [auto|constructor; [congruence|auto]]|reflexivity].
    rewrite <- (app_assoc l1 (b :: l2)). simpl app.
    rewrite (findIndex_id_middle (t_id b) l1) by auto.
    replace (l1 ++ b :: l2 ++ a :: l3) with ((l1 ++ b :: l2) ++ a :: l3)
      by (rewrite <- app_assoc; reflexivity).
    rewrite list_lookup_middle by reflexivity. rewrite delete_middle.
    rewrite <- (app_assoc l1 (b :: l2)). simpl app.
    rewrite (findIndex_id_middle (t_id b) l1) by auto.
    unfold splice_at_found.
    replace (l1 ++ b :: l2 ++ l3) with (l1 ++ (b :: l2 ++ l3)) by reflexivity.
    apply splice_in_middle.
Qed.

Lemma findAndReorderTask_siblings_witness :
  findAndReorderTask
    [leaf "x" "X" PENDING; leaf "a" "A" PENDING; leaf "y" "Y" PENDING;
     leaf "b" "B" PENDING] "a" "b" =
    [leaf "x" "X" PENDING; leaf "y" "Y" PENDING; leaf "a" "A" PENDING;
     leaf "b" "B" PENDING].
Proof.
  refine (proj1 (findAndReorderTask_siblings
                   [leaf "x" "X" PENDING] [leaf "y" "Y" PENDING] []
                   (leaf "a" "A" PENDING) (leaf "b" "B" PENDING) _)).
  apply (bool_decide_unpack _); vm_compute; exact I.
Defined.

Lemma splice_in_same {A} (i : nat) (x : A) (l1 l2 : list A) :
  NoDup (l1 ++ x :: l2) -> (i <= length (l1 ++ l2))%nat ->
  splice_in i x (l1 ++ l2) = l1 ++ x :: l2 <-> i = length l1.
Proof.
  intros Hnd Hi. split.
  - intros E.
    assert (Hat : (l1 ++ x :: l2) !! i = Some x).
    { rewrite <- E. unfold splice_in.
      rewrite lookup_app_r by (rewrite length_take; lia).
      rewrite length_take. replace (i - i `min` length (l1 ++ l2))%nat with 0%nat by lia.
      reflexivity. }
    apply (NoDup_lookup _ _ _ x Hnd Hat). apply list_lookup_middle. reflexivity.
  - intros ->. unfold splice_in.
    rewrite take_app_length, drop_app_length. reflexivity.
Qed.

(** Dropping a task on itself in [findAndReorderTask], among siblings
    whose ids are all different: the target is no longer found once the
    task is taken out, and the task goes to the place just before the
    last of the others.  That gives the list back as it was exactly
    when the task is the only sibling or the last but one; in every
    other place the task moves. *)
Theorem findAndReorderTask_self (l1 l2 : list Task) (a : Task) :
  NoDup (map t_id (l1 ++ a :: l2)) ->
  findAndReorderTask (l1 ++ a :: l2) (t_id a) (t_id a) =
    splice_in (length (l1 ++ l2) - 1) a (l1 ++ l2) /\
  (findAndReorderTask (l1 ++ a :: l2) (t_id a) (t_id a) = l1 ++ a :: l2 <->
   length l2 = 1%nat \/ (l1 = [] /\ l2 = [])).
Proof.
  intros Hnd0. pose proof Hnd0 as Hnd.
  rewrite map_app, map_cons, NoDup_app in Hnd.
  destruct Hnd as (_ & Hd1 & Hnd).
  rewrite NoDup_cons in Hnd. destruct Hnd as [Ha _].
  assert (H1 : Forall (fun y => t_id y <> t_id a) l1).
  { apply Forall_forall. intros y Hy E. apply (Hd1 (t_id a)).
    - apply list_elem_of_fmap. exists y. auto.
    - rewrite elem_of_cons. auto. }
  assert (H2 : Forall (fun y => t_id y <> t_id a) l2).
  { apply Forall_forall. intros y Hy E. apply Ha.
    apply list_elem_of_fmap. exists y. auto. }
  assert (Heq : findAndReorderTask (l1 ++ a :: l2) (t_id a) (t_id a) =
                splice_in (length (l1 ++ l2) - 1) a (l1 ++ l2)).
  { unfold findAndReorderTask, findAndReorderTask_with.
    rewrite (findIndex_id_middle (t_id a) l1) by auto.
    rewrite list_lookup_middle by reflexivity. rewrite delete_middle.
    assert (E : findIndex (fun t => bool_decide (t_id t = t_id a)) (l1 ++ l2)
                = None).
    { apply findIndex_id_None, Forall_app. auto. }
    rewrite E. reflexivity. }
  split; [exact Heq|]. rewrite Heq.
  rewrite splice_in_same.
  - rewrite length_app. split.
    + intros E. destruct l2 as [|y l2]; simpl in *.
      * right. split; [|reflexivity]. destruct l1; [reflexivity|simpl in E; lia].
      * left. lia.
    + intros [E | [-> ->]]; [lia|reflexivity].
  - apply (NoDup_fmap_1 t_id). exact Hnd0.
  - lia.
Qed.

Lemma findAndReorderTask_self_witness :
  findAndReorderTask
    [leaf "a" "A" PENDING; leaf "b" "B" PENDING; leaf "c" "C" PENDING] "a" "a" =
    [leaf "b" "B" PENDING; leaf "a" "A" PENDING; leaf "c" "C" PENDING].
Proof.
  refine (proj1 (findAndReorderTask_self
                   [] [leaf "b" "B" PENDING; leaf "c" "C" PENDING]
                   (leaf "a" "A" PENDING) _)).
  apply (bool_decide_unpack _); vm_compute; exact I.
Defined.

(** The same call where the task is the last sibling but one: nothing
    moves. *)
Example findAndReorderTask_self_last_but_one :
  findAndReorderTask
    [leaf "x" "X" PENDING; leaf "a" "A" PENDING; leaf "z" "Z" PENDING] "a" "a" =
    [leaf "x" "X" PENDING; leaf "a" "A" PENDING; leaf "z" "Z" PENDING].
Proof. reflexivity. Qed.

(** ** The task of the detail dialog *)

Lemma find_map_same {A} (pred : A -> bool) (g : A -> A) (l : list A) :
  (forall x, pred (g x) = pred x) ->
  List.find pred (map g l) = g <$> List.find pred l.
Proof.
  intros Hg. induction l as [|x l IH]; simpl; [reflexivity|].
  rewrite Hg. destruct (pred x); [reflexivity|exact IH].
Qed.

Lemma resolveActiveTask_modified (a : string) (f : Project -> Project)
  (st : AppState) (active : Task) (p : Project) :
  a <> ""%string -> (forall q, p_id (f q) = p_id q) ->
  List.find (fun proj => bool_decide (Some (p_id proj) = Some a)) (projects st)
    = Some p ->
  resolveActiveTask (modifyActiveProject (Some a) f st) (Some active) (Some a) =
    match findDeep (p_tasks (f p)) (t_id active) with
    | Some found => Some found
    | None => Some active
    end.
Proof.
  intros Ha Hf Hfind. unfold resolveActiveTask, modifyActiveProject.
  rewrite truthy_Some by assumption. simpl projects.
  rewrite find_map_same, Hfind.
  - simpl. apply find_some in Hfind as [_ Hp].
    apply bool_decide_eq_true in Hp. rewrite decide_True by assumption.
    reflexivity.
  - intros q. destruct (decide (Some (p_id q) = Some a)); [|reflexivity].
    rewrite Hf. reflexivity.
Qed.

(** With the project of the dialog found in the state: once the task of
    the dialog has been deleted, the dialog falls back on the copy it
    was opened with; once it has been updated in place by an updater
    that keeps its id, the dialog shows the updated task. *)
Theorem resolveActiveTask_after (a : string) (st : AppState) (active : Task)
  (p : Project) :
  a <> ""%string ->
  List.find (fun proj => bool_decide (Some (p_id proj) = Some a)) (projects st)
    = Some p ->
  resolveActiveTask (deleteTask (Some a) (t_id active) st) (Some active) (Some a)
    = Some active /\
  (forall t u,
      findDeep (p_tasks p) (t_id active) = Some t ->
      (forall x, t_id (u x) = t_id x) ->
      resolveActiveTask
        (modifyActiveProject (Some a)
           (fun q => with_tasks q (findTaskAndUpdate (p_tasks q) (t_id active) u))
           st)
        (Some active) (Some a) = Some (u t)).
Proof.
  intros Ha Hfind. split.
  - unfold deleteTask.
    rewrite (resolveActiveTask_modified a
               (fun q => with_tasks q (findTaskAndDelete (p_tasks q) (t_id active)))
               st active p Ha (fun q => eq_refl) Hfind).
    simpl p_tasks.
    destruct (findDeep_lookup (findTaskAndDelete (p_tasks p) (t_id active))
                (t_id active)) as [Hnone _].
    rewrite (proj2 Hnone); [reflexivity|]. apply findTaskAndDelete_removes.
  - intros t u Ht Hu.
    rewrite (resolveActiveTask_modified a
               (fun q => with_tasks q
                           (findTaskAndUpdate (p_tasks q) (t_id active) u))
               st active p Ha (fun q => eq_refl) Hfind).
    simpl p_tasks. rewrite findDeep_update, Ht by exact Hu. reflexivity.
Qed.

Lemma resolveActiveTask_after_witness :
  resolveActiveTask (deleteTask (Some "p1") "c" state_two)
    (Some (leaf "c" "C" PENDING)) (Some "p1") = Some (leaf "c" "C" PENDING).
Proof.
  refine (proj1 (resolveActiveTask_after "p1" state_two (leaf "c" "C" PENDING)
                   project_acb _ _)); [discriminate|reflexivity].
Defined.

(** ** A toggle that finds nothing *)

(** [toggleTaskStatus] on an id that occurs nowhere in the project
    gives the project back as it is: no status changes and no activity
    entry is written. *)
Theorem toggleTaskStatus_absent (user taskId logId : string) (now : Z)
  (p : Project) :
  taskId ∉ ids (p_tasks p) ->
  toggleTaskStatus_updater user taskId logId now p = p.
Proof.
  intros Habs. unfold toggleTaskStatus_updater.
  rewrite getStatus_findDeep.
  rewrite (proj2 (proj1 (findDeep_lookup (p_tasks p) taskId)) Habs).
  reflexivity.
Qed.

Lemma toggleTaskStatus_absent_witness :
  toggleTaskStatus_updater "u1" "zz" "l1" 5 project_acb = project_acb.
Proof.
  apply (toggleTaskStatus_absent "u1" "zz" "l1" 5 project_acb).
  apply (bool_decide_unpack _); vm_compute; exact I.
Defined.

(** ** Folding a task twice *)

Lemma findTaskAndUpdate_task_ext (id : string) (u v : Task -> Task) (t : Task) :
  (forall x, u x = v x) ->
  findTaskAndUpdate_task id u t = findTaskAndUpdate_task id v t.
Proof.
  intros Huv. induction t as [t IH] using Task_ind.
  rewrite !findTaskAndUpdate_task_eq.
  destruct (decide (t_id t = id)); [apply Huv|].
  destruct (0 <? length (t_subtasks t))%nat; [|reflexivity].
  unfold findTaskAndUpdate. f_equal. apply Forall_fmap_ext_1. exact IH.
Qed.

Lemma findTaskAndUpdate_ext (l : list Task) (id : string) (u v : Task -> Task) :
  (forall x, u x = v x) -> findTaskAndUpdate l id u = findTaskAndUpdate l id v.
Proof.
  intros Huv. unfold findTaskAndUpdate. apply map_ext. intros t.
  apply findTaskAndUpdate_task_ext. exact Huv.
Qed.

Lemma findTaskAndUpdate_task_fixed_on (id : string) (u : Task -> Task) (t : Task) :
  Forall (fun x => u x = x) (nodes_task t) -> findTaskAndUpdate_task id u t = t.
Proof.
  induction t as [t IH] using Task_ind.
  rewrite nodes_task_eq, Forall_cons, Forall_nodes. intros [Ht Hsub].
  rewrite findTaskAndUpdate_task_eq.
  destruct (decide (t_id t = id)); [exact Ht|].
  destruct (0 <? length (t_subtasks t))%nat; [|reflexivity].
  unfold findTaskAndUpdate. rewrite map_fixed; [apply with_subtasks_same|].
  rewrite Forall_forall in *. intros x Hx. apply IH; auto.
Qed.

Lemma modifyActiveProject_fixed_on (a : option string) (f : Project -> Project)
  (st : AppState) :
  Forall (fun p => f p = p) (projects st) -> modifyActiveProject a f st = st.
Proof.
  intros Hf. unfold modifyActiveProject. destruct (truthy a); [|reflexivity].
  destruct st as [ps]. simpl in *. f_equal. apply map_fixed.
  eapply Forall_impl; [exact Hf|]. intros p Hp. destruct (decide _); auto.
Qed.

(** [toggleExpand] done twice on the same task sets [expanded] to what
    it stood for (a task without the field ends with [false]); hence it
    gives the state back when every task has the field, and a third
    toggle always gives what the first gave. *)
Theorem toggleExpand_twice (activeProjectId : option string) (taskId : string)
  (st : AppState) :
  toggleExpand activeProjectId taskId (toggleExpand activeProjectId taskId st)
  = modifyActiveProject activeProjectId
      (fun p => with_tasks p
         (findTaskAndUpdate (p_tasks p) taskId
            (fun t => with_expanded t (default false (t_expanded t))))) st /\
  (expanded_set st ->
   toggleExpand activeProjectId taskId (toggleExpand activeProjectId taskId st)
   = st) /\
  toggleExpand activeProjectId taskId
    (toggleExpand activeProjectId taskId
       (toggleExpand activeProjectId taskId st))
  = toggleExpand activeProjectId taskId st.
Proof.
  assert (Htwice :
    toggleExpand activeProjectId taskId (toggleExpand activeProjectId taskId st)
    = modifyActiveProject activeProjectId
        (fun p => with_tasks p
           (findTaskAndUpdate (p_tasks p) taskId
              (fun t => with_expanded t (default false (t_expanded t))))) st).
  { unfold toggleExpand. rewrite modifyActiveProject_twice by reflexivity.
    unfold modifyActiveProject. destruct (truthy activeProjectId); [|reflexivity].
    f_equal. apply map_ext. intros p. destruct (decide _); [|reflexivity].
    simpl. f_equal. rewrite findTaskAndUpdate_twice by reflexivity.
    apply findTaskAndUpdate_ext. intros x. simpl.
    rewrite negb_involutive. reflexivity. }
  split; [exact Htwice|split].
  - intros Hset. rewrite Htwice. apply modifyActiveProject_fixed_on.
    eapply Forall_impl; [exact Hset|]. intros p Hp. cbv beta in Hp.
    transitivity (with_tasks p (p_tasks p)); [|apply with_tasks_same].
    f_equal. unfold findTaskAndUpdate. apply map_fixed.
    apply Forall_nodes in Hp. eapply Forall_impl; [exact Hp|]. intros t Ht.
    apply findTaskAndUpdate_task_fixed_on.
    eapply Forall_impl; [exact Ht|]. intros [? ? ? ? ? ? ? ? e ?] He.
    destruct e; [reflexivity|contradiction].
  - unfold toggleExpand. rewrite !modifyActiveProject_twice by reflexivity.
    unfold modifyActiveProject. destruct (truthy activeProjectId); [|reflexivity].
    f_equal. apply map_ext. intros p. destruct (decide _); [|reflexivity].
    simpl. f_equal. rewrite !findTaskAndUpdate_twice by reflexivity.
    apply findTaskAndUpdate_ext. intros x. simpl.
    rewrite negb_involutive. reflexivity.
Qed.

Lemma toggleExpand_twice_witness :
  toggleExpand (Some "p1") "c" (toggleExpand (Some "p1") "c" state_two)
  = state_two.
Proof.
  apply (proj1 (proj2 (toggleExpand_twice (Some "p1") "c" state_two))).
  unfold expanded_set. apply (bool_decide_unpack _). vm_compute. exact I.
Defined.
